(** * Entity resolution and text chunking: a shallow embedding

    This development embeds the resolution, chunking and cleaning utilities
    of the repository (src/src/dedupe_entities.py,
    src/src/resolve_entities.py, src/utils_kg.py and src/myutils.py) and
    checks the properties the specification states about them, and further
    properties of the same functions.

    Conventions of the embedding:
    - a Python [str] is a [string]; its characters are the code points
      below 256, one [ascii] each (the helpers work on [list ascii]);
    - a Python [int] argument is a [Z]; lengths and indices are [nat];
    - a raised exception is a value of [exn] on the left of a sum;
    - a [dict] used as a map from ids to ids is a [gmap string string];
    - a similarity score is the exact rational [2 * M / T] that Python
      rounds to a float, and a threshold is the rational its literal
      denotes ([0.8] is [8 # 10]);
    - the lines printed when [log_merges] or [log] is set are left out: they
      do not change what the functions return.

    The file has three parts: the embedding of the source, the vocabulary of
    the statements, and the proofs, with the examples of the specification
    at the end. *)

From Stdlib Require Import ZArith QArith Ascii String List Lia.
From stdpp Require Import base option list gmap strings fin_maps.

Open Scope nat_scope.

(** ** Python string primitives *)

Module PyStr.

Definition chars (s : string) : list ascii := list_ascii_of_string s.
Definition str (l : list ascii) : string := string_of_list_ascii l.

(** [str.isspace] on the code points below 256: the ASCII white space, the
    four separators 28..31, NEL (133) and the no-break space (160). *)
Definition is_space (c : ascii) : bool :=
  let n := nat_of_ascii c in
  ((9 <=? n) && (n <=? 13)) || ((28 <=? n) && (n <=? 32))
  || (n =? 133) || (n =? 160).

(** [str.lower] on one code point below 256: [A-Z] and the Latin-1 capitals
    192..222 (but the multiplication sign 215) are moved up by 32. *)
Definition lower_char (c : ascii) : ascii :=
  let n := nat_of_ascii c in
  if ((65 <=? n) && (n <=? 90))
     || ((192 <=? n) && (n <=? 222) && negb (n =? 215))
  then ascii_of_nat (n + 32) else c.

Definition lower (l : list ascii) : list ascii := map lower_char l.

Fixpoint drop_while (p : ascii -> bool) (l : list ascii) : list ascii :=
  match l with
  | [] => []
  | c :: l' => if p c then drop_while p l' else l
  end.

Definition lstrip (l : list ascii) : list ascii := drop_while is_space l.
Definition rstrip (l : list ascii) : list ascii :=
  rev (drop_while is_space (rev l)).
(** [s.strip()] *)
Definition strip (l : list ascii) : list ascii := rstrip (lstrip l).

(** [s.rstrip(".")]: every trailing dot is removed. *)
Definition rstrip_dots (l : list ascii) : list ascii :=
  rev (drop_while (fun c => Ascii.eqb c "."%char) (rev l)).

(** [s.split()]: the maximal runs of characters that are not white space.
    [cur] is the run being read, in reverse. *)
Fixpoint split_go (cur : list ascii) (l : list ascii) : list (list ascii) :=
  match l with
  | [] => match cur with [] => [] | _ => [rev cur] end
  | c :: l' =>
      if is_space c
      then match cur with
           | [] => split_go [] l'
           | _ => rev cur :: split_go [] l'
           end
      else split_go (c :: cur) l'
  end.
Definition split (l : list ascii) : list (list ascii) := split_go [] l.

(** [sep.join(parts)] *)
Fixpoint join (sep : list ascii) (parts : list (list ascii)) : list ascii :=
  match parts with
  | [] => []
  | [p] => p
  | p :: rest => p ++ sep ++ join sep rest
  end.

Definition space : list ascii := [" "%char].

End PyStr.

Inductive exn : Type := TypeError | ValueError | KeyError.

(** ** src/myutils.py: [chunk_text] (the copy in src/utils_kg.py is the same) *)

Module Chunker.
Import PyStr.

Definition is_boundary (c : ascii) : bool :=
  Ascii.eqb c "."%char || Ascii.eqb c "!"%char || Ascii.eqb c "?"%char.

(** [re.split(r'(?<=[.!?])', text)]: the text is cut after every [.], [!]
    and [?]; the piece after the last cut is always returned, empty or not
    (Python 3.7 and later split on empty matches). *)
Fixpoint re_split (l : list ascii) : list (list ascii) :=
  match l with
  | [] => [[]]
  | c :: l' =>
      if is_boundary c then [c] :: re_split l'
      else match re_split l' with
           | s :: rest => (c :: s) :: rest
           | [] => [[c]]
           end
  end.

(** [range(0, stop, step)] for [step > 0]. *)
Definition range_step (stop step : nat) : list nat :=
  map (fun q => q * step) (seq 0 ((stop + step - 1) / step)).

(** [[s[i:i + max_chars] for i in range(0, len(s), max_chars)]] *)
Definition hard_split (s : list ascii) (max_chars : nat) : list (list ascii) :=
  map (fun i => take max_chars (drop i s)) (range_step (length s) max_chars).

(** [if cur: chunks.append(cur)] *)
Definition flush (chunks : list (list ascii)) (cur : list ascii) :
    list (list ascii) :=
  match cur with [] => chunks | _ => chunks ++ [cur] end.

(** One turn of the loop over the sentences; the state is [(chunks, cur)]. *)
Definition chunk_step (max_chars : nat)
    (st : list (list ascii) * list ascii) (s0 : list ascii) :
    list (list ascii) * list ascii :=
  let '(chunks, cur) := st in
  let s := strip s0 in
  match s with
  | [] => (chunks, cur)
  | _ =>
      if length cur + length s + 1 <=? max_chars
      then (chunks, strip (cur ++ space ++ s))
      else
        let chunks := flush chunks cur in
        if max_chars <? length s
        then (chunks ++ hard_split s max_chars, [])
        else (chunks, s)
  end.

(** The chunks before the overlap pass (lines 73 to 96). *)
Definition sentence_chunks (text : list ascii) (max_chars : nat) :
    list (list ascii) :=
  let '(chunks, cur) := fold_left (chunk_step max_chars) (re_split text) ([], [])
  in flush chunks cur.

(** The inner loop of the overlap pass: words are taken from the end of the
    previous chunk while the running count stays within [overlap]. *)
Fixpoint take_words (overlap : nat) (rev_words : list (list ascii))
    (char_count : nat) (overlap_words : list (list ascii)) :
    list (list ascii) :=
  match rev_words with
  | [] => overlap_words
  | w :: rest =>
      if overlap <? char_count + length w + 1 then overlap_words
      else take_words overlap rest (char_count + length w + 1)
             (w :: overlap_words)
  end.

Definition overlap_candidate (overlap : nat) (prev c : list ascii) :
    list ascii :=
  let overlap_words := take_words overlap (rev (split prev)) 0 [] in
  let overlap_text := join space overlap_words in
  strip (overlap_text ++ space ++ c).

(** The loop over [enumerate(chunks)]; [new_chunks] grows at its end and
    [prev] is its last element. *)
Fixpoint overlap_loop (overlap : nat) (new_chunks : list (list ascii))
    (prev : list ascii) (rest : list (list ascii)) : list (list ascii) :=
  match rest with
  | [] => new_chunks
  | c :: rest' =>
      let candidate := overlap_candidate overlap prev c in
      overlap_loop overlap (new_chunks ++ [candidate]) candidate rest'
  end.

Definition apply_overlap (overlap : nat) (chunks : list (list ascii)) :
    list (list ascii) :=
  if negb (overlap =? 0) && (1 <? length chunks)
  then match chunks with
       | [] => []
       | c0 :: rest => overlap_loop overlap [c0] c0 rest
       end
  else chunks.

Definition chunk_text (text : string) (max_chars overlap : Z) :
    exn + list string :=
  if (max_chars <=? 0)%Z then inl ValueError
  else if (overlap <? 0)%Z then inl ValueError
  else inr (map str (apply_overlap (Z.to_nat overlap)
                       (sentence_chunks (chars text) (Z.to_nat max_chars)))).

End Chunker.

(** ** difflib: [SequenceMatcher(None, a, b).ratio()]

    The matcher is Python's standard library; it is embedded from
    Lib/difflib.py since both resolvers compare names through it.  [isjunk]
    is [None], so no element is junk and the two loops of
    [find_longest_match] that extend a match by junk never run; [autojunk]
    keeps its default [True].  [ratio] is the exact rational whose rounding
    Python returns as a float. *)

Module Difflib.

(** [__chain_b]: [b2j[x]] lists the positions of [x] in [b], in increasing
    order ... *)
Definition chain_all (b : list ascii) : gmap ascii (list nat) :=
  fold_left
    (fun b2j '(i, elt) => <[elt := default [] (b2j !! elt) ++ [i]]> b2j)
    (imap (fun i elt => (i, elt)) b) ∅.

(** ... and the popular elements are purged from it when [b] has 200
    elements or more. *)
Definition chain_b (b : list ascii) : gmap ascii (list nat) :=
  let b2j := chain_all b in
  let n := length b in
  if 200 <=? n
  then let ntest := n / 100 + 1 in
       filter (fun kv => ¬ (ntest < length kv.2)) b2j
  else b2j.

Record best := Best { besti : nat; bestj : nat; bestsize : nat }.

(** The loop over [b2j.get(a[i], nothing)]: [continue] below [blo], [break]
    from [bhi] on.  [i - k + 1] is written [i + 1 - k] ([k <= i + 1]). *)
Fixpoint scan_row (j2len : gmap nat nat) (i blo bhi : nat) (js : list nat)
    (newj2len : gmap nat nat) (bst : best) : gmap nat nat * best :=
  match js with
  | [] => (newj2len, bst)
  | j :: js' =>
      if j <? blo then scan_row j2len i blo bhi js' newj2len bst
      else if bhi <=? j then (newj2len, bst)
      else
        let k := match j with
                 | 0 => 0
                 | S j' => default 0 (j2len !! j')
                 end + 1 in
        let newj2len := <[j := k]> newj2len in
        let bst := if bestsize bst <? k
                   then Best (i + 1 - k) (j + 1 - k) k else bst in
        scan_row j2len i blo bhi js' newj2len bst
  end.

(** The loop [for i in range(alo, ahi)], over the list of its indices. *)
Fixpoint scan_rows (a : list ascii) (b2j : gmap ascii (list nat))
    (blo bhi : nat) (rows : list nat) (j2len : gmap nat nat) (bst : best) :
    best :=
  match rows with
  | [] => bst
  | i :: rows' =>
      let js := match a !! i with
                | Some x => default [] (b2j !! x)
                | None => []
                end in
      let '(newj2len, bst) := scan_row j2len i blo bhi js ∅ bst in
      scan_rows a b2j blo bhi rows' newj2len bst
  end.

Definition same_at (a b : list ascii) (i j : nat) : bool :=
  match a !! i, b !! j with
  | Some x, Some y => Ascii.eqb x y
  | _, _ => false
  end.

(** [while besti > alo and bestj > blo and a[besti-1] == b[bestj-1]] *)
Fixpoint extend_left (fuel : nat) (a b : list ascii) (alo blo : nat)
    (bst : best) : best :=
  match fuel with
  | 0 => bst
  | S fuel' =>
      if (alo <? besti bst) && (blo <? bestj bst)
         && same_at a b (besti bst - 1) (bestj bst - 1)
      then extend_left fuel' a b alo blo
             (Best (besti bst - 1) (bestj bst - 1) (bestsize bst + 1))
      else bst
  end.

(** [while besti+bestsize < ahi and bestj+bestsize < bhi and
    a[besti+bestsize] == b[bestj+bestsize]] *)
Fixpoint extend_right (fuel : nat) (a b : list ascii) (ahi bhi : nat)
    (bst : best) : best :=
  match fuel with
  | 0 => bst
  | S fuel' =>
      if (besti bst + bestsize bst <? ahi) && (bestj bst + bestsize bst <? bhi)
         && same_at a b (besti bst + bestsize bst) (bestj bst + bestsize bst)
      then extend_right fuel' a b ahi bhi
             (Best (besti bst) (bestj bst) (bestsize bst + 1))
      else bst
  end.

(** [find_longest_match(alo, ahi, blo, bhi)].  Each [while] loop is given
    as many turns as its guard allows. *)
Definition find_longest_match (a b : list ascii) (b2j : gmap ascii (list nat))
    (alo ahi blo bhi : nat) : best :=
  let bst := scan_rows a b2j blo bhi (seq alo (ahi - alo)) ∅ (Best alo blo 0) in
  let bst := extend_left (besti bst - alo) a b alo blo bst in
  extend_right (ahi - (besti bst + bestsize bst)) a b ahi bhi bst.

Definition block : Type := nat * nat * nat.
Definition range4 : Type := nat * nat * nat * nat.

(** The [while queue] loop of [get_matching_blocks].  The Python list
    [queue] is used as a stack; its end is the head of [queue] here.
    [None] means that [fuel] turns did not empty the queue. *)
Fixpoint blocks_loop (fuel : nat) (a b : list ascii)
    (b2j : gmap ascii (list nat)) (queue : list range4)
    (matching_blocks : list block) : option (list block) :=
  match queue with
  | [] => Some matching_blocks
  | (alo, ahi, blo, bhi) :: queue' =>
      match fuel with
      | 0 => None
      | S fuel' =>
          let x := find_longest_match a b b2j alo ahi blo bhi in
          let '(i, j, k) := (besti x, bestj x, bestsize x) in
          if k =? 0 then blocks_loop fuel' a b b2j queue' matching_blocks
          else
            let q1 := if (alo <? i) && (blo <? j)
                      then (alo, i, blo, j) :: queue' else queue' in
            let q2 := if (i + k <? ahi) && (j + k <? bhi)
                      then (i + k, ahi, j + k, bhi) :: q1 else q1 in
            blocks_loop fuel' a b b2j q2 (matching_blocks ++ [(i, j, k)])
      end
  end.

(** Tuples compare lexicographically. *)
Definition block_leb (x y : block) : bool :=
  let '(i1, j1, k1) := x in
  let '(i2, j2, k2) := y in
  (i1 <? i2) || ((i1 =? i2) && ((j1 <? j2) || ((j1 =? j2) && (k1 <=? k2)))).

Fixpoint insert_sorted (x : block) (l : list block) : list block :=
  match l with
  | [] => [x]
  | y :: l' => if block_leb x y then x :: l else y :: insert_sorted x l'
  end.
(** [matching_blocks.sort()] *)
Definition sort_blocks (l : list block) : list block :=
  fold_right insert_sorted [] l.

(** The loop that collapses adjacent blocks; [(i1, j1, k1)] is the block
    being grown. *)
Fixpoint collapse (cur : block) (l : list block) (non_adjacent : list block) :
    list block :=
  let '(i1, j1, k1) := cur in
  match l with
  | [] => if k1 =? 0 then non_adjacent else non_adjacent ++ [cur]
  | (i2, j2, k2) :: l' =>
      if (i1 + k1 =? i2) && (j1 + k1 =? j2)
      then collapse (i1, j1, k1 + k2) l' non_adjacent
      else collapse (i2, j2, k2) l'
             (if k1 =? 0 then non_adjacent else non_adjacent ++ [cur])
  end.

(** Every turn of the queue loop uses up one unit of
    [2 * (ahi - alo) + 1] summed over the queue, so [2 * len(a) + 1] turns
    are enough (lemma [blocks_loop_total] below). *)
Definition get_matching_blocks (a b : list ascii) : list block :=
  let la := length a in
  let lb := length b in
  let found :=
    default [] (blocks_loop (2 * la + 1) a b (chain_b b) [(0, la, 0, lb)] []) in
  collapse (0, 0, 0) (sort_blocks found) [] ++ [(la, lb, 0)].

Definition sum_sizes (l : list block) : nat :=
  fold_right (fun x acc => x.2 + acc) 0 l.

(** [_calculate_ratio(matches, length)] *)
Definition calculate_ratio (matches len : nat) : Q :=
  if len =? 0 then 1%Q
  else Qmake (2 * Z.of_nat matches) (Pos.of_nat len).

Definition ratio_chars (a b : list ascii) : Q :=
  calculate_ratio (sum_sizes (get_matching_blocks a b)) (length a + length b).

(** [SequenceMatcher(None, a, b).ratio()] *)
Definition ratio (a b : string) : Q :=
  ratio_chars (PyStr.chars a) (PyStr.chars b).

End Difflib.

(** ** Records of the resolution pass

    An entity is a Python dict with the required keys [id] and [name], the
    optional key [aliases] (a list of strings) and any further keys, kept in
    [ent_attrs]; the value of such a key is a string or a list of strings
    (the only distinction the resolver makes is [isinstance(v, list)]).
    Canonical entities are dicts of the resolver's own: they are built by
    [deepcopy] or as a new dict and never shared with the input, so the
    in-place updates of the matched dict are updates of the canonical list at
    the index of the match, and records are values here.  (The records are
    taken as they come from JSON: no list object is the value of two keys.
    utils_kg.py, which works on the dicts of its caller, is embedded over a
    store of objects further down.)  The other keys of a record are in
    [ent_attrs] and [rel_attrs], which hold no [id], [name], [aliases],
    [source], [relation], [target] or [evidence_span]. *)

Inductive value : Type :=
  | VStr (s : string)
  | VList (l : list string).

Record entity : Type := Entity {
  ent_id : string;
  ent_name : string;
  ent_aliases : option (list string);
  ent_attrs : gmap string value
}.

Record relationship : Type := Rel {
  rel_source : string;
  rel_relation : string;
  rel_target : string;
  rel_evidence : option string;
  rel_attrs : gmap string value
}.

Global Instance value_eq_dec : EqDecision value.
Proof. solve_decision. Defined.
Global Instance entity_eq_dec : EqDecision entity.
Proof. solve_decision. Defined.
Global Instance relationship_eq_dec : EqDecision relationship.
Proof. solve_decision. Defined.

(** [normalize_name], the same in dedupe_entities.py and
    resolve_entities.py. *)
Module Names.
Import PyStr.

Definition prefixes : list (list ascii) :=
  map chars ["dr"; "mr"; "mrs"; "ms"; "prof"; "sir"]%string.

Definition normalize_name (name : string) : string :=
  let name := strip (lower (chars name)) in
  let parts := split name in
  let parts := match parts with
               | p :: rest =>
                   if bool_decide (rstrip_dots p ∈ prefixes) then rest
                   else parts
               | [] => parts
               end in
  str (join space parts).

(** The scan of the canonical list, lines 24 to 36 of dedupe_entities.py:
    does [canon] stop the scan for the incoming normalized name? *)
Definition name_matches (sim_threshold : Q) (ent_name_norm : string)
    (canon : entity) : bool :=
  let canon_name_norm := normalize_name (ent_name canon) in
  let canon_aliases_norm :=
    map normalize_name (default [] (ent_aliases canon)) in
  if bool_decide (ent_name_norm = canon_name_norm)
     || bool_decide (ent_name_norm ∈ canon_aliases_norm)
  then true
  else Qle_bool sim_threshold (Difflib.ratio ent_name_norm canon_name_norm).

(** [for canon in canonical_entities: ... break]: the first canonical
    entity that matches, with its index. *)
Definition find_canon (sim_threshold : Q) (ent_name_norm : string)
    (canonical_entities : list entity) : option (nat * entity) :=
  list_find (fun canon => name_matches sim_threshold ent_name_norm canon)
    canonical_entities.

(** The default [sim_threshold=0.8]. *)
Definition default_threshold : Q := 8 # 10.

End Names.

(** ** src/src/dedupe_entities.py *)

Module Dedupe.
Import Names.

Section WithSetOrder.

(** [list({*xs, *ys})] lists the members of a Python set; the order is
    the set's own and not fixed by the language, so it is a parameter
    here: [set_order (xs ++ ys)] is that list. *)
Variable set_order : list string -> list string.

Definition merge_value (mv v : value) : option value :=
  Some match mv, v with
       | VList xs, VList ys => VList (set_order (xs ++ ys))
       | _, _ => mv
       end.

(** Lines 38 to 52: what the matched canonical dict becomes. *)
Definition absorb (matched ent : entity) : entity :=
  (* if "aliases" not in matched: matched["aliases"] = [] *)
  let aliases := default [] (ent_aliases matched) in
  (* the alias is appended when it is new and not the name *)
  let aliases :=
    if bool_decide (ent_name ent ≠ ent_name matched)
       && bool_decide (ent_name ent ∉ aliases)
    then aliases ++ [ent_name ent] else aliases in
  (* for k, v in ent.items(): [id] and [name] are on both sides and are
     no lists; [aliases] is on both sides and a list; the other keys *)
  let aliases := match ent_aliases ent with
                 | Some v => set_order (aliases ++ v)
                 | None => aliases
                 end in
  let attrs := union_with merge_value (ent_attrs matched) (ent_attrs ent) in
  Entity (ent_id matched) (ent_name matched) (Some aliases) attrs.

(** Lines 59 to 61: [deepcopy(ent)] with [aliases] defaulted. *)
Definition new_canonical (ent : entity) : entity :=
  Entity (ent_id ent) (ent_name ent)
    (Some (default [] (ent_aliases ent))) (ent_attrs ent).

(** One turn of the loop over [entities]. *)
Definition merge_step (sim_threshold : Q)
    (st : list entity * gmap string string) (ent : entity) :
    list entity * gmap string string :=
  let '(canonical_entities, resolved_map) := st in
  let ent_name_norm := normalize_name (ent_name ent) in
  match find_canon sim_threshold ent_name_norm canonical_entities with
  | Some (k, matched) =>
      (<[k := absorb matched ent]> canonical_entities,
       <[ent_id ent := ent_id matched]> resolved_map)
  | None =>
      let new_canon := new_canonical ent in
      (canonical_entities ++ [new_canon],
       <[ent_id ent := ent_id new_canon]> resolved_map)
  end.

Definition merge_entities (entities : list entity) (sim_threshold : Q) :
    list entity * gmap string string :=
  fold_left (merge_step sim_threshold) entities ([], ∅).

Definition rel_key (resolved_map : gmap string string)
    (rel : relationship) : string * string * string :=
  (default (rel_source rel) (resolved_map !! rel_source rel),
   rel_relation rel,
   default (rel_target rel) (resolved_map !! rel_target rel)).

(** [deepcopy(rel)] with its two ends replaced. *)
Definition new_rel (resolved_map : gmap string string)
    (rel : relationship) : relationship :=
  let '(src, _, tgt) := rel_key resolved_map rel in
  Rel src (rel_relation rel) tgt (rel_evidence rel) (rel_attrs rel).

Definition remap_step (resolved_map : gmap string string)
    (st : list relationship * gset (string * string * string))
    (rel : relationship) :
    list relationship * gset (string * string * string) :=
  let '(resolved_relationships, seen) := st in
  let key := rel_key resolved_map rel in
  if bool_decide (key ∉ seen)
  then (resolved_relationships ++ [new_rel resolved_map rel],
        seen ∪ {[key]})
  else st.

Definition remap_relationships (relationships : list relationship)
    (resolved_map : gmap string string) : list relationship :=
  (fold_left (remap_step resolved_map) relationships ([], ∅)).1.

(** The condition of the list comprehension, lines 96 to 101. *)
Definition keep_rel (resolved_map : gmap string string)
    (valid_ids : gset string) (rel : relationship) : bool :=
  match resolved_map !! rel_source rel, resolved_map !! rel_target rel with
  | Some s, Some t => bool_decide (s ∈ valid_ids) && bool_decide (t ∈ valid_ids)
  | _, _ => false
  end.

Definition finalize_entities_and_relationships (entities : list entity)
    (relationships : list relationship) :
    list entity * list relationship :=
  let '(canonical_entities, resolved_map) :=
    merge_entities entities default_threshold in
  let valid_ids : gset string :=
    list_to_set (map ent_id canonical_entities) in
  let filtered_relationships :=
    filter (fun rel => keep_rel resolved_map valid_ids rel) relationships in
  (canonical_entities,
   remap_relationships filtered_relationships resolved_map).

End WithSetOrder.

End Dedupe.

(** ** src/src/resolve_entities.py *)

Module Resolve.
Import Names.

(** The matched dict gets the alias; no other key is looked at. *)
Definition absorb (matched ent : entity) : entity :=
  let aliases := default [] (ent_aliases matched) in
  let aliases :=
    if bool_decide (ent_name ent ≠ ent_name matched)
       && bool_decide (ent_name ent ∉ aliases)
    then aliases ++ [ent_name ent] else aliases in
  Entity (ent_id matched) (ent_name matched) (Some aliases)
    (ent_attrs matched).

(** [{"id": ent["id"], "name": ent["name"], "aliases": []}] *)
Definition new_canonical (ent : entity) : entity :=
  Entity (ent_id ent) (ent_name ent) (Some []) ∅.

Definition merge_step (sim_threshold : Q)
    (st : list entity * gmap string string) (ent : entity) :
    list entity * gmap string string :=
  let '(canonical_entities, resolved_map) := st in
  let ent_name_norm := normalize_name (ent_name ent) in
  match find_canon sim_threshold ent_name_norm canonical_entities with
  | Some (k, matched) =>
      (<[k := absorb matched ent]> canonical_entities,
       <[ent_id ent := ent_id matched]> resolved_map)
  | None =>
      let new_canon := new_canonical ent in
      (canonical_entities ++ [new_canon],
       <[ent_id ent := ent_id new_canon]> resolved_map)
  end.

Definition merge_entities (entities : list entity) (sim_threshold : Q) :
    list entity * gmap string string :=
  fold_left (merge_step sim_threshold) entities ([], ∅).

Definition rel_key (resolved_map : gmap string string)
    (rel : relationship) : string * string * string :=
  (default (rel_source rel) (resolved_map !! rel_source rel),
   rel_relation rel,
   default (rel_target rel) (resolved_map !! rel_target rel)).

(** The dict literal of lines 59 to 62. *)
Definition new_rel (resolved_map : gmap string string)
    (rel : relationship) : relationship :=
  let '(src, _, tgt) := rel_key resolved_map rel in
  Rel src (rel_relation rel) tgt
    (Some (default ""%string (rel_evidence rel))) ∅.

Definition remap_step (resolved_map : gmap string string)
    (st : list relationship * gset (string * string * string))
    (rel : relationship) :
    list relationship * gset (string * string * string) :=
  let '(resolved_relationships, seen) := st in
  let key := rel_key resolved_map rel in
  if bool_decide (key ∉ seen)
  then (resolved_relationships ++ [new_rel resolved_map rel],
        seen ∪ {[key]})
  else st.

Definition remap_relationships (relationships : list relationship)
    (resolved_map : gmap string string) : list relationship :=
  (fold_left (remap_step resolved_map) relationships ([], ∅)).1.

Definition keep_rel (valid_ids : gset string) (rel : relationship) : bool :=
  bool_decide (rel_source rel ∈ valid_ids)
  && bool_decide (rel_target rel ∈ valid_ids).

Definition finalize_entities_and_relationships (entities : list entity)
    (relationships : list relationship) :
    list entity * list relationship :=
  let '(canonical_entities, resolved_map) :=
    merge_entities entities default_threshold in
  let valid_ids : gset string :=
    list_to_set (map ent_id canonical_entities) in
  let filtered_relationships :=
    filter (fun rel => keep_rel valid_ids rel) relationships in
  (canonical_entities,
   remap_relationships filtered_relationships resolved_map).

End Resolve.

(** ** src/utils_kg.py

    [merge_entities] of this file keeps the caller's dicts as its canonical
    entities and updates them in place, so it is embedded over a store of
    objects: dicts and lists live at locations, the input is a list of
    locations of dicts, and the [aliases] key of a dict holds the location of
    a list.  [None] stands for a reference that is not in the store. *)

Module UtilsKg.
Import PyStr.

Definition lower_str (s : string) : string := str (lower (chars s)).

(** [is_potential_alias(name1, name2, threshold=0.85)] *)
Definition is_potential_alias (name1 name2 : string) : bool :=
  negb (Qle_bool (Difflib.ratio (lower_str name1) (lower_str name2))
          (85 # 100)).

Definition loc : Type := nat.

Record dict_obj : Type := Dict {
  d_id : string;
  d_name : string;
  d_aliases : option loc;
  d_attrs : gmap string value
}.

Record heap : Type := Heap {
  dicts : gmap loc dict_obj;
  lists : gmap loc (list string)
}.

(** [canon.get("aliases", [])] *)
Definition aliases_of (h : heap) (d : dict_obj) : list string :=
  match d_aliases d with
  | Some l => default [] (lists h !! l)
  | None => []
  end.

(** The condition of lines 152 to 154. *)
Definition entity_matches (h : heap) (ent canon : dict_obj) : bool :=
  bool_decide (lower_str (d_name ent) = lower_str (d_name canon))
  || bool_decide (lower_str (d_name ent) ∈ map lower_str (aliases_of h canon))
  || is_potential_alias (d_name ent) (d_name canon).

(** [for canon in canonical_entities: if ...: matched = canon; break] *)
Fixpoint find_canon (h : heap) (ent : dict_obj) (canonical_entities : list loc) :
    option (option loc) :=
  match canonical_entities with
  | [] => Some None
  | c :: rest =>
      canon ← dicts h !! c;
      if entity_matches h ent canon then Some (Some c)
      else find_canon h ent rest
  end.

Definition state : Type := heap * list loc * gmap string string.

(** One turn of the loop over [global_entities]. *)
Definition merge_step (st : state) (ent_loc : loc) : option state :=
  let '(h, canonical_entities, resolved_map) := st in
  ent ← dicts h !! ent_loc;
  found ← find_canon h ent canonical_entities;
  match found with
  | Some m =>
      matched ← dicts h !! m;
      al ← d_aliases matched;
      l ← lists h !! al;
      (* matched["aliases"].append(ent["name"]) *)
      let h' := if bool_decide (d_name ent ∉ l)
                then Heap (dicts h) (<[al := l ++ [d_name ent]]> (lists h))
                else h in
      Some (h', canonical_entities, <[d_id ent := d_id matched]> resolved_map)
  | None =>
      (* ent["aliases"] = [] on the caller's dict, which then is the
         canonical entity *)
      let h' := match d_aliases ent with
                | Some _ => h
                | None =>
                    let al := fresh (dom (lists h)) in
                    Heap (<[ent_loc := Dict (d_id ent) (d_name ent) (Some al)
                                         (d_attrs ent)]> (dicts h))
                         (<[al := []]> (lists h))
                end in
      Some (h', canonical_entities ++ [ent_loc],
            <[d_id ent := d_id ent]> resolved_map)
  end.

Fixpoint merge_loop (st : state) (global_entities : list loc) : option state :=
  match global_entities with
  | [] => Some st
  | ent_loc :: rest => st' ← merge_step st ent_loc; merge_loop st' rest
  end.

Definition merge_entities (h : heap) (global_entities : list loc) :
    option state :=
  merge_loop (h, [], ∅) global_entities.

(** [remap_relationships]: the two ends are looked up with
    [resolved_map[...]], which raises [KeyError] for a missing id. *)
Fixpoint remap_loop (resolved_map : gmap string string)
    (global_relationships : list relationship)
    (resolved_relationships : list relationship)
    (seen : gset (string * string * string)) : exn + list relationship :=
  match global_relationships with
  | [] => inr resolved_relationships
  | rel :: rest =>
      match resolved_map !! rel_source rel with
      | None => inl KeyError
      | Some src =>
          match resolved_map !! rel_target rel with
          | None => inl KeyError
          | Some tgt =>
              let key := (src, rel_relation rel, tgt) in
              if bool_decide (key ∉ seen)
              then remap_loop resolved_map rest
                     (resolved_relationships
                        ++ [Rel src (rel_relation rel) tgt
                              (Some (default ""%string (rel_evidence rel))) ∅])
                     (seen ∪ {[key]})
              else remap_loop resolved_map rest resolved_relationships seen
          end
      end
  end.

Definition remap_relationships (global_relationships : list relationship)
    (resolved_map : gmap string string) : exn + list relationship :=
  remap_loop resolved_map global_relationships [] ∅.

End UtilsKg.

(** ** src/myutils.py: [strip_gutenberg_header_footer] (the copies in
    src/utils_kg.py and src/src/data_loader.py are the same)

    The four patterns are matched by hand.  A pattern is searched for as
    [re] does it: at every position from the first one on, the first
    position at which it matches being the match. *)

Module Gutenberg.
Import PyStr.

Definition newline : ascii := ascii_of_nat 10.
Definition stars : list ascii := chars "***".

(** A literal of a pattern compiled with [re.IGNORECASE], at the head of
    [l]: what is left of [l] after it.  On the code points below 256 two
    characters are the same but for their case when [str.lower] makes them
    equal. *)
Fixpoint skip_literal (lit l : list ascii) : option (list ascii) :=
  match lit with
  | [] => Some l
  | c :: lit' =>
      match l with
      | x :: l' =>
          if Ascii.eqb (lower_char c) (lower_char x) then skip_literal lit' l'
          else None
      | [] => None
      end
  end.

(** [ *]: the spaces at the head of [l] are taken, all of them (a letter
    comes next in the patterns, which no space left behind can match). *)
Definition skip_spaces (l : list ascii) : list ascii :=
  drop_while (fun c => Ascii.eqb c " "%char) l.

(** [.*?\*\*\*] with [re.DOTALL]: the number of characters before the
    first [***] of [l]. *)
Fixpoint find_stars (l : list ascii) : option nat :=
  match skip_literal stars l with
  | Some _ => Some 0
  | None => match l with
            | [] => None
            | _ :: l' => S <$> find_stars l'
            end
  end.

(** What follows [START OF ] or [END OF ]: one of the two words of
    [(THIS|THE)], then [ PROJECT GUTENBERG EBOOK.*?\*\*\*].  [l] is the text
    from the start of the match, [l3] what is left of it; the result is the
    length of the match. *)
Definition marker_tail (l l3 alt : list ascii) : option nat :=
  l4 ← skip_literal alt l3;
  l5 ← skip_literal (chars " PROJECT GUTENBERG EBOOK") l4;
  k ← find_stars l5;
  Some (length l - length l5 + k + 3).

(** [\*\*\* *<word> OF (THIS|THE) PROJECT GUTENBERG EBOOK.*?\*\*\*] at the
    head of [l], [THIS] being tried before [THE]. *)
Definition marker (word l : list ascii) : option nat :=
  l1 ← skip_literal stars l;
  l3 ← skip_literal (word ++ chars " OF ") (skip_spaces l1);
  match marker_tail l l3 (chars "THIS") with
  | Some n => Some n
  | None => marker_tail l l3 (chars "THE")
  end.

(** [[A-Z0-9\.\- ]] with [re.IGNORECASE] *)
Definition in_class (c : ascii) : bool :=
  let n := nat_of_ascii c in
  ((65 <=? n) && (n <=? 90)) || ((97 <=? n) && (n <=? 122))
  || ((48 <=? n) && (n <=? 57))
  || Ascii.eqb c "."%char || Ascii.eqb c "-"%char || Ascii.eqb c " "%char.

Definition two_in_class (l : list ascii) : bool :=
  match l with
  | x :: y :: _ => in_class x && in_class y
  | _ => false
  end.

(** [\s+[A-Z0-9\.\- ]{2,}]: white space, one character of it at least, with
    two characters of the class after it. *)
Fixpoint space_then_class (l : list ascii) : bool :=
  match l with
  | c :: l' => is_space c && (two_in_class l' || space_then_class l')
  | [] => false
  end.

(** [(chapter|i\.)\s+[A-Z0-9\.\- ]{2,}] *)
Definition keyword (l : list ascii) : bool :=
  match skip_literal (chars "chapter") l with
  | Some r => space_then_class r
  | None => false
  end
  || match skip_literal (chars "i.") l with
     | Some r => space_then_class r
     | None => false
     end.

(** [(?:^|\n)(chapter|i\.)\s+[A-Z0-9\.\- ]{2,}] at the position [pos],
    from which on the text is [l]: [^] is the start of the text. *)
Definition heading (pos : nat) (l : list ascii) : bool :=
  ((pos =? 0) && keyword l)
  || match l with
     | c :: l' => Ascii.eqb c newline && keyword l'
     | [] => false
     end.

(** [\*\*\* *END OF .{0,80}$] with [re.DOTALL]: [$] is the end of the text
    or the place before a newline that ends the text. *)
Definition alt_end (l : list ascii) : bool :=
  match skip_literal stars l with
  | Some l1 =>
      match skip_literal (chars "END OF ") (skip_spaces l1) with
      | Some l3 =>
          (length l3 <=? 80)
          || ((length l3 =? 81)
              && match last l3 with
                 | Some c => Ascii.eqb c newline
                 | None => false
                 end)
      | None => false
      end
  | None => false
  end.

(** [pattern.search(text)]: the first position at which the pattern
    matches, with what [match_at] gives there. *)
Fixpoint search {A} (match_at : nat -> list ascii -> option A) (pos : nat)
    (l : list ascii) : option (nat * A) :=
  match match_at pos l with
  | Some r => Some (pos, r)
  | None => match l with
            | [] => None
            | _ :: l' => search match_at (S pos) l'
            end
  end.

Definition start_idx (text : list ascii) : nat :=
  match search (fun _ l => marker (chars "START") l) 0 text with
  | Some (p, n) => p + n
  | None =>
      match search (fun pos l => if heading pos l then Some tt else None)
              0 text with
      | Some (p, _) => p
      | None => 0
      end
  end.

Definition end_idx (text : list ascii) : nat :=
  match search (fun _ l => marker (chars "END") l) 0 text with
  | Some (p, _) => p
  | None =>
      match search (fun _ l => if alt_end l then Some tt else None) 0 text with
      | Some (p, _) => p
      | None => length text
      end
  end.

(** [text[start_idx:end_idx].strip()] *)
Definition strip_gutenberg_header_footer (text : string) : string :=
  let t := chars text in
  str (strip (take (end_idx t - start_idx t) (drop (start_idx t) t))).

End Gutenberg.

(** ** Vocabulary of the statements *)

(** The identity key of a relationship record as it stands. *)
Definition triple : Type := string * string * string.

Definition key_of (r : relationship) : triple :=
  (rel_source r, rel_relation r, rel_target r).

(** What holds after the relationships [rels] of a loop that keeps the first
    record of each key: [key] is the key of an input record and [mk] the
    output record built from it. *)
Record loop_inv (key : relationship -> triple)
    (mk : relationship -> relationship) (rels : list relationship)
    (st : list relationship * gset triple) : Prop := {
  inv_seen : forall k, k ∈ st.2 <-> k ∈ map key rels;
  inv_keys : forall k, k ∈ map key_of st.1 <-> k ∈ st.2;
  inv_nodup : NoDup (map key_of st.1);
  inv_first : forall o, o ∈ st.1 ->
    exists l1 rel l2, rels = l1 ++ rel :: l2 /\ o = mk rel
                      /\ key rel ∉ map key l1;
  inv_order : st.1 `sublist_of` map mk rels
}.

(** The part of a record that resolve_entities.py reads. *)
Definition core (e : entity) : entity := Entity (ent_id e) (ent_name e) None ∅.

(** What holds of the canonical list and the map after the entities [es]. *)
Record merge_inv (es cs : list entity) (m : gmap string string) : Prop := {
  inv_ids : map ent_id cs `sublist_of` map ent_id es;
  inv_dom : forall i, is_Some (m !! i) <-> i ∈ map ent_id es;
  inv_img : forall i v, m !! i = Some v -> v ∈ map ent_id cs;
  inv_aliases : forall c, c ∈ cs -> is_Some (ent_aliases c)
}.

(** The canonical entity that takes the normalized name [n] in the scan of
    the canonical list [cs]: its index [k] and its id [cid]. *)
Definition routed_to (sim_threshold : Q) (n : string) (k : nat) (cid : string)
    (cs : list entity) : Prop :=
  exists c, Names.find_canon sim_threshold n cs = Some (k, c) /\ ent_id c = cid.






(** The queue loop: what is left to look at, in [a] and in [b]. *)
Definition span_a (queue : list Difflib.range4) : nat :=
  fold_right (fun '(alo, ahi, _, _) acc => (ahi - alo) + acc) 0 queue.
Definition span_b (queue : list Difflib.range4) : nat :=
  fold_right (fun '(_, _, blo, bhi) acc => (bhi - blo) + acc) 0 queue.
Definition well_formed (queue : list Difflib.range4) : Prop :=
  Forall (fun '(alo, ahi, blo, bhi) => alo <= ahi /\ blo <= bhi) queue.

(** White space in the statements about strings. *)
Definition blank (l : list ascii) : Prop :=
  Forall (fun c => PyStr.is_space c = true) l.

(** The characters of a string that are no white space. *)
Definition nonspace (l : list ascii) : list ascii :=
  filter (fun c => PyStr.is_space c = false) l.

(** A word: a non-empty run of characters that are no white space. *)
Definition word (w : list ascii) : Prop :=
  w <> [] /\ Forall (fun c => PyStr.is_space c = false) w.

(** What a list of words counts for in the overlap pass: each word and the
    space after it. *)
Definition overlap_cost (ws : list (list ascii)) : nat :=
  fold_right (fun w acc => length w + 1 + acc) 0 ws.

(** The words of a name once the title at their head is put aside. *)
Definition parts_of (name : string) : list (list ascii) :=
  match PyStr.split (PyStr.lower (PyStr.chars name)) with
  | p :: rest => if bool_decide (PyStr.rstrip_dots p ∈ Names.prefixes) then rest
                 else p :: rest
  | [] => []
  end.

(** The positions of a string at which a character stands. *)
Definition positions (a : list ascii) (x : ascii) : list nat :=
  filter (fun j => a !! j = Some x) (seq 0 (length a)).

(** Two positions of [a] that hold the same character, one that [b2j] has
    kept. *)
Definition same_live (a : list ascii) (b2j : gmap ascii (list nat))
    (i j : nat) : bool :=
  match a !! i, a !! j with
  | Some x, Some y => bool_decide (x = y) && bool_decide (is_Some (b2j !! x))
  | _, _ => false
  end.

(** The length of the run of such pairs that ends with [(i, j)]: what
    [j2len] holds for [j] after the row [i] of the scan of a string against
    itself. *)
Fixpoint run_length (a : list ascii) (b2j : gmap ascii (list nat))
    (i j : nat) {struct i} : nat :=
  if same_live a b2j i j
  then match i with
       | 0 => 1
       | S i' => match j with
                 | 0 => 1
                 | S j' => S (run_length a b2j i' j')
                 end
       end
  else 0.

(** An attribute value that a later merge has left in place: a string is
    the same string, a list has kept its members. *)
Definition value_kept (v v' : value) : Prop :=
  match v, v' with
  | VStr s, VStr s' => s = s'
  | VList xs, VList ys => forall x, x ∈ xs -> x ∈ ys
  | _, _ => False
  end.

(** A store in which every [aliases] key holds a list of the store. *)
Definition aliases_in_store (h : UtilsKg.heap) : Prop :=
  forall l d al,
    UtilsKg.dicts h !! l = Some d -> UtilsKg.d_aliases d = Some al ->
    is_Some (UtilsKg.lists h !! al).

(** Two dicts that differ in their [aliases] key at most. *)
Definition same_but_aliases (d d' : UtilsKg.dict_obj) : Prop :=
  UtilsKg.d_id d' = UtilsKg.d_id d /\ UtilsKg.d_name d' = UtilsKg.d_name d
  /\ UtilsKg.d_attrs d' = UtilsKg.d_attrs d.

(** What holds of the state of the loop of utils_kg.py after the entities
    [seen], from the store [h0] of the caller. *)
Definition state_ok (h0 : UtilsKg.heap) (seen : list UtilsKg.loc)
    (st : UtilsKg.state) : Prop :=
  let '(h, cs, m) := st in
  aliases_in_store h
  /\ (forall l d, UtilsKg.dicts h0 !! l = Some d ->
        exists d', UtilsKg.dicts h !! l = Some d' /\ same_but_aliases d d')
  /\ (forall c, c ∈ cs ->
        exists d al, UtilsKg.dicts h !! c = Some d
                     /\ UtilsKg.d_aliases d = Some al)
  /\ cs `sublist_of` seen
  /\ (forall l d, l ∈ seen -> UtilsKg.dicts h0 !! l = Some d ->
        is_Some (m !! UtilsKg.d_id d)).

(** A marker line as Project Gutenberg writes it:
    [*** START OF THE PROJECT GUTENBERG EBOOK <title>***], or the same
    with [END]. *)
Definition marker_line (word title : list ascii) : list ascii :=
  Gutenberg.stars ++ PyStr.space ++ word
  ++ PyStr.chars " OF THE PROJECT GUTENBERG EBOOK" ++ title ++ Gutenberg.stars.

(** A text that holds no [*]. *)
Definition no_star (l : list ascii) : Prop :=
  Forall (fun c => c <> "*"%char) l.

(** The sentences of a text as the chunker sees them: the fragments that
    [re.split] cuts, stripped, but the empty ones. *)
Definition sentences (text : list ascii) : list (list ascii) :=
  filter (fun s => s <> []) (map PyStr.strip (Chunker.re_split text)).

(** What the chunks of a text are made of: a group of sentences that go
    into one chunk, or one sentence that is too long and is cut. *)
Inductive piece : Type :=
  | Group (g : list (list ascii))
  | Cut (s : list ascii).

Definition piece_sentences (p : piece) : list (list ascii) :=
  match p with
  | Group g => g
  | Cut s => [s]
  end.

Definition piece_chunks (max_chars : nat) (p : piece) : list (list ascii) :=
  match p with
  | Group g => [PyStr.join PyStr.space g]
  | Cut s => Chunker.hard_split s max_chars
  end.

Definition piece_ok (max_chars : nat) (p : piece) : Prop :=
  match p with
  | Group g => g <> [] /\ length (PyStr.join PyStr.space g) <= max_chars
  | Cut s => max_chars < length s
  end.

(** The ordered triple (canonical source, relation, canonical target) of a
    relationship under a resolution map: an end that is a key of the map
    stands for the value the map gives it, any other end for itself. *)
Definition canonical_triple (resolved_map : gmap string string)
    (rel : relationship) : triple :=
  (default (rel_source rel) (resolved_map !! rel_source rel),
   rel_relation rel,
   default (rel_target rel) (resolved_map !! rel_target rel)).

(** What holds after the relationships [rels] of a loop that keeps the first
    record of each key: the output is built, record by record, from the
    input records [firsts] that come first for their key. *)
Definition firsts_inv (key : relationship -> triple)
    (mk : relationship -> relationship) (rels : list relationship)
    (st : list relationship * gset triple) : Prop :=
  exists firsts,
    st.1 = map mk firsts
    /\ firsts `sublist_of` rels
    /\ (forall k, k ∈ st.2 <-> k ∈ map key rels)
    /\ (forall k, k ∈ map key firsts <-> k ∈ st.2)
    /\ NoDup (map key firsts)
    /\ forall f, f ∈ firsts ->
         exists l1 l2, rels = l1 ++ f :: l2 /\ key f ∉ map key l1.

(** * Proofs *)

Ltac to_fmap :=
  repeat match goal with
    | |- context [map ?f ?l] => change (map f l) with (f <$> l)
    | H : context [map ?f ?l] |- _ => change (map f l) with (f <$> l) in H
    end.

(** ** The chunker *)

Module ChunkerProofs.
Import PyStr Chunker.

Lemma drop_while_length p l : length (drop_while p l) <= length l.
Proof. induction l as [|c l IH]; simpl; [lia|]. destruct (p c); simpl; lia. Qed.

Lemma strip_length l : length (strip l) <= length l.
Proof.
  unfold strip, rstrip, lstrip. rewrite length_rev.
  etransitivity; [apply drop_while_length|]. rewrite length_rev.
  apply drop_while_length.
Qed.

Lemma chars_str l : chars (str l) = l.
Proof. apply list_ascii_of_string_of_list_ascii. Qed.

Lemma str_length l : String.length (str l) = length l.
Proof. induction l; simpl; congruence. Qed.

Section Slices.
Variable max_chars : nat.
Hypothesis max_pos : 0 < max_chars.

Lemma slices_number (len : nat) :
  0 < len ->
  let n := (len + max_chars - 1) / max_chars in
  (n - 1) * max_chars < len <= n * max_chars /\ 0 < n.
Proof.
  intros Hlen n.
  pose proof (Nat.div_mod_eq (len + max_chars - 1) max_chars) as E.
  pose proof (Nat.mod_upper_bound (len + max_chars - 1) max_chars).
  fold n in E. destruct n as [|n]; [nia|]. simpl. nia.
Qed.

Lemma concat_slices (s : list ascii) (n : nat) :
  concat (map (fun i => take max_chars (drop i s))
            (map (fun q => q * max_chars) (seq 0 n)))
  = take (n * max_chars) s.
Proof.
  induction n as [|n IH]; [reflexivity|].
  rewrite seq_S, !map_app, concat_app, IH. simpl. rewrite app_nil_r.
  replace (max_chars + n * max_chars) with (n * max_chars + max_chars) by lia.
  rewrite <- (take_drop (n * max_chars) (take (n * max_chars + max_chars) s)).
  rewrite take_take, Nat.min_l by lia.
  f_equal. rewrite skipn_firstn_comm.
  f_equal. lia.
Qed.

Lemma hard_split_concat (s : list ascii) : concat (hard_split s max_chars) = s.
Proof.
  unfold hard_split, range_step. rewrite concat_slices.
  destruct s as [|c s]; [by rewrite take_nil|].
  apply take_ge.
  destruct (slices_number (length (c :: s))) as [[_ ?] _]; [simpl; lia|lia].
Qed.

Lemma hard_split_lookup (s : list ascii) (i : nat) (piece : list ascii) :
  hard_split s max_chars !! i = Some piece ->
  0 < length piece <= max_chars
  /\ (S i < length (hard_split s max_chars) -> length piece = max_chars).
Proof.
  unfold hard_split, range_step. rewrite !length_map, length_seq.
  intros H. rewrite !list_lookup_fmap in H.
  destruct (seq 0 ((length s + max_chars - 1) `div` max_chars) !! i)
    as [q|] eqn:Hq; [|discriminate].
  apply lookup_seq in Hq as [-> Hi]. simpl in H. injection H as <-.
  rewrite length_take, length_drop.
  assert (0 < length s) as Hs by (destruct s; simpl in *; [|lia];
    rewrite Nat.div_small in Hi; lia).
  destruct (slices_number (length s) Hs) as [[Hlo Hhi] Hn].
  split; [nia|]. intros Hlt. nia.
Qed.

Lemma hard_split_bounded (s : list ascii) :
  Forall (fun c => 0 < length c <= max_chars) (hard_split s max_chars).
Proof.
  apply Forall_lookup. intros i piece H.
  by apply hard_split_lookup in H as [? _].
Qed.

Lemma flush_Forall (P : list ascii -> Prop) chunks cur :
  Forall P chunks -> (cur <> [] -> P cur) -> Forall P (flush chunks cur).
Proof.
  intros Hc Hcur. destruct cur; simpl; [done|].
  apply Forall_app; split; [done|]. constructor; [|constructor]. by apply Hcur.
Qed.

Let bounded_state (st : list (list ascii) * list ascii) : Prop :=
  Forall (fun c => length c <= max_chars) st.1 /\ length st.2 <= max_chars.

Lemma chunk_step_bounded st s :
  bounded_state st -> bounded_state (chunk_step max_chars st s).
Proof.
  destruct st as [chunks cur]. intros [Hc Hcur]. simpl in *.
  unfold chunk_step. destruct (strip s) as [|c s'] eqn:Es; [by split|].
  rewrite <- Es. clear Es.
  destruct (Nat.leb_spec (length cur + length (strip s) + 1) max_chars).
  - split; [done|]. simpl.
    etransitivity; [apply strip_length|]. rewrite !length_app. simpl. lia.
  - assert (Forall (fun c => length c <= max_chars) (flush chunks cur))
      by (apply flush_Forall; auto).
    destruct (Nat.ltb_spec max_chars (length (strip s))); split; simpl;
      try done; try lia.
    apply Forall_app; split; [done|].
    eapply Forall_impl; [apply hard_split_bounded|]. simpl. lia.
Qed.

Lemma fold_chunk_step_bounded l st :
  bounded_state st -> bounded_state (fold_left (chunk_step max_chars) l st).
Proof.
  revert st. induction l as [|s l IH]; intros st H; simpl; [done|].
  apply IH. by apply chunk_step_bounded.
Qed.

Lemma sentence_chunks_bounded text :
  Forall (fun c => length c <= max_chars) (sentence_chunks text max_chars).
Proof.
  unfold sentence_chunks.
  pose proof (fold_chunk_step_bounded (re_split text) ([], [])) as H.
  destruct (fold_left _ _ _) as [chunks cur].
  destruct H as [Hc Hcur]; [split; simpl; [constructor|lia]|].
  apply flush_Forall; auto.
Qed.

Lemma chunk_step_oversized chunks cur s :
  max_chars < length (strip s) ->
  chunk_step max_chars (chunks, cur) s
  = (flush chunks cur ++ hard_split (strip s) max_chars, []).
Proof.
  intros H. unfold chunk_step.
  destruct (strip s) as [|c s']; [simpl in H; lia|].
  destruct (Nat.leb_spec (length cur + length (c :: s') + 1) max_chars); [lia|].
  destruct (Nat.ltb_spec max_chars (length (c :: s'))); [done|lia].
Qed.

End Slices.

Lemma chunk_text_no_overlap (text : string) (max_chars : Z) :
  (0 < max_chars)%Z ->
  chunk_text text max_chars 0
  = inr (map str (sentence_chunks (chars text) (Z.to_nat max_chars))).
Proof.
  intros H. unfold chunk_text.
  destruct (Z.leb_spec max_chars 0); [lia|]. reflexivity.
Qed.

(** Chunks are never empty before the overlap pass. *)
Lemma sentence_chunks_nonempty text max_chars :
  0 < max_chars -> Forall (fun c => c <> []) (sentence_chunks text max_chars).
Proof.
  intros Hmax. unfold sentence_chunks.
  assert (forall l st, Forall (fun c => c <> []) st.1 ->
            Forall (fun c => c <> []) (fold_left (chunk_step max_chars) l st).1)
    as Hfold.
  { induction l as [|s l IH]; intros [chunks cur] H; simpl; [done|].
    apply IH. unfold chunk_step. simpl in H.
    destruct (strip s) as [|c s']; [done|].
    destruct (_ <=? _); [done|].
    assert (Forall (fun c => c <> []) (flush chunks cur))
      by (apply flush_Forall; auto).
    destruct (_ <? _); simpl; [|done].
    apply Forall_app; split; [done|].
    eapply Forall_impl; [by apply hard_split_bounded|].
    simpl. intros [|??] ?; simpl in *; [lia|done]. }
  specialize (Hfold (re_split text) ([], [])).
  destruct (fold_left _ _ _) as [chunks cur]. simpl in Hfold.
  apply flush_Forall; auto.
Qed.

Lemma str_nonempty l : l <> [] -> str l <> ""%string.
Proof. by destruct l. Qed.

Lemma chunk_text_no_overlap_nonempty text max_chars chunks :
  chunk_text text max_chars 0 = inr chunks ->
  Forall (fun c => c <> ""%string) chunks.
Proof.
  unfold chunk_text. destruct (Z.leb_spec max_chars 0); [discriminate|].
  simpl. intros [= <-]. apply Forall_fmap.
  eapply Forall_impl; [apply sentence_chunks_nonempty; lia|].
  intros c. apply str_nonempty.
Qed.

Lemma space_not_boundary c : is_space c = true -> is_boundary c = false.
Proof. destruct c as [[] [] [] [] [] [] [] []]; vm_compute; congruence. Qed.

Lemma re_split_blank l : Forall (fun c => is_space c = true) l -> re_split l = [l].
Proof.
  induction 1 as [|c l Hc _ IH]; [done|]. simpl.
  by rewrite (space_not_boundary c Hc), IH.
Qed.

Lemma strip_blank l : Forall (fun c => is_space c = true) l -> strip l = [].
Proof.
  intros H. unfold strip, lstrip.
  assert (drop_while is_space l = []) as ->; [|done].
  induction H as [|c l Hc _ IH]; [done|]. simpl. by rewrite Hc.
Qed.

(** A text of white space only gives no chunk at all. *)
Lemma chunk_text_blank text max_chars overlap :
  (0 < max_chars)%Z -> (0 <= overlap)%Z ->
  Forall (fun c => is_space c = true) (chars text) ->
  chunk_text text max_chars overlap = inr [].
Proof.
  intros Hm Ho Hblank. unfold chunk_text.
  destruct (Z.leb_spec max_chars 0); [lia|].
  destruct (Z.ltb_spec overlap 0); [lia|].
  unfold sentence_chunks. rewrite (re_split_blank _ Hblank). simpl.
  unfold chunk_step. rewrite (strip_blank _ Hblank). simpl.
  unfold apply_overlap. simpl. by rewrite andb_false_r.
Qed.

End ChunkerProofs.

Import PyStr Chunker ChunkerProofs.

(** C10: with a positive overlap [chunk_text] can return an empty string: a
    slice of a cut fragment that is white space only is stripped to nothing
    when no word of the chunk before fits the overlap. *)
Theorem chunk_text_returns_empty_chunk :
  chunk_text "a b" 1 1 = inr ["a"; ""; "b"]%string.
Proof. reflexivity. Qed.

(** ** The remapping of relationships *)

Module RemapProofs.

Section DedupLoop.
(** Both copies of [remap_relationships] are the same loop, with their own
    way [mk] of building the output record. *)
Variable key : relationship -> triple.
Variable mk : relationship -> relationship.
Variable step : list relationship * gset triple -> relationship ->
                list relationship * gset triple.
Hypothesis step_eq : forall out seen rel,
  step (out, seen) rel
  = if bool_decide (key rel ∉ seen)
    then (out ++ [mk rel], seen ∪ {[key rel]}) else (out, seen).
Hypothesis mk_key : forall rel, key_of (mk rel) = key rel.

Abbreviation loop_inv := (loop_inv key mk).

Lemma loop_inv_nil : loop_inv [] ([], ∅).
Proof.
  split; simpl.
  - intros k. rewrite elem_of_nil. set_solver.
  - intros k. rewrite elem_of_nil. set_solver.
  - constructor.
  - intros o Ho. by apply elem_of_nil in Ho.
  - constructor.
Qed.

Lemma loop_inv_step rels st rel :
  loop_inv rels st -> loop_inv (rels ++ [rel]) (step st rel).
Proof.
  destruct st as [out seen]. intros [Hseen Hkeys Hnd Hfirst Hord].
  simpl in *. rewrite step_eq.
  assert (forall o, o ∈ out ->
            exists l1 r l2, rels ++ [rel] = l1 ++ r :: l2 /\ o = mk r
                            /\ key r ∉ map key l1) as Hold.
  { intros o Ho. destruct (Hfirst o Ho) as (l1 & r & l2 & -> & -> & Hn).
    exists l1, r, (l2 ++ [rel]). by rewrite <- app_assoc. }
  case_bool_decide as Hin.
  - split; simpl.
    + intros k. rewrite map_app, elem_of_app, elem_of_union, Hseen. simpl.
      rewrite list_elem_of_singleton. clear; set_solver.
    + intros k. rewrite map_app, elem_of_app, elem_of_union, Hkeys. simpl.
      rewrite list_elem_of_singleton, mk_key. clear; set_solver.
    + rewrite map_app. simpl. apply NoDup_app. split; [done|].
      split; [|apply NoDup_singleton].
      intros k Hk. rewrite list_elem_of_singleton, mk_key. intros ->.
      apply Hin. by apply Hkeys.
    + intros o [Ho| ->%list_elem_of_singleton]%elem_of_app; [by apply Hold|].
      exists rels, rel, []. split; [done|]. split; [done|].
      intros Hk. apply Hin. by apply Hseen.
    + rewrite map_app. simpl. by apply sublist_app.
  - split; simpl; [| done | done | done |].
    + intros k. rewrite map_app, elem_of_app, Hseen. simpl.
      rewrite list_elem_of_singleton. split; [by left|].
      intros [?| ->]; [done|]. by apply Hseen.
    + rewrite map_app. by apply sublist_inserts_r.
Qed.

Lemma loop_inv_fold rels done st :
  loop_inv done st -> loop_inv (done ++ rels) (fold_left step rels st).
Proof.
  revert done st. induction rels as [|rel rels IH]; intros done st H; simpl.
  - by rewrite app_nil_r.
  - replace (done ++ rel :: rels) with ((done ++ [rel]) ++ rels)
      by (by rewrite <- app_assoc).
    apply IH. by apply loop_inv_step.
Qed.

Lemma loop_result rels :
  let out := (fold_left step rels ([], ∅)).1 in
  NoDup (map key_of out)
  /\ (forall rel, rel ∈ rels -> key rel ∈ map key_of out)
  /\ (forall o, o ∈ out ->
        exists l1 rel l2, rels = l1 ++ rel :: l2 /\ o = mk rel
                          /\ key rel ∉ map key l1)
  /\ out `sublist_of` map mk rels.
Proof.
  pose proof (loop_inv_fold rels [] _ loop_inv_nil) as [H1 H2 H3 H4 H5].
  simpl in *. repeat split; try done.
  intros rel Hrel. apply H2, H1. apply list_elem_of_In, in_map.
  by apply list_elem_of_In.
Qed.

End DedupLoop.

Lemma dedupe_step_eq m out seen rel :
  Dedupe.remap_step m (out, seen) rel
  = if bool_decide (Dedupe.rel_key m rel ∉ seen)
    then (out ++ [Dedupe.new_rel m rel], seen ∪ {[Dedupe.rel_key m rel]})
    else (out, seen).
Proof. reflexivity. Qed.

Lemma resolve_step_eq m out seen rel :
  Resolve.remap_step m (out, seen) rel
  = if bool_decide (Resolve.rel_key m rel ∉ seen)
    then (out ++ [Resolve.new_rel m rel], seen ∪ {[Resolve.rel_key m rel]})
    else (out, seen).
Proof. reflexivity. Qed.

(** No record is lost: each input relationship has its key in the output. *)
Lemma dedupe_remap_result rels m :
  let out := Dedupe.remap_relationships rels m in
  NoDup (map key_of out)
  /\ (forall rel, rel ∈ rels -> Dedupe.rel_key m rel ∈ map key_of out)
  /\ (forall o, o ∈ out ->
        exists l1 rel l2, rels = l1 ++ rel :: l2 /\ o = Dedupe.new_rel m rel
                          /\ Dedupe.rel_key m rel ∉ map (Dedupe.rel_key m) l1)
  /\ out `sublist_of` map (Dedupe.new_rel m) rels.
Proof.
  apply (loop_result (Dedupe.rel_key m) (Dedupe.new_rel m) (Dedupe.remap_step m)).
  - apply dedupe_step_eq.
  - intros rel. unfold Dedupe.new_rel, Dedupe.rel_key, key_of. reflexivity.
Qed.

Lemma resolve_remap_result rels m :
  let out := Resolve.remap_relationships rels m in
  NoDup (map key_of out)
  /\ (forall rel, rel ∈ rels -> Resolve.rel_key m rel ∈ map key_of out)
  /\ (forall o, o ∈ out ->
        exists l1 rel l2, rels = l1 ++ rel :: l2 /\ o = Resolve.new_rel m rel
                          /\ Resolve.rel_key m rel ∉ map (Resolve.rel_key m) l1)
  /\ out `sublist_of` map (Resolve.new_rel m) rels.
Proof.
  apply (loop_result (Resolve.rel_key m) (Resolve.new_rel m) (Resolve.remap_step m)).
  - apply resolve_step_eq.
  - intros rel. unfold Resolve.new_rel, Resolve.rel_key, key_of. reflexivity.
Qed.

(** The tolerant default of the two newer copies: an end that is not in the
    map is found unchanged in the output record of its key. *)
Lemma dedupe_remap_missing_source rels m rel :
  rel ∈ rels -> m !! rel_source rel = None ->
  exists o, o ∈ Dedupe.remap_relationships rels m
            /\ rel_source o = rel_source rel
            /\ rel_relation o = rel_relation rel
            /\ rel_target o = default (rel_target rel) (m !! rel_target rel).
Proof.
  intros Hin Hs.
  destruct (dedupe_remap_result rels m) as (_ & Hall & _).
  specialize (Hall rel Hin). apply list_elem_of_In, in_map_iff in Hall.
  destruct Hall as (o & Hk & Ho). exists o. split; [by apply list_elem_of_In|].
  unfold key_of, Dedupe.rel_key in Hk. rewrite Hs in Hk. simpl in Hk.
  by injection Hk.
Qed.

Lemma dedupe_remap_missing_target rels m rel :
  rel ∈ rels -> m !! rel_target rel = None ->
  exists o, o ∈ Dedupe.remap_relationships rels m
            /\ rel_source o = default (rel_source rel) (m !! rel_source rel)
            /\ rel_relation o = rel_relation rel
            /\ rel_target o = rel_target rel.
Proof.
  intros Hin Hs.
  destruct (dedupe_remap_result rels m) as (_ & Hall & _).
  specialize (Hall rel Hin). apply list_elem_of_In, in_map_iff in Hall.
  destruct Hall as (o & Hk & Ho). exists o. split; [by apply list_elem_of_In|].
  unfold key_of, Dedupe.rel_key in Hk. rewrite Hs in Hk. simpl in Hk.
  by injection Hk.
Qed.

Lemma resolve_remap_missing_source rels m rel :
  rel ∈ rels -> m !! rel_source rel = None ->
  exists o, o ∈ Resolve.remap_relationships rels m
            /\ rel_source o = rel_source rel
            /\ rel_relation o = rel_relation rel
            /\ rel_target o = default (rel_target rel) (m !! rel_target rel).
Proof.
  intros Hin Hs.
  destruct (resolve_remap_result rels m) as (_ & Hall & _).
  specialize (Hall rel Hin). apply list_elem_of_In, in_map_iff in Hall.
  destruct Hall as (o & Hk & Ho). exists o. split; [by apply list_elem_of_In|].
  unfold key_of, Resolve.rel_key in Hk. rewrite Hs in Hk. simpl in Hk.
  by injection Hk.
Qed.

Lemma resolve_remap_missing_target rels m rel :
  rel ∈ rels -> m !! rel_target rel = None ->
  exists o, o ∈ Resolve.remap_relationships rels m
            /\ rel_source o = default (rel_source rel) (m !! rel_source rel)
            /\ rel_relation o = rel_relation rel
            /\ rel_target o = rel_target rel.
Proof.
  intros Hin Hs.
  destruct (resolve_remap_result rels m) as (_ & Hall & _).
  specialize (Hall rel Hin). apply list_elem_of_In, in_map_iff in Hall.
  destruct Hall as (o & Hk & Ho). exists o. split; [by apply list_elem_of_In|].
  unfold key_of, Resolve.rel_key in Hk. rewrite Hs in Hk. simpl in Hk.
  by injection Hk.
Qed.

(** In utils_kg.py a missing id raises [KeyError]. *)
Lemma utils_remap_loop_key_error m rels out seen :
  (exists rel, rel ∈ rels
               /\ (m !! rel_source rel = None \/ m !! rel_target rel = None)) ->
  UtilsKg.remap_loop m rels out seen = inl KeyError.
Proof.
  revert out seen. induction rels as [|r rels IH]; intros out seen (rel & Hin & Hmiss).
  - by apply elem_of_nil in Hin.
  - simpl. destruct (m !! rel_source r) as [src|] eqn:Hs; [|done].
    destruct (m !! rel_target r) as [tgt|] eqn:Ht; [|done].
    apply elem_of_cons in Hin as [->|Hin]; [destruct Hmiss; congruence|].
    case_bool_decide; apply IH; eauto.
Qed.

End RemapProofs.

(** ** The resolution pass: ids and the map *)

Module MergeProofs.
Import Names.

Section Dedupe.
Variable so : list string -> list string.
Variable th : Q.

Lemma absorb_id c e : ent_id (Dedupe.absorb so c e) = ent_id c.
Proof. reflexivity. Qed.
Lemma absorb_name c e : ent_name (Dedupe.absorb so c e) = ent_name c.
Proof. reflexivity. Qed.

Lemma find_canon_Some n cs k c :
  find_canon th n cs = Some (k, c) ->
  cs !! k = Some c /\ name_matches th n c = true
  /\ forall j y, cs !! j = Some y -> j < k -> name_matches th n y = false.
Proof.
  unfold find_canon. intros (H1 & H2 & H3)%list_find_Some.
  split; [done|]. split; [by apply Is_true_true|].
  intros j y Hj Hlt. specialize (H3 j y Hj Hlt).
  by apply negb_prop_intro, Is_true_true, negb_true_iff in H3.
Qed.

Lemma find_canon_None n cs :
  find_canon th n cs = None <->
  forall c, c ∈ cs -> name_matches th n c = false.
Proof.
  unfold find_canon. rewrite list_find_None, Forall_forall.
  split; intros H c Hc.
  - specialize (H c Hc). by apply negb_prop_intro, Is_true_true, negb_true_iff in H.
  - rewrite (H c Hc). by intros [].
Qed.

Lemma fmap_insert_absorb (cs : list entity) (k : nat) c e :
  cs !! k = Some c ->
  ent_id <$> <[k := Dedupe.absorb so c e]> cs = ent_id <$> cs.
Proof.
  intros Hk. rewrite list_fmap_insert, absorb_id.
  apply list_insert_id. by rewrite list_lookup_fmap, Hk.
Qed.

Lemma merge_step_inv es st e :
  merge_inv es st.1 st.2 ->
  merge_inv (es ++ [e]) (Dedupe.merge_step so th st e).1
                        (Dedupe.merge_step so th st e).2.
Proof.
  destruct st as [cs m]. simpl.
  intros [Hids Hdom Himg Hal]. unfold Dedupe.merge_step.
  destruct (find_canon th _ cs) as [[k c]|] eqn:Hfind; simpl.
  - apply find_canon_Some in Hfind as (Hk & _ & _).
    split; to_fmap.
    + rewrite fmap_insert_absorb by done. rewrite fmap_app.
      by apply sublist_inserts_r.
    + intros i. rewrite lookup_insert_is_Some, fmap_app, elem_of_app, Hdom.
      simpl. rewrite list_elem_of_singleton.
      clear. destruct (decide (ent_id e = i)) as [->|]; intuition congruence.
    + intros i v. rewrite fmap_insert_absorb by done.
      rewrite lookup_insert. case_decide.
      * intros [= <-]. apply list_elem_of_fmap_2. by eapply list_elem_of_lookup_2.
      * apply Himg.
    + intros c' [i Hi]%list_elem_of_lookup.
      destruct (decide (i = k)) as [->|Hne].
      * rewrite list_lookup_insert_eq in Hi by (by eapply lookup_lt_Some).
        injection Hi as <-. by eexists.
      * rewrite list_lookup_insert_ne in Hi by done.
        apply Hal. by eapply list_elem_of_lookup_2.
  - split; to_fmap.
    + rewrite !fmap_app. simpl. by apply sublist_app.
    + intros i. rewrite lookup_insert_is_Some, fmap_app, elem_of_app, Hdom.
      simpl. rewrite list_elem_of_singleton.
      clear. destruct (decide (ent_id e = i)) as [->|]; intuition congruence.
    + intros i v. rewrite fmap_app, elem_of_app. simpl.
      rewrite lookup_insert. case_decide.
      * intros [= <-]. right. by apply list_elem_of_singleton.
      * intros H'. left. by eapply Himg.
    + intros c' [Hc| ->%list_elem_of_singleton]%elem_of_app; [by apply Hal|].
      by eexists.
Qed.

Lemma merge_fold_inv es done st :
  merge_inv done st.1 st.2 ->
  merge_inv (done ++ es) (fold_left (Dedupe.merge_step so th) es st).1
                         (fold_left (Dedupe.merge_step so th) es st).2.
Proof.
  revert done st. induction es as [|e es IH]; intros done st H.
  - by rewrite app_nil_r.
  - replace (done ++ e :: es) with ((done ++ [e]) ++ es)
      by (by rewrite <- app_assoc).
    cbn [fold_left]. apply IH. by apply merge_step_inv.
Qed.

Lemma merge_inv_nil : merge_inv [] [] ∅.
Proof.
  split; simpl.
  - constructor.
  - intros i. rewrite lookup_empty, elem_of_nil. split; [by intros [? ?]|done].
  - intros i v. by rewrite lookup_empty.
  - intros c Hc. by apply elem_of_nil in Hc.
Qed.

Lemma merge_entities_inv es :
  merge_inv es (Dedupe.merge_entities so es th).1
               (Dedupe.merge_entities so es th).2.
Proof. apply (merge_fold_inv es [] ([], ∅) merge_inv_nil). Qed.

End Dedupe.

(** resolve_entities.py is dedupe_entities.py run on the [core] of each
    record. *)
Lemma resolve_step_as_dedupe so th st e :
  Resolve.merge_step th st e = Dedupe.merge_step so th st (core e).
Proof.
  destruct st as [cs m]. unfold Resolve.merge_step, Dedupe.merge_step. simpl.
  destruct (find_canon th _ cs) as [[k c]|]; [|done].
  unfold Resolve.absorb, Dedupe.absorb. simpl.
  by rewrite (right_id ∅ (union_with _)).
Qed.

Lemma resolve_as_dedupe so th es :
  Resolve.merge_entities es th = Dedupe.merge_entities so (map core es) th.
Proof.
  unfold Resolve.merge_entities, Dedupe.merge_entities.
  generalize (@nil entity, ∅ : gmap string string).
  induction es as [|e es IH]; intros st; simpl; [done|].
  by rewrite IH, (resolve_step_as_dedupe so).
Qed.

Lemma map_id_core es : map ent_id (map core es) = map ent_id es.
Proof. induction es; simpl; congruence. Qed.

Lemma resolve_merge_entities_inv th es :
  merge_inv es (Resolve.merge_entities es th).1 (Resolve.merge_entities es th).2.
Proof.
  rewrite (resolve_as_dedupe id).
  destruct (merge_entities_inv id th (map core es)) as [H1 H2 H3 H4].
  rewrite map_id_core in *. by split.
Qed.

End MergeProofs.

Import Names RemapProofs MergeProofs.

(** ** The remapping of relationships: the records that are kept *)

Module RemapFirsts.

Section Firsts.
Variable key : relationship -> triple.
Variable mk : relationship -> relationship.
Variable step : list relationship * gset triple -> relationship ->
                list relationship * gset triple.
Hypothesis step_eq : forall out seen rel,
  step (out, seen) rel
  = if bool_decide (key rel ∉ seen)
    then (out ++ [mk rel], seen ∪ {[key rel]}) else (out, seen).

Lemma firsts_inv_step rels st rel :
  firsts_inv key mk rels st -> firsts_inv key mk (rels ++ [rel]) (step st rel).
Proof.
  destruct st as [out seen].
  intros (firsts & Hout & Hsub & Hseen & Hkeys & Hnd & Hfirst).
  simpl in *. rewrite step_eq.
  assert (forall f, f ∈ firsts ->
            exists l1 l2, rels ++ [rel] = l1 ++ f :: l2 /\ key f ∉ map key l1)
    as Hold.
  { intros f Hf. destruct (Hfirst f Hf) as (l1 & l2 & -> & Hn).
    exists l1, (l2 ++ [rel]). by rewrite <- app_assoc. }
  case_bool_decide as Hin.
  - exists (firsts ++ [rel]). simpl. split; [by rewrite Hout, map_app|].
    split; [by apply sublist_app|]. split; [|split; [|split]].
    + intros k. rewrite map_app, elem_of_app, elem_of_union, Hseen. simpl.
      rewrite list_elem_of_singleton. clear; set_solver.
    + intros k. rewrite map_app, elem_of_app, elem_of_union, Hkeys. simpl.
      rewrite list_elem_of_singleton. clear; set_solver.
    + rewrite map_app. simpl. apply NoDup_app. split; [done|].
      split; [|apply NoDup_singleton].
      intros k Hk. rewrite list_elem_of_singleton. intros ->.
      apply Hin. by apply Hkeys.
    + intros f [Hf| ->%list_elem_of_singleton]%elem_of_app; [by apply Hold|].
      exists rels, []. split; [done|]. intros Hk. apply Hin. by apply Hseen.
  - exists firsts. simpl. split; [done|].
    split; [by apply sublist_inserts_r|]. split; [|done].
    intros k. rewrite map_app, elem_of_app, Hseen. simpl.
    rewrite list_elem_of_singleton. split; [by left|].
    intros [?| ->]; [done|]. by apply Hseen.
Qed.

Lemma firsts_inv_fold rels done st :
  firsts_inv key mk done st ->
  firsts_inv key mk (done ++ rels) (fold_left step rels st).
Proof.
  revert done st. induction rels as [|rel rels IH]; intros done st H; simpl.
  - by rewrite app_nil_r.
  - replace (done ++ rel :: rels) with ((done ++ [rel]) ++ rels)
      by (by rewrite <- app_assoc).
    apply IH. by apply firsts_inv_step.
Qed.

Lemma loop_firsts rels :
  exists firsts,
    firsts `sublist_of` rels
    /\ NoDup (map key firsts)
    /\ (forall rel, rel ∈ rels -> key rel ∈ map key firsts)
    /\ (forall f, f ∈ firsts ->
          exists l1 l2, rels = l1 ++ f :: l2 /\ key f ∉ map key l1)
    /\ (fold_left step rels ([], ∅)).1 = map mk firsts.
Proof.
  destruct (firsts_inv_fold rels [] ([], ∅))
    as (firsts & Hout & Hsub & Hseen & Hkeys & Hnd & Hfirst).
  { exists []. simpl. split; [done|]. split; [constructor|].
    split; [intros k; rewrite elem_of_nil; set_solver|].
    split; [intros k; rewrite elem_of_nil; set_solver|].
    split; [constructor|]. intros f Hf. by apply elem_of_nil in Hf. }
  simpl in *. exists firsts. repeat split; try done.
  intros rel Hrel. apply Hkeys, Hseen. apply list_elem_of_In, in_map.
  by apply list_elem_of_In.
Qed.

End Firsts.

Lemma Forall2_map_l {A B} (P : B -> A -> Prop) (f : A -> B) (l : list A) :
  (forall x, P (f x) x) -> Forall2 P (map f l) l.
Proof. intros H. induction l; simpl; constructor; auto. Qed.

End RemapFirsts.

(** C6: in both copies of [remap_relationships] the identity key of a
    relationship is the ordered triple (canonical source, relation,
    canonical target), each end being looked up in the map, and the output
    has exactly one record for each such triple of the input: its records
    answer, one by one and in the order of the input, to the input records
    that come first for their triple; no two of these have the same triple
    and every triple of the input is among theirs.  The source and the
    target of an output record are the canonical ones, its relation is
    that of the input record, and it carries the evidence of that first
    input record (as it is in dedupe_entities.py, with the default [""] in
    resolve_entities.py): the evidence is no part of the key, and the later
    records of a triple are dropped. *)
Theorem remap_relationships_keeps_first_of_each_triple
    (relationships : list relationship) (resolved_map : gmap string string) :
  (exists firsts,
     firsts `sublist_of` relationships
     /\ NoDup (map (canonical_triple resolved_map) firsts)
     /\ (forall rel, rel ∈ relationships ->
           canonical_triple resolved_map rel
           ∈ map (canonical_triple resolved_map) firsts)
     /\ (forall rel, rel ∈ firsts ->
           exists l1 l2,
             relationships = l1 ++ rel :: l2
             /\ canonical_triple resolved_map rel
                ∉ map (canonical_triple resolved_map) l1)
     /\ Forall2 (fun o rel =>
                   key_of o = canonical_triple resolved_map rel
                   /\ rel_evidence o = rel_evidence rel)
          (Dedupe.remap_relationships relationships resolved_map) firsts)
  /\
  (exists firsts,
     firsts `sublist_of` relationships
     /\ NoDup (map (canonical_triple resolved_map) firsts)
     /\ (forall rel, rel ∈ relationships ->
           canonical_triple resolved_map rel
           ∈ map (canonical_triple resolved_map) firsts)
     /\ (forall rel, rel ∈ firsts ->
           exists l1 l2,
             relationships = l1 ++ rel :: l2
             /\ canonical_triple resolved_map rel
                ∉ map (canonical_triple resolved_map) l1)
     /\ Forall2 (fun o rel =>
                   key_of o = canonical_triple resolved_map rel
                   /\ rel_evidence o = Some (default ""%string (rel_evidence rel)))
          (Resolve.remap_relationships relationships resolved_map) firsts).
Proof.
  split.
  - destruct (RemapFirsts.loop_firsts (Dedupe.rel_key resolved_map)
                (Dedupe.new_rel resolved_map) (Dedupe.remap_step resolved_map)
                (dedupe_step_eq resolved_map) relationships)
      as (firsts & H1 & H2 & H3 & H4 & H5).
    exists firsts. repeat split; try done.
    assert (Dedupe.remap_relationships relationships resolved_map
            = map (Dedupe.new_rel resolved_map) firsts) as -> by exact H5.
    apply RemapFirsts.Forall2_map_l. intros rel. by split.
  - destruct (RemapFirsts.loop_firsts (Resolve.rel_key resolved_map)
                (Resolve.new_rel resolved_map) (Resolve.remap_step resolved_map)
                (resolve_step_eq resolved_map) relationships)
      as (firsts & H1 & H2 & H3 & H4 & H5).
    exists firsts. repeat split; try done.
    assert (Resolve.remap_relationships relationships resolved_map
            = map (Resolve.new_rel resolved_map) firsts) as -> by exact H5.
    apply RemapFirsts.Forall2_map_l. intros rel. by split.
Qed.

(** C7: [remap_relationships] of utils_kg.py raises [KeyError] as soon as
    one end of a relationship is not a key of the map; the two other copies
    pass such an end through (lemmas [dedupe_remap_missing_source],
    [dedupe_remap_missing_target], [resolve_remap_missing_source] and
    [resolve_remap_missing_target] above). *)
Theorem utils_kg_remap_relationships_raises
    (global_relationships : list relationship)
    (resolved_map : gmap string string) :
  (exists rel, rel ∈ global_relationships
               /\ (resolved_map !! rel_source rel = None
                   \/ resolved_map !! rel_target rel = None)) ->
  UtilsKg.remap_relationships global_relationships resolved_map = inl KeyError.
Proof. apply utils_remap_loop_key_error. Qed.

Lemma utils_kg_remap_relationships_raises_witness :
  UtilsKg.remap_relationships [Rel "a" "knows" "b" None ∅] ∅ = inl KeyError.
Proof.
  apply utils_kg_remap_relationships_raises.
  exists (Rel "a" "knows" "b" None ∅). split; [apply list_elem_of_here|].
  left. reflexivity.
Defined.

(** C3: a relationship kept by the valid-only filter of
    [finalize_entities_and_relationships] has both ends among the keys of
    the resolution map, each mapped to the id of a canonical entity of the
    pass.  dedupe_entities.py tests exactly this; resolve_entities.py keeps
    a relationship only when both ends are themselves canonical ids, which
    implies it.  In both files the result is the remapping of the kept
    relationships. *)
Theorem finalize_keeps_only_valid_relationships
    (set_order : list string -> list string)
    (entities : list entity) (relationships : list relationship) :
  (let canonical_entities :=
     (Dedupe.merge_entities set_order entities default_threshold).1 in
   let resolved_map :=
     (Dedupe.merge_entities set_order entities default_threshold).2 in
   let kept :=
     filter (fun rel => Dedupe.keep_rel resolved_map
                          (list_to_set (map ent_id canonical_entities)) rel)
       relationships in
   Dedupe.finalize_entities_and_relationships set_order entities relationships
   = (canonical_entities, Dedupe.remap_relationships kept resolved_map)
   /\ forall rel, rel ∈ kept <->
        rel ∈ relationships
        /\ exists s t,
             resolved_map !! rel_source rel = Some s
             /\ resolved_map !! rel_target rel = Some t
             /\ s ∈ map ent_id canonical_entities
             /\ t ∈ map ent_id canonical_entities)
  /\
  (let canonical_entities :=
     (Resolve.merge_entities entities default_threshold).1 in
   let resolved_map :=
     (Resolve.merge_entities entities default_threshold).2 in
   let kept :=
     filter (fun rel => Resolve.keep_rel
                          (list_to_set (map ent_id canonical_entities)) rel)
       relationships in
   Resolve.finalize_entities_and_relationships entities relationships
   = (canonical_entities, Resolve.remap_relationships kept resolved_map)
   /\ forall rel, rel ∈ kept ->
        rel ∈ relationships
        /\ exists s t,
             resolved_map !! rel_source rel = Some s
             /\ resolved_map !! rel_target rel = Some t
             /\ s ∈ map ent_id canonical_entities
             /\ t ∈ map ent_id canonical_entities).
Proof.
  split.
  - unfold Dedupe.finalize_entities_and_relationships.
    destruct (Dedupe.merge_entities set_order entities default_threshold)
      as [cs m]. simpl. split; [done|].
    intros rel. rewrite list_elem_of_filter. unfold Dedupe.keep_rel.
    split.
    + intros [Hk Hin]. split; [done|].
      destruct (m !! rel_source rel) as [s|]; [|done].
      destruct (m !! rel_target rel) as [t|]; [|done].
      apply andb_prop_elim in Hk as [Hs Ht].
      apply bool_decide_unpack, elem_of_list_to_set in Hs.
      apply bool_decide_unpack, elem_of_list_to_set in Ht.
      by exists s, t.
    + intros [Hin (s & t & -> & -> & Hs & Ht)]. split; [|done].
      apply andb_prop_intro. split; apply bool_decide_pack;
        by apply elem_of_list_to_set.
  - unfold Resolve.finalize_entities_and_relationships.
    pose proof (resolve_merge_entities_inv default_threshold entities) as Hinv.
    destruct (Resolve.merge_entities entities default_threshold) as [cs m].
    simpl in *. split; [done|].
    destruct Hinv as [Hids Hdom Himg _].
    intros rel. rewrite list_elem_of_filter. unfold Resolve.keep_rel.
    intros [Hk Hin]. split; [done|].
    apply andb_prop_elim in Hk as [Hs Ht].
    apply bool_decide_unpack, elem_of_list_to_set in Hs.
    apply bool_decide_unpack, elem_of_list_to_set in Ht.
    assert (forall i, i ∈ map ent_id cs ->
              exists v, m !! i = Some v /\ v ∈ map ent_id cs) as Hkey.
    { intros i Hi. destruct (proj2 (Hdom i)) as [v Hv].
      - by eapply elem_of_sublist.
      - exists v. split; [done|]. by eapply Himg. }
    destruct (Hkey _ Hs) as (s & Hs1 & Hs2).
    destruct (Hkey _ Ht) as (t & Ht1 & Ht2).
    by exists s, t.
Qed.

(** ** The resolution pass: the record of an entity that matches nothing *)

Module UnmatchedProofs.
Import Names MergeProofs.

(** dedupe_entities.py: the new canonical entity is the record itself, every
    key with its value, the aliases an empty list when it has none. *)
Lemma dedupe_unmatched_is_copy so th earlier ent :
  find_canon th (normalize_name (ent_name ent))
    (Dedupe.merge_entities so earlier th).1 = None ->
  (Dedupe.merge_entities so (earlier ++ [ent]) th).1
  = (Dedupe.merge_entities so earlier th).1
    ++ [Entity (ent_id ent) (ent_name ent)
          (Some (default [] (ent_aliases ent))) (ent_attrs ent)].
Proof.
  intros Hnone. unfold Dedupe.merge_entities in *. rewrite fold_left_app.
  simpl. destruct (fold_left _ earlier _) as [cs m]. simpl in *.
  unfold Dedupe.merge_step. by rewrite Hnone.
Qed.

Section Resolve.
Variable th : Q.

(** What the later records leave of the canonical entity at the index [k]:
    its id, its name and its want of other keys; its aliases are names of
    the records [seen]. *)
Lemma resolve_step_at k (i n : string) seen st e :
  (exists c, st.1 !! k = Some c /\ ent_id c = i /\ ent_name c = n
             /\ ent_attrs c = ∅
             /\ forall a, a ∈ default [] (ent_aliases c) ->
                          a ∈ map ent_name seen) ->
  exists c, (Resolve.merge_step th st e).1 !! k = Some c
            /\ ent_id c = i /\ ent_name c = n /\ ent_attrs c = ∅
            /\ forall a, a ∈ default [] (ent_aliases c) ->
                         a ∈ map ent_name (seen ++ [e]).
Proof.
  destruct st as [cs m]. simpl.
  intros (c & Hk & Hid & Hname & Hattrs & Hal).
  assert (forall a, a ∈ default [] (ent_aliases c) ->
            a ∈ map ent_name (seen ++ [e])) as Hal'.
  { intros a Ha. rewrite map_app. apply elem_of_app. left. by apply Hal. }
  unfold Resolve.merge_step.
  destruct (find_canon th _ cs) as [[j matched]|] eqn:Hfind; simpl.
  - apply find_canon_Some in Hfind as (Hj & _ & _).
    destruct (decide (j = k)) as [->|Hne].
    + rewrite list_lookup_insert_eq by (by eapply lookup_lt_Some).
      assert (matched = c) as -> by congruence.
      eexists. split; [done|]. unfold Resolve.absorb. simpl.
      split; [done|]. split; [done|]. split; [done|].
      intros a. destruct (_ && _).
      * intros [Ha| ->%list_elem_of_singleton]%elem_of_app; [by apply Hal'|].
        rewrite map_app. apply elem_of_app. right. simpl.
        apply list_elem_of_here.
      * apply Hal'.
    + rewrite list_lookup_insert_ne by done. by exists c.
  - rewrite lookup_app_l by (by eapply lookup_lt_Some). by exists c.
Qed.

Lemma resolve_fold_at k (i n : string) later seen st :
  (exists c, st.1 !! k = Some c /\ ent_id c = i /\ ent_name c = n
             /\ ent_attrs c = ∅
             /\ forall a, a ∈ default [] (ent_aliases c) ->
                          a ∈ map ent_name seen) ->
  exists c, (fold_left (Resolve.merge_step th) later st).1 !! k = Some c
            /\ ent_id c = i /\ ent_name c = n /\ ent_attrs c = ∅
            /\ forall a, a ∈ default [] (ent_aliases c) ->
                         a ∈ map ent_name (seen ++ later).
Proof.
  revert seen st. induction later as [|e later IH]; intros seen st H.
  - by rewrite app_nil_r.
  - replace (seen ++ e :: later) with ((seen ++ [e]) ++ later)
      by (by rewrite <- app_assoc).
    cbn [fold_left]. apply IH. by apply resolve_step_at.
Qed.

End Resolve.

End UnmatchedProofs.

(** C4: in resolve_entities.py the canonical entity made for an entity that
    matches nothing is no copy of the record.  It is appended to the
    canonical list, where it stays, with the id and the name of the record;
    but no other key of the record is on it, and its aliases are names of
    the records that come later, not the aliases the record came with.
    dedupe_entities.py appends the record itself, every key with its value
    (lemma [dedupe_unmatched_is_copy] above). *)
Theorem resolve_merge_entities_drops_record_keys
    (sim_threshold : Q) (earlier later : list entity) (ent : entity) :
  let before := (Resolve.merge_entities earlier sim_threshold).1 in
  let result :=
    (Resolve.merge_entities (earlier ++ ent :: later) sim_threshold).1 in
  find_canon sim_threshold (normalize_name (ent_name ent)) before = None ->
  exists new_canon,
    result !! length before = Some new_canon
    /\ ent_id new_canon = ent_id ent
    /\ ent_name new_canon = ent_name ent
    /\ (forall key, ent_attrs new_canon !! key = None)
    /\ (forall a, a ∈ default [] (ent_aliases new_canon) ->
                  a ∈ map ent_name later).
Proof.
  intros before result Hnone. unfold result, before in *.
  unfold Resolve.merge_entities in *. rewrite fold_left_app. cbn [fold_left].
  destruct (fold_left _ earlier _) as [cs m]. simpl in Hnone.
  destruct (UnmatchedProofs.resolve_fold_at sim_threshold (length cs)
              (ent_id ent) (ent_name ent) later []
              (Resolve.merge_step sim_threshold (cs, m) ent))
    as (c & Hk & Hid & Hname & Hattrs & Hal).
  { unfold Resolve.merge_step. rewrite Hnone. simpl.
    exists (Resolve.new_canonical ent).
    rewrite lookup_app_r, Nat.sub_diag by done.
    split; [done|]. split; [done|]. split; [done|]. split; [done|].
    intros a Ha. simpl in Ha. by apply elem_of_nil in Ha. }
  exists c. simpl. split; [done|]. split; [done|]. split; [done|].
  split; [|done]. intros key. rewrite Hattrs. apply lookup_empty.
Qed.

Lemma resolve_merge_entities_drops_record_keys_witness :
  exists new_canon,
    (Resolve.merge_entities
       ([Entity "1" "Watson" None ∅]
        ++ Entity "3" "John" (Some ["Johnny"%string])
             {["role"%string := VStr "doctor"]}
        :: []) default_threshold).1 !! 1
    = Some new_canon
    /\ ent_id new_canon = "3"%string
    /\ ent_attrs new_canon !! "role"%string = None
    /\ ent_aliases new_canon = Some [].
Proof.
  destruct (resolve_merge_entities_drops_record_keys default_threshold
              [Entity "1" "Watson" None ∅] []
              (Entity "3" "John" (Some ["Johnny"%string])
                 {["role"%string := VStr "doctor"]}))
    as (c & H1 & H2 & _ & H3 & _).
  - vm_compute. reflexivity.
  - exists c. split; [exact H1|]. split; [exact H2|].
    split; [exact (H3 "role"%string)|].
    vm_compute in H1. injection H1 as <-. reflexivity.
Defined.

(** ** The resolution pass: where a normalized name goes *)

Module RoutingProofs.
Import Names MergeProofs.

Section Routing.
Variable so : list string -> list string.
Variable th : Q.
Hypothesis so_members : forall l x, x ∈ so l <-> x ∈ l.

Abbreviation step := (Dedupe.merge_step so th).

Lemma name_matches_true n c :
  name_matches th n c = true <->
  n = normalize_name (ent_name c)
  \/ n ∈ map normalize_name (default [] (ent_aliases c))
  \/ Qle_bool th (Difflib.ratio n (normalize_name (ent_name c))) = true.
Proof.
  unfold name_matches.
  destruct (bool_decide (n = _)) eqn:E1; simpl.
  - apply bool_decide_eq_true in E1. by intuition.
  - apply bool_decide_eq_false in E1.
    destruct (bool_decide (n ∈ _)) eqn:E2; simpl.
    + apply bool_decide_eq_true in E2. by intuition.
    + apply bool_decide_eq_false in E2. by intuition.
Qed.

Lemma absorb_aliases c e x :
  x ∈ default [] (ent_aliases (Dedupe.absorb so c e)) <->
  x ∈ default [] (ent_aliases c)
  \/ (x = ent_name e /\ ent_name e <> ent_name c)
  \/ x ∈ default [] (ent_aliases e).
Proof.
  unfold Dedupe.absorb. simpl.
  set (al := default [] (ent_aliases c)).
  assert (forall y,
            y ∈ (if bool_decide (ent_name e ≠ ent_name c)
                    && bool_decide (ent_name e ∉ al)
                 then al ++ [ent_name e] else al)
            <-> y ∈ al \/ (y = ent_name e /\ ent_name e <> ent_name c)) as H.
  { intros y. destruct (bool_decide (ent_name e ≠ ent_name c)) eqn:E1; simpl.
    - apply bool_decide_eq_true in E1.
      destruct (bool_decide (ent_name e ∉ al)) eqn:E2; simpl.
      + rewrite elem_of_app, list_elem_of_singleton. by intuition.
      + apply bool_decide_eq_false in E2. apply dec_stable in E2.
        split; [by left|]. intros [?|[-> _]]; done.
    - apply bool_decide_eq_false in E1. by intuition. }
  destruct (ent_aliases e) as [v|]; simpl.
  - rewrite so_members, elem_of_app, H. by intuition.
  - rewrite H, elem_of_nil. by intuition.
Qed.



Lemma find_canon_intro n (cs : list entity) k c :
  cs !! k = Some c -> name_matches th n c = true ->
  (forall j y, cs !! j = Some y -> j < k -> name_matches th n y = false) ->
  find_canon th n cs = Some (k, c).
Proof.
  intros Hk Hc Hbefore. apply list_find_Some. split; [done|].
  split; [by apply Is_true_true|].
  intros j y Hj Hlt. rewrite (Hbefore j y Hj Hlt). by intros [].
Qed.

Abbreviation routed := (routed_to th).










End Routing.

End RoutingProofs.

Import RoutingProofs.







(** ** The resolution pass: the aliases *)

Module AliasProofs.
Import Names MergeProofs.







Section Aliases.
Variable so : list string -> list string.
Variable th : Q.

Abbreviation step := (Dedupe.merge_step so th).

(** What the matched canonical entity becomes when the incoming record has
    no [aliases] key. *)
Lemma absorb_aliases_plain c e :
  ent_aliases e = None ->
  ent_aliases (Dedupe.absorb so c e)
  = Some (let al := default [] (ent_aliases c) in
          if decide (ent_name e ≠ ent_name c ∧ ent_name e ∉ al)
          then al ++ [ent_name e] else al).
Proof.
  intros He. unfold Dedupe.absorb. simpl. rewrite He. f_equal.
  destruct (decide (ent_name e ≠ ent_name c)) as [H1|H1].
  - rewrite (bool_decide_eq_true_2 _ H1). simpl.
    destruct (decide (ent_name e ∉ default [] (ent_aliases c))) as [H2|H2].
    + rewrite (bool_decide_eq_true_2 _ H2). by rewrite decide_True.
    + rewrite (bool_decide_eq_false_2 _ H2). rewrite decide_False; [done|].
      by intros [_ ?].
  - rewrite (bool_decide_eq_false_2 _ H1). simpl. rewrite decide_False; [done|].
    by intros [? _].
Qed.


Lemma canonical_ids_nodup es cs m :
  merge_inv es cs m -> NoDup (map ent_id es) -> NoDup (map ent_id cs).
Proof. intros [Hids _ _ _] Hnd. by eapply sublist_NoDup. Qed.








End Aliases.
End AliasProofs.

Import AliasProofs.






(** ** The similarity score *)

Module DifflibProofs.
Import Difflib.

Section Ranges.
Variables (a b : list ascii) (b2j : gmap ascii (list nat)).
Variables (alo ahi blo bhi : nat).

(** A match lies inside the two ranges it was looked for in. *)
Let in_range (bst : best) : Prop :=
  alo <= besti bst /\ besti bst + bestsize bst <= ahi
  /\ blo <= bestj bst /\ bestj bst + bestsize bst <= bhi.

(** [j2len] when row [i] begins: no run is longer than what fits before
    row [i] and before its own column. *)
Let row_ok (i : nat) (j2len : gmap nat nat) : Prop :=
  forall j k, j2len !! j = Some k -> k + alo <= i /\ k + blo <= j + 1.

Lemma scan_row_in_range j2len i js newj2len bst :
  alo <= i -> i < ahi ->
  row_ok i j2len -> row_ok (i + 1) newj2len -> in_range bst ->
  row_ok (i + 1) (scan_row j2len i blo bhi js newj2len bst).1
  /\ in_range (scan_row j2len i blo bhi js newj2len bst).2.
Proof.
  intros Hlo Hhi Hrow. revert newj2len bst.
  induction js as [|j js IH]; intros newj2len bst Hnew Hbst; simpl; [done|].
  destruct (Nat.ltb_spec j blo) as [Hj|Hj]; [by apply IH|].
  destruct (Nat.leb_spec bhi j) as [Hj'|Hj']; [done|].
  set (k := match j with 0 => 0 | S j' => default 0 (j2len !! j') end + 1).
  assert (k + alo <= i + 1 /\ k + blo <= j + 1) as [Hk1 Hk2].
  { unfold k. destruct j as [|j']; [lia|].
    destruct (j2len !! j') as [k0|] eqn:E; simpl; [|lia].
    destruct (Hrow j' k0 E). lia. }
  apply IH.
  - unfold row_ok. intros j0 k0. rewrite lookup_insert. case_decide.
    + intros [= <-]. by subst.
    + apply Hnew.
  - destruct (Nat.ltb_spec (bestsize bst) k); [|done].
    unfold in_range. simpl. lia.
Qed.

Lemma scan_rows_in_range n i j2len bst :
  alo <= i -> i + n <= ahi -> row_ok i j2len -> in_range bst ->
  in_range (scan_rows a b2j blo bhi (seq i n) j2len bst).
Proof.
  revert i j2len bst. induction n as [|n IH]; intros i j2len bst Hlo Hhi Hrow Hbst;
    simpl; [done|].
  set (js := match a !! i with Some x => default [] (b2j !! x) | None => [] end).
  assert (row_ok (i + 1) ∅) as Hempty
    by (unfold row_ok; intros j k; by rewrite lookup_empty).
  destruct (scan_row_in_range j2len i js ∅ bst) as [Hrow' Hbst'];
    [done|lia|done|done|done|].
  destruct (scan_row j2len i blo bhi js ∅ bst) as [newj2len bst'].
  simpl in *. apply IH; try done; try lia.
  by replace (S i) with (i + 1) by lia.
Qed.

Lemma extend_left_in_range fuel bst :
  in_range bst -> in_range (extend_left fuel a b alo blo bst).
Proof.
  revert bst. induction fuel as [|fuel IH]; intros bst Hbst; simpl; [done|].
  destruct (Nat.ltb_spec alo (besti bst)); simpl; [|done].
  destruct (Nat.ltb_spec blo (bestj bst)); simpl; [|done].
  destruct (same_at _ _ _ _); [|done].
  apply IH. unfold in_range in *. simpl. lia.
Qed.

Lemma extend_right_in_range fuel bst :
  in_range bst -> in_range (extend_right fuel a b ahi bhi bst).
Proof.
  revert bst. induction fuel as [|fuel IH]; intros bst Hbst; simpl; [done|].
  destruct (Nat.ltb_spec (besti bst + bestsize bst) ahi); simpl; [|done].
  destruct (Nat.ltb_spec (bestj bst + bestsize bst) bhi); simpl; [|done].
  destruct (same_at _ _ _ _); [|done].
  apply IH. unfold in_range in *. simpl. lia.
Qed.

Lemma find_longest_match_in_range :
  alo <= ahi -> blo <= bhi ->
  let x := find_longest_match a b b2j alo ahi blo bhi in
  alo <= besti x /\ besti x + bestsize x <= ahi
  /\ blo <= bestj x /\ bestj x + bestsize x <= bhi.
Proof.
  intros Ha Hb. unfold find_longest_match.
  apply extend_right_in_range, extend_left_in_range, scan_rows_in_range;
    try lia.
  - unfold row_ok. intros j k. by rewrite lookup_empty.
  - unfold in_range. simpl. lia.
Qed.

End Ranges.

Lemma sum_sizes_app l1 l2 : sum_sizes (l1 ++ l2) = sum_sizes l1 + sum_sizes l2.
Proof. induction l1 as [|x l1 IH]; simpl; [done|]. rewrite IH. lia. Qed.

Lemma sum_sizes_insert_sorted x l :
  sum_sizes (insert_sorted x l) = x.2 + sum_sizes l.
Proof.
  induction l as [|y l IH]; simpl; [done|].
  destruct (block_leb x y); simpl; [done|]. rewrite IH. lia.
Qed.

Lemma sum_sizes_sort l : sum_sizes (sort_blocks l) = sum_sizes l.
Proof.
  induction l as [|x l IH]; simpl; [done|].
  by rewrite sum_sizes_insert_sorted, IH.
Qed.

Lemma sum_sizes_collapse cur l acc :
  sum_sizes (collapse cur l acc) = sum_sizes acc + cur.2 + sum_sizes l.
Proof.
  revert cur acc. induction l as [|[[i2 j2] k2] l IH]; intros [[i1 j1] k1] acc;
    simpl.
  - destruct (Nat.eqb_spec k1 0); [lia|]. rewrite sum_sizes_app. simpl. lia.
  - destruct ((i1 + k1 =? i2) && (j1 + k1 =? j2)).
    + rewrite IH. simpl. lia.
    + rewrite IH. simpl. destruct (Nat.eqb_spec k1 0); [lia|].
      rewrite sum_sizes_app. simpl. lia.
Qed.

Lemma blocks_loop_total (a b : list ascii) b2j fuel queue blocks :
  well_formed queue -> 2 * span_a queue + length queue <= fuel ->
  exists found,
    blocks_loop fuel a b b2j queue blocks = Some found
    /\ sum_sizes found <= sum_sizes blocks + span_a queue
    /\ sum_sizes found <= sum_sizes blocks + span_b queue.
Proof.
  unfold range4 in *.
  revert queue blocks. induction fuel as [|fuel IH]; intros queue blocks Hwf Hfuel.
  - destruct queue as [|[[[alo ahi] blo] bhi] queue]; simpl in *; [|lia].
    exists blocks. split; [done|]. lia.
  - destruct queue as [|[[[alo ahi] blo] bhi] queue].
    { exists blocks. simpl. split; [done|]. lia. }
    apply Forall_cons in Hwf as [[Ha Hb] Hwf].
    cbn [blocks_loop].
    pose proof (find_longest_match_in_range a b b2j alo ahi blo bhi Ha Hb)
      as (H1 & H2 & H3 & H4).
    set (x := find_longest_match a b b2j alo ahi blo bhi) in *.
    clearbody x.
    simpl in Hfuel. cbv zeta.
    destruct (Nat.eqb_spec (bestsize x) 0) as [Hk|Hk].
    + destruct (IH queue blocks Hwf) as (found & Hf & Hfa & Hfb); [lia|].
      exists found. split; [done|]. simpl. lia.
    + set (q1 := if (alo <? besti x) && (blo <? bestj x)
                 then (alo, besti x, blo, bestj x) :: queue else queue).
      set (q2 := if (besti x + bestsize x <? ahi) && (bestj x + bestsize x <? bhi)
                 then (besti x + bestsize x, ahi, bestj x + bestsize x, bhi) :: q1
                 else q1).
      assert (well_formed q1 /\ span_a q1 <= span_a queue + (besti x - alo)
              /\ span_b q1 <= span_b queue + (bestj x - blo)
              /\ length q1 <= S (length queue)) as (Hw1 & Ha1 & Hb1 & Hl1).
      { unfold q1. destruct (Nat.ltb_spec alo (besti x)); simpl;
          [|split; [exact Hwf|lia]].
        destruct (Nat.ltb_spec blo (bestj x)); simpl;
          [|split; [exact Hwf|lia]].
        split; [|lia]. apply Forall_cons. split; [lia|exact Hwf]. }
      assert (well_formed q2
              /\ span_a q2 <= span_a q1 + (ahi - (besti x + bestsize x))
              /\ span_b q2 <= span_b q1 + (bhi - (bestj x + bestsize x))
              /\ length q2 <= S (length q1)) as (Hw2 & Ha2 & Hb2 & Hl2).
      { unfold q2. destruct (Nat.ltb_spec (besti x + bestsize x) ahi); simpl;
          [|split; [exact Hw1|lia]].
        destruct (Nat.ltb_spec (bestj x + bestsize x) bhi); simpl;
          [|split; [exact Hw1|lia]].
        split; [|lia]. apply Forall_cons. split; [lia|exact Hw1]. }
      destruct (IH q2 (blocks ++ [(besti x, bestj x, bestsize x)]) Hw2)
        as (found & Hf & Hfa & Hfb); [lia|].
      exists found. split; [done|].
      rewrite sum_sizes_app in Hfa, Hfb. simpl in *. lia.
Qed.

Lemma get_matching_blocks_sum (a b : list ascii) :
  sum_sizes (get_matching_blocks a b) <= length a
  /\ sum_sizes (get_matching_blocks a b) <= length b
  /\ is_Some (blocks_loop (2 * length a + 1) a b (chain_b b)
                [(0, length a, 0, length b)] []).
Proof.
  unfold get_matching_blocks.
  destruct (blocks_loop_total a b (chain_b b) (2 * length a + 1)
              [(0, length a, 0, length b)] [])
    as (found & -> & Ha & Hb).
  - apply Forall_cons. split; [lia|constructor].
  - simpl. lia.
  - simpl in *. rewrite sum_sizes_app, sum_sizes_collapse, sum_sizes_sort.
    simpl. split; [lia|]. split; [lia|]. by eexists.
Qed.

Lemma calculate_ratio_range (matches len : nat) :
  2 * matches <= len ->
  (0 <= calculate_ratio matches len)%Q /\ (calculate_ratio matches len <= 1)%Q.
Proof.
  intros H. unfold calculate_ratio.
  destruct (Nat.eqb_spec len 0) as [->|Hlen]; [done|].
  assert (Z.pos (Pos.of_nat len) = Z.of_nat len) as Hp.
  { rewrite <- positive_nat_Z, Nat2Pos.id by done. done. }
  unfold Qle. simpl. rewrite Hp. lia.
Qed.

Lemma ratio_chars_range (a b : list ascii) :
  (0 <= ratio_chars a b)%Q /\ (ratio_chars a b <= 1)%Q.
Proof.
  unfold ratio_chars. apply calculate_ratio_range.
  destruct (get_matching_blocks_sum a b) as (Ha & Hb & _). lia.
Qed.

Lemma ratio_chars_empty (a : list ascii) : ratio_chars [] a = ratio_chars a [].
Proof.
  unfold ratio_chars.
  destruct (get_matching_blocks_sum [] a) as (H1 & _ & _).
  destruct (get_matching_blocks_sum a []) as (_ & H2 & _).
  apply Nat.le_0_r in H1. apply Nat.le_0_r in H2. rewrite H1, H2.
  simpl. by rewrite Nat.add_0_r.
Qed.

Lemma ratio_chars_den (a b : list ascii) :
  Qden (ratio_chars a b) = Qden (ratio_chars b a).
Proof.
  unfold ratio_chars, calculate_ratio. rewrite (Nat.add_comm (length b)).
  by destruct (length a + length b =? 0).
Qed.

End DifflibProofs.

Import DifflibProofs.

(** C2, the counterexample: the two orders of "tide" and "diet" give 1/4 and
    1/2 (0.25 and 0.5 in Python): the blocks found depend on which string
    is the second one. *)
Lemma ratio_is_not_symmetric :
  Difflib.ratio "tide" "diet" = (2 # 8)%Q
  /\ Difflib.ratio "diet" "tide" = (4 # 8)%Q
  /\ ~ (Difflib.ratio "tide" "diet" == Difflib.ratio "diet" "tide")%Q.
Proof.
  split; [vm_compute; reflexivity|]. split; [vm_compute; reflexivity|].
  vm_compute. discriminate.
Qed.

(** C2, as amended: the similarity of two strings lies between 0 and 1, the
    two orders of the arguments have the same denominator (the sum of the
    two lengths), and they give the same score when one of the strings is
    empty; for other strings the score depends on the order. *)
Theorem ratio_range_and_empty_symmetry (a b : string) :
  (0 <= Difflib.ratio a b)%Q /\ (Difflib.ratio a b <= 1)%Q
  /\ Qden (Difflib.ratio a b) = Qden (Difflib.ratio b a)
  /\ Difflib.ratio "" a = Difflib.ratio a "".
Proof.
  unfold Difflib.ratio.
  destruct (ratio_chars_range (PyStr.chars a) (PyStr.chars b)) as [H0 H1].
  split; [done|]. split; [done|]. split; [apply ratio_chars_den|].
  apply ratio_chars_empty.
Qed.

(** ** The in-place resolver of utils_kg.py *)

(** C9: [merge_entities] of utils_kg.py changes the dicts of its caller.  An
    input dict without the key [aliases] that matches no canonical entity
    gets the key: the dict at the same location is another one after the
    call, and it is this dict that the canonical list holds. *)
Theorem utils_kg_merge_entities_changes_input
    (h : UtilsKg.heap) (ent_loc : UtilsKg.loc) (ent : UtilsKg.dict_obj) :
  UtilsKg.dicts h !! ent_loc = Some ent ->
  UtilsKg.d_aliases ent = None ->
  exists h' al,
    UtilsKg.merge_entities h [ent_loc]
    = Some (h', [ent_loc], {[UtilsKg.d_id ent := UtilsKg.d_id ent]})
    /\ UtilsKg.dicts h' !! ent_loc
       = Some (UtilsKg.Dict (UtilsKg.d_id ent) (UtilsKg.d_name ent) (Some al)
                 (UtilsKg.d_attrs ent))
    /\ UtilsKg.lists h' !! al = Some []
    /\ UtilsKg.dicts h' !! ent_loc <> UtilsKg.dicts h !! ent_loc.
Proof.
  intros Hent Hal.
  set (al := fresh (dom (UtilsKg.lists h))).
  exists (UtilsKg.Heap
            (<[ent_loc := UtilsKg.Dict (UtilsKg.d_id ent) (UtilsKg.d_name ent)
                            (Some al) (UtilsKg.d_attrs ent)]> (UtilsKg.dicts h))
            (<[al := []]> (UtilsKg.lists h))), al.
  split.
  - unfold UtilsKg.merge_entities. simpl. rewrite Hent. simpl. by rewrite Hal.
  - simpl. rewrite !lookup_insert_eq. split; [done|]. split; [done|].
    rewrite Hent. intros [= H]. destruct ent. simpl in *. congruence.
Qed.

Lemma utils_kg_merge_entities_changes_input_witness :
  exists h',
    UtilsKg.merge_entities
      (UtilsKg.Heap {[0 := UtilsKg.Dict "1" "Watson" None ∅;
                      1 := UtilsKg.Dict "2" "watson" None ∅]} ∅) [0; 1]
    = Some (h', [0], {["1"%string := "1"%string; "2"%string := "1"%string]})
    /\ UtilsKg.dicts h' !! 0 = Some (UtilsKg.Dict "1" "Watson" (Some 0) ∅)
    /\ UtilsKg.lists h' !! 0 = Some ["watson"%string].
Proof.
  destruct (utils_kg_merge_entities_changes_input
              (UtilsKg.Heap {[0 := UtilsKg.Dict "1" "Watson" None ∅;
                              1 := UtilsKg.Dict "2" "watson" None ∅]} ∅)
              0 (UtilsKg.Dict "1" "Watson" None ∅))
    as (h1 & al & H1 & _).
  - vm_compute. reflexivity.
  - reflexivity.
  - eexists. split; [vm_compute; reflexivity|].
    split; vm_compute; reflexivity.
Defined.

(** ** Strings: [strip], [split] and [join] *)

Module StrProofs.
Import PyStr.

Lemma drop_while_spec p l :
  exists l1, l = l1 ++ drop_while p l /\ Forall (fun c => p c = true) l1.
Proof.
  induction l as [|c l (l1 & IH & Hl1)]; [by exists []|]. simpl.
  destruct (p c) eqn:Hc.
  - exists (c :: l1). split; [by rewrite <- app_comm_cons, <- IH|].
    by constructor.
  - by exists [].
Qed.

Lemma drop_while_head p l :
  match drop_while p l with [] => True | c :: _ => p c = false end.
Proof.
  induction l as [|c l IH]; [done|]. simpl. by destruct (p c) eqn:Hc.
Qed.

Lemma drop_while_all p l :
  Forall (fun c => p c = true) l -> drop_while p l = [].
Proof. induction 1 as [|c l Hc _ IH]; [done|]. simpl. by rewrite Hc. Qed.

Lemma drop_while_app p l1 l2 :
  Forall (fun c => p c = true) l1 -> drop_while p (l1 ++ l2) = drop_while p l2.
Proof. induction 1 as [|c l Hc _ IH]; [done|]. simpl. by rewrite Hc. Qed.

Lemma drop_while_stop p l1 c l2 :
  p c = false -> drop_while p (c :: l1 ++ l2) = c :: l1 ++ l2.
Proof. intros Hc. simpl. by rewrite Hc. Qed.

Lemma blank_app l1 l2 : blank (l1 ++ l2) <-> blank l1 /\ blank l2.
Proof. apply Forall_app. Qed.

Lemma Forall_rev {A} (P : A -> Prop) (l : list A) :
  Forall P l -> Forall P (rev l).
Proof.
  rewrite !Forall_forall. intros H c Hc. apply H.
  apply list_elem_of_In, in_rev. by apply list_elem_of_In.
Qed.

Lemma rev_nonempty {A} (l : list A) : l <> [] -> rev l <> [].
Proof.
  intros Hne E. apply Hne. apply (f_equal (@length A)) in E.
  rewrite length_rev in E. by destruct l.
Qed.

Lemma blank_rev l : blank l -> blank (rev l).
Proof. apply Forall_rev. Qed.

Lemma nonspace_app l1 l2 : nonspace (l1 ++ l2) = nonspace l1 ++ nonspace l2.
Proof. apply filter_app. Qed.

Lemma nonspace_blank l : blank l -> nonspace l = [].
Proof.
  induction 1 as [|c l Hc _ IH]; [done|]. unfold nonspace in *.
  rewrite filter_cons_False; [done|]. by rewrite Hc.
Qed.

Lemma nonspace_word w : Forall (fun c => is_space c = false) w -> nonspace w = w.
Proof.
  induction 1 as [|c l Hc _ IH]; [done|]. unfold nonspace in *.
  rewrite filter_cons_True by done. by rewrite IH.
Qed.

(** What [strip] cuts off is white space, and what is left neither starts
    nor ends with white space. *)
Lemma lstrip_spec l : exists l1, l = l1 ++ lstrip l /\ blank l1.
Proof. apply drop_while_spec. Qed.

Lemma rstrip_spec l : exists l2, l = rstrip l ++ l2 /\ blank l2.
Proof.
  unfold rstrip. destruct (drop_while_spec is_space (rev l)) as (l1 & H & Hl1).
  exists (rev l1). split; [|by apply blank_rev].
  rewrite <- rev_app_distr, <- H. by rewrite rev_involutive.
Qed.

Lemma strip_spec l :
  exists l1 l2, l = l1 ++ strip l ++ l2 /\ blank l1 /\ blank l2.
Proof.
  unfold strip. destruct (lstrip_spec l) as (l1 & H1 & Hb1).
  destruct (rstrip_spec (lstrip l)) as (l2 & H2 & Hb2).
  exists l1, l2. split; [|done]. by rewrite <- H2.
Qed.

Lemma nonspace_strip l : nonspace (strip l) = nonspace l.
Proof.
  destruct (strip_spec l) as (l1 & l2 & H & H1 & H2).
  rewrite H at 2. rewrite !nonspace_app, (nonspace_blank l1), (nonspace_blank l2)
    by done. by rewrite app_nil_r.
Qed.

Lemma lstrip_head l :
  match lstrip l with [] => True | c :: _ => is_space c = false end.
Proof. apply drop_while_head. Qed.

Lemma rstrip_last l :
  match rev (rstrip l) with [] => True | c :: _ => is_space c = false end.
Proof. unfold rstrip. rewrite rev_involutive. apply drop_while_head. Qed.

Lemma rstrip_app_nonblank l1 l2 c :
  is_space c = false -> rstrip (l1 ++ l2 ++ [c]) = l1 ++ l2 ++ [c].
Proof.
  intros Hc. unfold rstrip. rewrite !rev_app_distr. simpl. rewrite Hc.
  change (c :: rev l2 ++ rev l1) with (rev [c] ++ rev l2 ++ rev l1).
  by rewrite <- !rev_app_distr, rev_involutive, <- app_assoc.
Qed.

Lemma rstrip_snoc l c : is_space c = false -> rstrip (l ++ [c]) = l ++ [c].
Proof. intros Hc. apply (rstrip_app_nonblank [] l c Hc). Qed.

Lemma rstrip_blank l : blank l -> rstrip l = [].
Proof.
  intros H. unfold rstrip. by rewrite drop_while_all by (by apply blank_rev).
Qed.

Lemma rstrip_app_blank l1 l2 : blank l2 -> rstrip (l1 ++ l2) = rstrip l1.
Proof.
  intros H. unfold rstrip. rewrite rev_app_distr.
  by rewrite drop_while_app by (by apply blank_rev).
Qed.

(** [rstrip] of a string that is not white space only: a non-empty string
    that ends with a character that is no white space. *)
Lemma rstrip_nonblank l :
  ~ blank l -> exists l' c, rstrip l = l' ++ [c] /\ is_space c = false.
Proof.
  intros Hnb. pose proof (rstrip_last l) as Hlast.
  destruct (rstrip_spec l) as (l2 & H & Hb2).
  destruct (rev (rstrip l)) as [|c r] eqn:E.
  - apply (f_equal (@rev ascii)) in E. rewrite rev_involutive in E. simpl in E.
    rewrite E in H. simpl in H. by subst.
  - exists (rev r), c. split; [|done].
    apply (f_equal (@rev ascii)) in E. rewrite rev_involutive in E. by simpl in E.
Qed.

Lemma rstrip_app l1 l2 : ~ blank l2 -> rstrip (l1 ++ l2) = l1 ++ rstrip l2.
Proof.
  intros Hnb. destruct (rstrip_nonblank l2 Hnb) as (l' & c & E & Hc).
  destruct (rstrip_spec l2) as (t & H & Hb). rewrite E in *.
  rewrite H at 1. rewrite !app_assoc, rstrip_app_blank by done.
  rewrite <- app_assoc. by apply rstrip_app_nonblank.
Qed.

Lemma lstrip_app_blank l1 l2 : blank l1 -> lstrip (l1 ++ l2) = lstrip l2.
Proof. apply drop_while_app. Qed.

Lemma lstrip_word c l : is_space c = false -> lstrip (c :: l) = c :: l.
Proof. intros Hc. unfold lstrip. simpl. by rewrite Hc. Qed.

Lemma rstrip_idem l : rstrip (rstrip l) = rstrip l.
Proof.
  pose proof (rstrip_last l) as H. destruct (rev (rstrip l)) as [|c r] eqn:E.
  - apply (f_equal (@rev ascii)) in E. rewrite rev_involutive in E. simpl in E.
    by rewrite E.
  - apply (f_equal (@rev ascii)) in E. rewrite rev_involutive in E. simpl in E.
    rewrite E. by apply rstrip_snoc.
Qed.

Lemma blank_dec l : {blank l} + {~ blank l}.
Proof. unfold blank. apply Forall_dec. intros c. apply bool_eq_dec. Qed.

Lemma strip_head l :
  match strip l with [] => True | c :: _ => is_space c = false end.
Proof.
  unfold strip. pose proof (lstrip_head l) as H.
  destruct (lstrip l) as [|c t]; [done|].
  change (c :: t) with ([c] ++ t). destruct (blank_dec t) as [Hb|Hnb].
  - rewrite rstrip_app_blank by done.
    pose proof (rstrip_snoc [] c H) as E. simpl in E. by rewrite E.
  - by rewrite rstrip_app.
Qed.

Lemma strip_idem l : strip (strip l) = strip l.
Proof.
  pose proof (strip_head l) as H. unfold strip at 1.
  destruct (strip l) as [|c t] eqn:E; [done|].
  rewrite lstrip_word by done. rewrite <- E. unfold strip. apply rstrip_idem.
Qed.

Lemma strip_sublist l : strip l `sublist_of` l.
Proof.
  destruct (strip_spec l) as (l1 & l2 & H & _). rewrite H at 2.
  apply sublist_inserts_l, sublist_inserts_r. done.
Qed.

(** [split] *)
Lemma split_go_nil cur :
  split_go cur [] = match cur with [] => [] | _ => [rev cur] end.
Proof. done. Qed.

Lemma split_go_space cur c l :
  is_space c = true -> split_go cur (c :: l) = split_go cur [] ++ split l.
Proof. intros Hc. simpl. rewrite Hc. by destruct cur. Qed.

Lemma split_go_char cur c l :
  is_space c = false -> split_go cur (c :: l) = split_go (c :: cur) l.
Proof. intros Hc. simpl. by rewrite Hc. Qed.

Lemma split_go_app cur l1 c l2 :
  is_space c = true ->
  split_go cur (l1 ++ c :: l2) = split_go cur l1 ++ split l2.
Proof.
  intros Hc. revert cur. induction l1 as [|x l1 IH]; intros cur.
  - by apply split_go_space.
  - rewrite <- app_comm_cons. destruct (is_space x) eqn:Hx.
    + rewrite !(split_go_space _ x) by done. unfold split.
      by rewrite IH, app_assoc.
    + rewrite !(split_go_char _ x) by done. apply IH.
Qed.

Lemma split_app l1 c l2 :
  is_space c = true -> split (l1 ++ c :: l2) = split l1 ++ split l2.
Proof. apply split_go_app. Qed.

Lemma split_blank l : blank l -> split l = [].
Proof.
  induction 1 as [|c l Hc _ IH]; [done|].
  unfold split. rewrite split_go_space by done. done.
Qed.

Lemma split_go_blank cur l : blank l -> split_go cur l = split_go cur [].
Proof.
  intros H. destruct H as [|c l Hc Hl]; [done|].
  rewrite split_go_space by done. rewrite (split_blank l Hl).
  by rewrite app_nil_r.
Qed.

Lemma split_go_app_blank cur l1 l2 :
  blank l2 -> split_go cur (l1 ++ l2) = split_go cur l1.
Proof.
  intros H. revert cur. induction l1 as [|x l1 IH]; intros cur.
  - by apply split_go_blank.
  - simpl. destruct (is_space x); [destruct cur|]; by rewrite IH.
Qed.

Lemma split_app_blank_r l1 l2 : blank l2 -> split (l1 ++ l2) = split l1.
Proof. apply split_go_app_blank. Qed.

Lemma split_app_blank_l l1 l2 : blank l1 -> split (l1 ++ l2) = split l2.
Proof.
  induction 1 as [|c l Hc _ IH]; [done|].
  rewrite <- app_comm_cons. unfold split. rewrite split_go_space by done.
  exact IH.
Qed.

Lemma split_strip l : split (strip l) = split l.
Proof.
  destruct (strip_spec l) as (l1 & l2 & H & H1 & H2). rewrite H at 2.
  by rewrite split_app_blank_l, split_app_blank_r.
Qed.

Lemma split_go_word cur w l :
  Forall (fun c => is_space c = false) w ->
  split_go cur (w ++ l) = split_go (rev w ++ cur) l.
Proof.
  intros H. revert cur. induction H as [|c w Hc _ IH]; intros cur; [done|].
  rewrite <- app_comm_cons, split_go_char by done. rewrite IH. simpl.
  by rewrite <- app_assoc.
Qed.

Lemma split_word w : word w -> split w = [w].
Proof.
  intros [Hne Hw]. unfold split.
  rewrite <- (app_nil_r w) at 1. rewrite split_go_word by done.
  rewrite app_nil_r, split_go_nil. destruct (rev w) eqn:E.
  - apply (f_equal (@rev ascii)) in E. rewrite rev_involutive in E. by simpl in E.
  - by rewrite <- E, rev_involutive.
Qed.

Lemma space_is_space : is_space " "%char = true.
Proof. reflexivity. Qed.

(** [" ".join(words).split()] gives the words back. *)
Lemma split_join ws : Forall word ws -> split (join space ws) = ws.
Proof.
  induction 1 as [|w ws Hw Hws IH]; [done|].
  destruct ws as [|w' ws]; [by apply split_word|].
  change (join space (w :: w' :: ws)) with (w ++ " "%char :: join space (w' :: ws)).
  rewrite split_app by done. by rewrite split_word, IH.
Qed.

Lemma split_go_words cur l :
  Forall (fun c => is_space c = false) cur -> Forall word (split_go cur l).
Proof.
  revert cur. induction l as [|c l IH]; intros cur Hcur.
  - simpl. destruct cur as [|x cur]; [constructor|].
    constructor; [|constructor]. split.
    + by apply rev_nonempty.
    + by apply Forall_rev.
  - simpl. destruct (is_space c) eqn:Hc.
    + assert (Forall word (split_go [] l)) as Hrest by (apply IH; constructor).
      destruct cur as [|x cur]; [done|]. constructor; [|done]. split.
      * by apply rev_nonempty.
      * by apply Forall_rev.
    + apply IH. by constructor.
Qed.

Lemma split_words l : Forall word (split l).
Proof. apply split_go_words. constructor. Qed.

Lemma split_nil_blank l : split l = [] -> blank l.
Proof.
  unfold split. assert (forall cur, split_go cur l = [] -> blank l) as H; [|apply H].
  induction l as [|c l IH]; intros cur; [constructor|]. simpl.
  destruct (is_space c) eqn:Hc.
  - destruct cur; [|done]. intros H. constructor; [done|]. by eapply IH.
  - intros H. exfalso. revert H. clear. revert cur c.
    induction l as [|x l IHl]; intros cur c; simpl; [done|].
    destruct (is_space x); [done|]. apply IHl.
Qed.

Lemma join_words_nonspace ws :
  Forall word ws -> nonspace (join space ws) = concat ws.
Proof.
  induction 1 as [|w ws [_ Hw] Hws IH]; [done|].
  destruct ws as [|w' ws].
  - simpl. rewrite app_nil_r. by apply nonspace_word.
  - change (join space (w :: w' :: ws)) with (w ++ space ++ join space (w' :: ws)).
    rewrite !nonspace_app, IH, nonspace_word by done. done.
Qed.

Lemma length_join ws :
  length (join space ws) = overlap_cost ws - 1.
Proof.
  induction ws as [|w ws IH]; [done|].
  destruct ws as [|w' ws]; [simpl; lia|].
  change (join space (w :: w' :: ws)) with (w ++ space ++ join space (w' :: ws)).
  rewrite !length_app, IH. simpl. lia.
Qed.

Lemma join_head ws w :
  word w -> exists c l, join space (w :: ws) = c :: l /\ is_space c = false.
Proof.
  intros [Hne Hw]. destruct w as [|c w]; [done|].
  apply Forall_cons in Hw as [Hc _].
  destruct ws; simpl; eauto.
Qed.

End StrProofs.

(** ** The chunker: what the chunks hold *)

Module ChunkContent.
Import PyStr Chunker ChunkerProofs StrProofs.

Lemma concat_re_split l : concat (re_split l) = l.
Proof.
  induction l as [|c l IH]; [done|]. simpl.
  destruct (is_boundary c); simpl; [by rewrite IH|].
  destruct (re_split l) as [|s rest]; simpl in *; by rewrite <- IH.
Qed.

Lemma concat_flush chunks cur : concat (flush chunks cur) = concat chunks ++ cur.
Proof.
  destruct cur; simpl; [by rewrite app_nil_r|].
  rewrite concat_app. simpl. by rewrite app_nil_r.
Qed.

Lemma nonspace_nil_blank l : nonspace l = [] -> blank l.
Proof.
  induction l as [|c l IH]; [constructor|]. unfold nonspace, blank in *.
  destruct (is_space c) eqn:Hc.
  - rewrite filter_cons_False by (by rewrite Hc). intros H.
    constructor; [done|]. by apply IH.
  - by rewrite filter_cons_True.
Qed.

Section Content.
Variable max_chars : nat.
Hypothesis max_pos : 0 < max_chars.

Lemma chunk_step_content st s :
  nonspace (concat (chunk_step max_chars st s).1 ++ (chunk_step max_chars st s).2)
  = nonspace (concat st.1 ++ st.2) ++ nonspace s.
Proof.
  destruct st as [chunks cur]. unfold chunk_step.
  rewrite <- (nonspace_strip s).
  destruct (strip s) as [|c s'] eqn:Es; [by rewrite app_nil_r|].
  rewrite <- Es. clear Es. cbn [fst snd].
  destruct (_ <=? _); cbn [fst snd].
  - rewrite !nonspace_app, nonspace_strip, !nonspace_app.
    rewrite (nonspace_blank space) by (by repeat constructor).
    by rewrite <- !app_assoc.
  - destruct (_ <? _); cbn [fst snd].
    + rewrite app_nil_r, concat_app, concat_flush, hard_split_concat by done.
      by rewrite !nonspace_app.
    + by rewrite concat_flush, !nonspace_app.
Qed.

Lemma fold_chunk_step_content l st :
  let st' := fold_left (chunk_step max_chars) l st in
  nonspace (concat st'.1 ++ st'.2)
  = nonspace (concat st.1 ++ st.2) ++ nonspace (concat l).
Proof.
  revert st. induction l as [|s l IH]; intros st; cbn [fold_left concat].
  - by rewrite app_nil_r.
  - cbv zeta in IH. rewrite IH, chunk_step_content, (nonspace_app s).
    by rewrite <- app_assoc.
Qed.

Lemma sentence_chunks_content text :
  nonspace (concat (sentence_chunks text max_chars)) = nonspace text.
Proof.
  unfold sentence_chunks.
  pose proof (fold_chunk_step_content (re_split text) ([], [])) as H.
  destruct (fold_left _ _ _) as [chunks cur]. simpl in H.
  by rewrite concat_flush, H, concat_re_split.
Qed.

End Content.

(** The overlap pass *)

Lemma overlap_loop_Forall2 (R : list ascii -> list ascii -> Prop) overlap
    new_chunks prev rest old :
  (forall prev c, R (overlap_candidate overlap prev c) c) ->
  Forall2 R new_chunks old ->
  Forall2 R (overlap_loop overlap new_chunks prev rest) (old ++ rest).
Proof.
  intros Hcand. revert new_chunks prev old.
  induction rest as [|c rest IH]; intros new_chunks prev old H; simpl.
  - by rewrite app_nil_r.
  - replace (old ++ c :: rest) with ((old ++ [c]) ++ rest)
      by (by rewrite <- app_assoc).
    apply IH. apply Forall2_app; [done|]. constructor; [apply Hcand|constructor].
Qed.

Lemma apply_overlap_Forall2 (R : list ascii -> list ascii -> Prop) overlap chunks :
  (forall c, R c c) ->
  (forall prev c, R (overlap_candidate overlap prev c) c) ->
  Forall2 R (apply_overlap overlap chunks) chunks.
Proof.
  intros Hrefl Hcand. unfold apply_overlap.
  destruct (negb (overlap =? 0) && (1 <? length chunks));
    [|by apply Forall_Forall2_diag, Forall_forall].
  destruct chunks as [|c0 rest]; [constructor|].
  apply (overlap_loop_Forall2 R overlap [c0] c0 rest [c0]); [done|].
  constructor; [apply Hrefl|constructor].
Qed.

Lemma apply_overlap_head overlap chunks :
  head (apply_overlap overlap chunks) = head chunks.
Proof.
  unfold apply_overlap.
  destruct (negb (overlap =? 0) && (1 <? length chunks)); [|done].
  destruct chunks as [|c0 rest]; [done|]. simpl.
  assert (forall new prev, head (overlap_loop overlap (c0 :: new) prev rest) = Some c0)
    as H; [|apply (H [])].
  induction rest as [|c rest IH]; intros new prev; simpl; [done|]. apply IH.
Qed.

(** Every chunk after the first one is built from the chunk the pass has
    just put out and the chunk of its own place. *)
Lemma overlap_loop_chain overlap new_chunks prev rest :
  last new_chunks = Some prev ->
  let out := overlap_loop overlap new_chunks prev rest in
  (forall i x, new_chunks !! i = Some x -> out !! i = Some x)
  /\ (forall i p c,
        length new_chunks <= S i -> out !! i = Some p ->
        rest !! (S i - length new_chunks) = Some c ->
        out !! S i = Some (overlap_candidate overlap p c)).
Proof.
  revert new_chunks prev. induction rest as [|c0 rest IH];
    intros new_chunks prev Hlast; simpl.
  - split; [done|]. intros i p c _ _ H. by rewrite lookup_nil in H.
  - set (cand := overlap_candidate overlap prev c0).
    destruct (IH (new_chunks ++ [cand]) cand) as [IH1 IH2];
      [by rewrite last_snoc|].
    split.
    + intros i x Hi. apply IH1. by apply lookup_app_l_Some.
    + intros i p c Hlen Hp Hc. rewrite length_app in IH2. simpl in IH2.
      destruct (decide (S i = length new_chunks)) as [E|Hne].
      * rewrite E, Nat.sub_diag in Hc. injection Hc as <-.
        assert (new_chunks !! i = Some prev) as Hprev.
        { rewrite last_lookup in Hlast. rewrite <- Hlast. f_equal. lia. }
        assert (p = prev) as ->.
        { specialize (IH1 i prev (lookup_app_l_Some _ _ _ _ Hprev)). congruence. }
        apply IH1. rewrite E. by rewrite lookup_app_r, Nat.sub_diag.
      * apply IH2; [lia|done|].
        replace (S i - length new_chunks) with (S (S i - (length new_chunks + 1)))
          in Hc by lia. done.
Qed.

Lemma apply_overlap_chain overlap chunks i p c :
  overlap <> 0 ->
  apply_overlap overlap chunks !! i = Some p -> chunks !! S i = Some c ->
  apply_overlap overlap chunks !! S i = Some (overlap_candidate overlap p c).
Proof.
  intros Ho Hp Hc. unfold apply_overlap in *.
  destruct (Nat.eqb_spec overlap 0); [done|]. simpl in *.
  destruct chunks as [|c0 rest]; [done|].
  destruct (Nat.ltb_spec 1 (length (c0 :: rest))) as [Hlen|Hlen].
  - destruct (overlap_loop_chain overlap [c0] c0 rest) as [_ H]; [done|].
    apply H; [simpl; lia|done|]. simpl. by rewrite Nat.sub_0_r.
  - apply lookup_lt_Some in Hc. simpl in *. lia.
Qed.

Lemma take_words_spec overlap rev_words char_count overlap_words :
  char_count = overlap_cost overlap_words -> char_count <= overlap ->
  exists taken,
    take_words overlap rev_words char_count overlap_words
    = rev taken ++ overlap_words
    /\ taken `prefix_of` rev_words
    /\ overlap_cost (rev taken ++ overlap_words) <= overlap.
Proof.
  revert char_count overlap_words.
  induction rev_words as [|w rest IH]; intros cc ows Hcc Hle; simpl.
  - exists []. split; [done|]. split; [done|]. simpl. lia.
  - destruct (Nat.ltb_spec overlap (cc + length w + 1)).
    + exists []. split; [done|]. split; [apply prefix_nil|]. simpl. lia.
    + destruct (IH (cc + length w + 1) (w :: ows)) as (taken & E & Hp & Hc);
        [simpl; lia|lia|].
      exists (w :: taken). split; [|split].
      * rewrite E. simpl. by rewrite <- app_assoc.
      * by apply prefix_cons.
      * simpl. rewrite <- app_assoc. exact Hc.
Qed.

Lemma suffix_rev_prefix {A} (l1 l2 : list A) :
  l1 `prefix_of` rev l2 -> rev l1 `suffix_of` l2.
Proof.
  intros [k E]. exists (rev k).
  apply (f_equal (@rev A)) in E. rewrite rev_involutive, rev_app_distr in E.
  done.
Qed.

(** The words the pass takes: whole words from the end of the chunk before,
    which with a space after each count for no more than [overlap]. *)
Lemma overlap_words_spec overlap prev :
  let ws := take_words overlap (rev (split prev)) 0 [] in
  ws `suffix_of` split prev /\ overlap_cost ws <= overlap /\ Forall word ws.
Proof.
  destruct (take_words_spec overlap (rev (split prev)) 0 []) as (taken & E & Hp & Hc);
    [done|lia|].
  simpl. rewrite E in *. rewrite app_nil_r in *.
  assert (rev taken `suffix_of` split prev) as Hs by (by apply suffix_rev_prefix).
  split; [done|]. split; [done|].
  destruct Hs as [k Hk]. pose proof (split_words prev) as Hw.
  rewrite Hk in Hw. by apply Forall_app in Hw as [_ ?].
Qed.

Lemma strip_space_cons l : strip (space ++ l) = strip l.
Proof. unfold strip, lstrip. simpl. done. Qed.

Lemma strip_blank_iff l : blank l -> strip l = [].
Proof. apply strip_blank. Qed.

Lemma strip_words_app ws c :
  Forall word ws -> ws <> [] ->
  strip (join space ws ++ space ++ c)
  = if blank_dec c then join space ws else join space ws ++ space ++ rstrip c.
Proof.
  intros Hws Hne. destruct ws as [|w ws]; [done|].
  apply Forall_cons in Hws as [Hw Hws].
  destruct (join_head ws w Hw) as (x & l & E & Hx).
  assert (exists l' y, join space (w :: ws) = l' ++ [y] /\ is_space y = false)
    as (l' & y & E' & Hy).
  { clear E Hx x l Hne. revert w Hw. induction Hws as [|w' ws Hw' Hws IH]; intros w Hw.
    - destruct Hw as [Hne' Hw]. simpl.
      destruct (exists_last Hne') as (l' & y & ->). exists l', y. split; [done|].
      apply Forall_app in Hw as [_ Hy]. by apply Forall_cons in Hy as [? _].
    - destruct (IH w' Hw') as (l' & y & E & Hy).
      exists (w ++ space ++ l'), y. split; [|done].
      change (join space (w :: w' :: ws)) with (w ++ space ++ join space (w' :: ws)).
      by rewrite E, <- !app_assoc. }
  unfold strip. rewrite E. rewrite <- app_comm_cons, lstrip_word by done.
  rewrite app_comm_cons, <- E.
  destruct (blank_dec c) as [Hb|Hnb].
  - rewrite rstrip_app_blank.
    + rewrite E'. by apply rstrip_snoc.
    + apply blank_app. split; [by repeat constructor|done].
  - rewrite app_assoc, rstrip_app by done. by rewrite <- app_assoc.
Qed.

Lemma overlap_candidate_cases overlap prev c :
  let ws := take_words overlap (rev (split prev)) 0 [] in
  overlap_candidate overlap prev c
  = match ws with
    | [] => strip c
    | _ => if blank_dec c then join space ws
           else join space ws ++ space ++ rstrip c
    end.
Proof.
  intros ws. unfold overlap_candidate. fold ws.
  destruct (overlap_words_spec overlap prev) as (_ & _ & Hw). fold ws in Hw.
  destruct ws as [|w ws'] eqn:E; [apply strip_space_cons|].
  by apply strip_words_app.
Qed.

Lemma rstrip_length l : length (rstrip l) <= length l.
Proof.
  unfold rstrip. rewrite length_rev.
  etransitivity; [apply drop_while_length|]. by rewrite length_rev.
Qed.

Lemma overlap_candidate_length overlap prev c :
  length (overlap_candidate overlap prev c) <= overlap + length c.
Proof.
  rewrite overlap_candidate_cases.
  destruct (overlap_words_spec overlap prev) as (_ & Hc & _).
  destruct (take_words overlap (rev (split prev)) 0 []) as [|w ws].
  - pose proof (strip_length c). lia.
  - pose proof (length_join (w :: ws)) as Hj.
    assert (0 < overlap_cost (w :: ws)) by (simpl; lia).
    set (j := join space (w :: ws)) in *.
    set (n := overlap_cost (w :: ws)) in *.
    destruct (blank_dec c).
    + lia.
    + rewrite !length_app. pose proof (rstrip_length c).
      change (length space) with 1. lia.
Qed.

Lemma strip_suffix_rstrip c : strip c `suffix_of` rstrip c.
Proof.
  destruct (blank_dec c) as [Hb|Hnb].
  - rewrite strip_blank by done. apply suffix_nil.
  - destruct (lstrip_spec c) as (l1 & E & Hb).
    assert (~ blank (lstrip c)) as Hnb'.
    { intros H. apply Hnb. rewrite E. by apply blank_app. }
    unfold strip. rewrite E at 2. rewrite rstrip_app by done.
    by exists l1.
Qed.

Lemma overlap_candidate_suffix overlap prev c :
  strip c `suffix_of` overlap_candidate overlap prev c.
Proof.
  rewrite overlap_candidate_cases.
  destruct (take_words overlap (rev (split prev)) 0 []) as [|w ws]; [done|].
  destruct (blank_dec c) as [Hb|Hnb].
  - rewrite strip_blank by done. apply suffix_nil.
  - etransitivity; [apply strip_suffix_rstrip|].
    exists (join space (w :: ws) ++ space). by rewrite <- app_assoc.
Qed.

Lemma split_rstrip l : split (rstrip l) = split l.
Proof.
  destruct (rstrip_spec l) as (l2 & E & Hb). rewrite E at 2.
  by rewrite split_app_blank_r.
Qed.

Lemma overlap_candidate_words overlap prev c :
  let ws := take_words overlap (rev (split prev)) 0 [] in
  split (overlap_candidate overlap prev c) = ws ++ split c.
Proof.
  intros ws. rewrite overlap_candidate_cases. fold ws.
  destruct (overlap_words_spec overlap prev) as (_ & _ & Hw). fold ws in Hw.
  destruct ws as [|w ws'] eqn:E; [by rewrite split_strip|].
  destruct (blank_dec c) as [Hb|Hnb].
  - by rewrite split_join, (split_blank c), app_nil_r.
  - change (join space (w :: ws') ++ space ++ rstrip c)
      with (join space (w :: ws') ++ " "%char :: rstrip c).
    by rewrite split_app, split_join, split_rstrip.
Qed.

End ChunkContent.

Import StrProofs ChunkContent.

Lemma chunk_text_inr text max_chars overlap chunks :
  chunk_text text max_chars overlap = inr chunks ->
  (0 < max_chars)%Z /\ (0 <= overlap)%Z
  /\ chunks = map str (apply_overlap (Z.to_nat overlap)
                         (sentence_chunks (chars text) (Z.to_nat max_chars))).
Proof.
  unfold chunk_text. destruct (Z.leb_spec max_chars 0); [done|].
  destruct (Z.ltb_spec overlap 0); [done|]. intros [= <-]. done.
Qed.

Lemma apply_overlap_zero chunks : apply_overlap 0 chunks = chunks.
Proof. done. Qed.

(** X1: without overlap the chunks hold the characters of the text, all of
    them and in their order, white space apart: chunking drops and adds
    white space only. And no chunk is the empty string. *)
Theorem chunk_text_keeps_every_character
    (text : string) (max_chars : Z) (chunks : list string) :
  chunk_text text max_chars 0 = inr chunks ->
  nonspace (concat (map chars chunks)) = nonspace (chars text)
  /\ Forall (fun c => c <> ""%string) chunks.
Proof.
  intros H. split; [|by apply (chunk_text_no_overlap_nonempty text max_chars)].
  apply chunk_text_inr in H as (Hm & _ & ->). rewrite apply_overlap_zero.
  rewrite map_map. rewrite (map_ext _ id) by (intros l; apply chars_str).
  rewrite map_id. apply sentence_chunks_content. lia.
Qed.

Lemma chunk_text_keeps_every_character_witness :
  nonspace (concat (map chars ["a."; "b  c."; "d"]%string))
  = nonspace (chars "a.b  c. d")
  /\ Forall (fun c => c <> ""%string) ["a."; "b  c."; "d"]%string.
Proof.
  apply (chunk_text_keeps_every_character "a.b  c. d" 5 ["a."; "b  c."; "d"]%string).
  reflexivity.
Defined.

(** X2: for valid arguments [chunk_text] returns no chunk at all exactly
    when the text is empty or white space only. *)
Theorem chunk_text_empty_iff_blank (text : string) (max_chars overlap : Z) :
  (0 < max_chars)%Z -> (0 <= overlap)%Z ->
  chunk_text text max_chars overlap = inr [] <-> blank (chars text).
Proof.
  intros Hm Ho. split; [|by apply chunk_text_blank].
  intros (_ & _ & H)%chunk_text_inr.
  symmetry in H. apply map_eq_nil in H.
  pose proof (apply_overlap_Forall2 (fun _ _ => True) (Z.to_nat overlap)
                (sentence_chunks (chars text) (Z.to_nat max_chars))
                (fun _ => I) (fun _ _ => I)) as HF.
  apply Forall2_length in HF. rewrite H in HF. simpl in HF.
  symmetry in HF. apply nil_length_inv in HF.
  apply nonspace_nil_blank.
  rewrite <- (sentence_chunks_content (Z.to_nat max_chars)) by lia.
  by rewrite HF.
Qed.

Lemma chunk_text_empty_iff_blank_witness :
  chunk_text "  " 10 3 = inr [] <-> blank (chars "  ").
Proof. apply chunk_text_empty_iff_blank; lia. Defined.

(** ** The chunker: whole sentences *)

Module ChunkSentences.
Import PyStr Chunker ChunkerProofs StrProofs ChunkContent.

(** A string that is not empty and neither starts nor ends with white
    space. *)
Definition tight (l : list ascii) : Prop :=
  (exists c l', l = c :: l' /\ is_space c = false)
  /\ (exists l' d, l = l' ++ [d] /\ is_space d = false).

Lemma strip_tight l : tight l -> strip l = l.
Proof.
  intros [(c & l1 & E1 & Hc) (l2 & d & E2 & Hd)]. unfold strip.
  rewrite E1, lstrip_word by done. rewrite <- E1, E2. by apply rstrip_snoc.
Qed.

Lemma tight_strip l : strip l <> [] -> tight (strip l).
Proof.
  intros Hne. split.
  - pose proof (strip_head l) as H. destruct (strip l) as [|c l']; [done|].
    by exists c, l'.
  - pose proof (rstrip_last (lstrip l)) as H. fold (strip l) in H.
    destruct (rev (strip l)) as [|d r] eqn:E.
    + apply (f_equal (@rev ascii)) in E. rewrite rev_involutive in E. done.
    + apply (f_equal (@rev ascii)) in E. rewrite rev_involutive in E.
      simpl in E. by exists (rev r), d.
Qed.

Lemma tight_app a mid b : tight a -> tight b -> tight (a ++ mid ++ b).
Proof.
  intros [(c & l1 & -> & Hc) _] [_ (l2 & d & -> & Hd)]. split.
  - by exists c, (l1 ++ mid ++ l2 ++ [d]).
  - exists ((c :: l1) ++ mid ++ l2), d. by rewrite <- !app_assoc.
Qed.

Lemma tight_nonempty l : tight l -> l <> [].
Proof. by intros [(c & l' & -> & _) _]. Qed.

Lemma join_snoc ws s :
  ws <> [] -> join space (ws ++ [s]) = join space ws ++ space ++ s.
Proof.
  induction ws as [|w ws IH]; [done|]. intros _.
  destruct ws as [|w' ws]; [done|].
  change (join space ((w :: w' :: ws) ++ [s]))
    with (w ++ space ++ join space ((w' :: ws) ++ [s])).
  rewrite IH by done.
  change (join space (w :: w' :: ws)) with (w ++ space ++ join space (w' :: ws)).
  by rewrite <- !app_assoc.
Qed.

Lemma tight_join ws : ws <> [] -> Forall tight ws -> tight (join space ws).
Proof.
  induction ws as [|w ws IH] using rev_ind; [done|]. intros _ H.
  apply Forall_app in H as [Hws Hw]. apply Forall_cons in Hw as [Hw _].
  destruct ws as [|w' ws']; [done|].
  rewrite join_snoc by done. apply tight_app; [|done]. by apply IH.
Qed.

Lemma sentences_snoc l s0 :
  filter (fun s => s <> []) (map strip (l ++ [s0]))
  = filter (fun s => s <> []) (map strip l)
    ++ (if decide (strip s0 = []) then [] else [strip s0]).
Proof.
  rewrite map_app, filter_app. f_equal. simpl.
  rewrite filter_cons, filter_nil.
  destruct (decide (strip s0 <> [])) as [H|H], (decide (strip s0 = []));
    done.
Qed.

(** The state of the loop after the fragments [seen]: the chunks are the
    chunks of the pieces, and [cur] holds the sentences that wait. *)
Definition grouped (max_chars : nat) (seen : list (list ascii))
    (st : list (list ascii) * list ascii) : Prop :=
  exists pieces pending,
    concat (map piece_sentences pieces) ++ pending
    = filter (fun s => s <> []) (map strip seen)
    /\ st.1 = concat (map (piece_chunks max_chars) pieces)
    /\ st.2 = join space pending
    /\ Forall (piece_ok max_chars) pieces
    /\ Forall tight pending
    /\ length (join space pending) <= max_chars.

Lemma flush_grouped max_chars pieces pending :
  Forall (piece_ok max_chars) pieces -> Forall tight pending ->
  length (join space pending) <= max_chars ->
  exists pieces',
    concat (map piece_sentences pieces')
    = concat (map piece_sentences pieces) ++ pending
    /\ flush (concat (map (piece_chunks max_chars) pieces)) (join space pending)
       = concat (map (piece_chunks max_chars) pieces')
    /\ Forall (piece_ok max_chars) pieces'.
Proof.
  intros Hp Ht Hlen. destruct pending as [|s pending].
  - exists pieces. by rewrite app_nil_r.
  - exists (pieces ++ [Group (s :: pending)]).
    rewrite !map_app, !concat_app.
    cbn [map concat piece_sentences piece_chunks]. rewrite !app_nil_r.
    split; [done|]. split.
    + assert (tight (join space (s :: pending))) as Hj
        by (by apply tight_join).
      apply tight_nonempty in Hj.
      unfold flush. by destruct (join space (s :: pending)).
    + apply Forall_app. split; [done|]. by repeat constructor.
Qed.

Lemma chunk_step_grouped max_chars seen st s0 :
  grouped max_chars seen st ->
  grouped max_chars (seen ++ [s0]) (chunk_step max_chars st s0).
Proof.
  destruct st as [chunks cur].
  intros (pieces & pending & Hsent & Hchunks & Hcur & Hok & Htight & Hlen).
  simpl in Hchunks, Hcur. subst chunks cur.
  unfold grouped. rewrite sentences_snoc. unfold chunk_step.
  destruct (strip s0) as [|c s'] eqn:Es.
  { exists pieces, pending. rewrite decide_True by done.
    by rewrite app_nil_r. }
  rewrite decide_False by done. rewrite <- Es.
  assert (tight (strip s0)) as Hs by (apply tight_strip; by rewrite Es).
  destruct (Nat.leb_spec (length (join space pending) + length (strip s0) + 1)
              max_chars) as [Hfit|Hnofit].
  - exists pieces, (pending ++ [strip s0]).
    assert (strip (join space pending ++ space ++ strip s0)
            = join space (pending ++ [strip s0])) as Hjoin.
    { destruct pending as [|p pending].
      - simpl. change (" "%char :: strip s0) with (space ++ strip s0).
        by rewrite strip_space_cons, strip_idem.
      - rewrite join_snoc by done. apply strip_tight, tight_app; [|done].
        by apply tight_join. }
    split; [by rewrite app_assoc, Hsent|]. split; [done|].
    split; [exact Hjoin|]. split; [done|].
    split; [apply Forall_app; split; [done|constructor; [done|constructor]]|].
    rewrite <- Hjoin. etransitivity; [apply strip_length|].
    rewrite !length_app. simpl. lia.
  - destruct (flush_grouped max_chars pieces pending Hok Htight Hlen)
      as (pieces' & Hsent' & Hflush & Hok').
    rewrite Hflush.
    destruct (Nat.ltb_spec max_chars (length (strip s0))) as [Hlong|Hshort].
    + exists (pieces' ++ [Cut (strip s0)]), [].
      rewrite !map_app, !concat_app. simpl. rewrite !app_nil_r.
      split; [by rewrite Hsent', Hsent|]. split; [done|]. split; [done|].
      split; [apply Forall_app; split; [done|by repeat constructor]|].
      split; [constructor|lia].
    + exists pieces', [strip s0]. simpl.
      split; [by rewrite Hsent', Hsent|]. split; [done|]. split; [done|].
      split; [done|]. split; [constructor; [done|constructor]|done].
Qed.

Lemma fold_chunk_step_grouped max_chars l seen st :
  grouped max_chars seen st ->
  grouped max_chars (seen ++ l) (fold_left (chunk_step max_chars) l st).
Proof.
  revert seen st. induction l as [|s0 l IH]; intros seen st H.
  - by rewrite app_nil_r.
  - replace (seen ++ s0 :: l) with ((seen ++ [s0]) ++ l)
      by (by rewrite <- app_assoc).
    cbn [fold_left]. apply IH. by apply chunk_step_grouped.
Qed.

Lemma sentence_chunks_grouped text max_chars :
  exists pieces,
    concat (map piece_sentences pieces) = sentences text
    /\ sentence_chunks text max_chars
       = concat (map (piece_chunks max_chars) pieces)
    /\ Forall (piece_ok max_chars) pieces.
Proof.
  unfold sentence_chunks.
  destruct (fold_chunk_step_grouped max_chars (re_split text) [] ([], []))
    as (pieces & pending & Hsent & Hchunks & Hcur & Hok & Htight & Hlen).
  { exists [], []. simpl. repeat split; try done; try constructor. lia. }
  destruct (fold_left _ _ _) as [chunks cur]. simpl in *. subst chunks cur.
  destruct (flush_grouped max_chars pieces pending Hok Htight Hlen)
    as (pieces' & Hsent' & Hflush & Hok').
  exists pieces'. split; [by rewrite Hsent'|]. by split.
Qed.

End ChunkSentences.

(** X3: without overlap the chunks are made of whole sentences: the
    sentences of the text (the fragments cut after [.], [!] and [?],
    stripped, but the empty ones) fall, in their order, into groups and
    sentences that are cut; a group is one chunk, its sentences joined by
    single spaces, of [max_chars] characters at most, and a sentence is cut
    only when it has more than [max_chars] characters, into the slices that
    are its chunks. *)
Theorem chunk_text_groups_whole_sentences
    (text : string) (max_chars : Z) (chunks : list string) :
  chunk_text text max_chars 0 = inr chunks ->
  exists pieces,
    concat (map piece_sentences pieces) = sentences (chars text)
    /\ chunks
       = map str (concat (map (piece_chunks (Z.to_nat max_chars)) pieces))
    /\ Forall (piece_ok (Z.to_nat max_chars)) pieces.
Proof.
  intros (Hm & _ & ->)%chunk_text_inr. rewrite apply_overlap_zero.
  destruct (ChunkSentences.sentence_chunks_grouped (chars text)
              (Z.to_nat max_chars)) as (pieces & H1 & H2 & H3).
  exists pieces. by rewrite H2.
Qed.

Lemma chunk_text_groups_whole_sentences_witness :
  exists pieces,
    concat (map piece_sentences pieces) = sentences (chars "A. B. Cdefghi. J.")
    /\ ["A. B."; "Cdefg"; "hi."; "J."]%string
       = map str (concat (map (piece_chunks 5) pieces)).
Proof.
  destruct (chunk_text_groups_whole_sentences "A. B. Cdefghi. J." 5
              ["A. B."; "Cdefg"; "hi."; "J."]%string) as (pieces & H1 & H2 & _).
  - reflexivity.
  - exists pieces. split; [exact H1|exact H2].
Defined.

(** ** The chunker: the slices of a sentence that is too long *)

Module ChunkSlices.
Import PyStr Chunker ChunkerProofs StrProofs ChunkSentences.

Lemma length_le_join (s : list ascii) (g : list (list ascii)) :
  s ∈ g -> length s <= length (join space g).
Proof.
  induction g as [|w g IH]; [by intros ?%elem_of_nil|].
  intros [E|Hin]%elem_of_cons.
  - subst w. destruct g as [|w' g]; [done|].
    change (join space (s :: w' :: g)) with (s ++ space ++ join space (w' :: g)).
    rewrite length_app. lia.
  - specialize (IH Hin). destruct g as [|w' g]; [by apply elem_of_nil in Hin|].
    change (join space (w :: w' :: g)) with (w ++ space ++ join space (w' :: g)).
    rewrite !length_app. lia.
Qed.

(** A sentence that is too long is in no group: it is cut, and its slices
    stand side by side among the chunks. *)
Lemma long_sentence_is_cut max_chars pieces s :
  Forall (piece_ok max_chars) pieces ->
  s ∈ concat (map piece_sentences pieces) -> max_chars < length s ->
  exists before after,
    concat (map (piece_chunks max_chars) pieces)
    = before ++ hard_split s max_chars ++ after.
Proof.
  induction 1 as [|p pieces Hp _ IH]; simpl; [by intros ?%elem_of_nil|].
  intros [Hin|Hin]%elem_of_app Hlong.
  - destruct p as [g|s']; simpl in *.
    + destruct Hp as [_ Hlen]. pose proof (length_le_join s g Hin). lia.
    + apply list_elem_of_singleton in Hin as ->.
      by exists [], (concat (map (piece_chunks max_chars) pieces)).
  - destruct (IH Hin Hlong) as (before & after & ->).
    exists (piece_chunks max_chars p ++ before), after.
    by rewrite <- app_assoc.
Qed.

End ChunkSlices.

(** C8: for a positive [max_chars] and without overlap [chunk_text]
    returns the chunks as they are before the overlap pass, and every one of
    them has at most [max_chars] characters; a sentence of the text (a
    fragment cut after [.], [!] or [?], stripped) that has more than
    [max_chars] characters is cut: among the chunks that [chunk_text]
    returns stand, side by side and in their order, slices which put
    together give the sentence back, each non-empty and of exactly
    [max_chars] characters, the last one possibly shorter. *)
Theorem chunk_text_chunks_within_max_chars (text : string) (max_chars : Z) :
  (0 < max_chars)%Z ->
  exists chunks,
    chunk_text text max_chars 0 = inr chunks
    /\ Forall (fun c => (Z.of_nat (String.length c) <= max_chars)%Z) chunks
    /\ forall s,
         s ∈ sentences (chars text) -> (max_chars < Z.of_nat (length s))%Z ->
         exists before slices after,
           chunks = before ++ map str slices ++ after
           /\ concat slices = s
           /\ forall i slice,
                slices !! i = Some slice ->
                (0 < Z.of_nat (length slice) <= max_chars)%Z
                /\ (S i < length slices ->
                    Z.of_nat (length slice) = max_chars).
Proof.
  intros Hm. set (m := Z.to_nat max_chars).
  assert (0 < m) as Hpos by (unfold m; lia).
  exists (map str (sentence_chunks (chars text) m)).
  split; [by apply chunk_text_no_overlap|]. split.
  - apply Forall_fmap.
    eapply Forall_impl; [apply (sentence_chunks_bounded m Hpos)|].
    intros c Hc. simpl. rewrite str_length. unfold m in Hc. lia.
  - intros s Hs Hlong.
    destruct (ChunkSentences.sentence_chunks_grouped (chars text) m)
      as (pieces & Hsent & Hchunks & Hok).
    rewrite <- Hsent in Hs.
    destruct (ChunkSlices.long_sentence_is_cut m pieces s Hok Hs)
      as (before & after & E); [unfold m; lia|].
    exists (map str before), (hard_split s m), (map str after).
    split; [by rewrite Hchunks, E, !map_app|].
    split; [by apply hard_split_concat|].
    intros i slice Hi.
    destruct (hard_split_lookup m Hpos s i slice Hi) as [Hlen Hfull].
    split; [unfold m in Hlen; lia|].
    intros Hlt. specialize (Hfull Hlt). unfold m in Hfull. lia.
Qed.

Lemma chunk_text_chunks_within_max_chars_witness :
  exists chunks,
    chunk_text "abcdefg. hi." 3 0 = inr chunks
    /\ Forall (fun c => (Z.of_nat (String.length c) <= 3)%Z) chunks
    /\ exists before slices after,
         chunks = before ++ map str slices ++ after
         /\ concat slices = chars "abcdefg.".
Proof.
  destruct (chunk_text_chunks_within_max_chars "abcdefg. hi." 3)
    as (chunks & H0 & H1 & H2); [lia|].
  exists chunks. split; [exact H0|]. split; [exact H1|].
  destruct (H2 (chars "abcdefg.")) as (before & slices & after & E1 & E2 & _).
  - vm_compute. apply list_elem_of_here.
  - vm_compute. reflexivity.
  - exists before, slices, after. split; [exact E1|exact E2].
Defined.

(** X4: the overlap pass adds and drops no chunk, leaves the first chunk
    as it is, and only puts text before the others: each chunk it returns
    is the chunk of the same place or ends with it, stripped. *)
Theorem chunk_text_overlap_only_prepends
    (text : string) (max_chars overlap : Z) (with_overlap without : list string) :
  chunk_text text max_chars overlap = inr with_overlap ->
  chunk_text text max_chars 0 = inr without ->
  length with_overlap = length without
  /\ head with_overlap = head without
  /\ Forall2 (fun new old =>
                new = old \/ strip (chars old) `suffix_of` chars new)
       with_overlap without.
Proof.
  intros (Hm & Ho & ->)%chunk_text_inr (_ & _ & ->)%chunk_text_inr.
  rewrite apply_overlap_zero.
  set (o := Z.to_nat overlap).
  set (chunks := sentence_chunks (chars text) (Z.to_nat max_chars)).
  assert (Forall2 (fun new old =>
                     new = old \/ strip (chars old) `suffix_of` chars new)
            (map str (apply_overlap o chunks)) (map str chunks)) as HF.
  { to_fmap. apply Forall2_fmap.
    apply (apply_overlap_Forall2
             (fun new old => str new = str old
                             \/ strip (chars (str old)) `suffix_of` chars (str new))).
    - intros c. by left.
    - intros prev c. right. rewrite !chars_str. apply overlap_candidate_suffix. }
  split; [by eapply Forall2_length|]. split; [|done].
  pose proof (apply_overlap_head o chunks) as Hh.
  destruct (apply_overlap o chunks), chunks; simpl in *; congruence.
Qed.

Lemma chunk_text_overlap_only_prepends_witness :
  length ["one two."; "two. three four."; "five."]%string
  = length ["one two."; "three four."; "five."]%string
  /\ Forall2 (fun new old =>
                new = old \/ strip (chars old) `suffix_of` chars new)
       ["one two."; "two. three four."; "five."]%string
       ["one two."; "three four."; "five."]%string.
Proof.
  destruct (chunk_text_overlap_only_prepends "one two. three four. five." 12 5
              ["one two."; "two. three four."; "five."]%string
              ["one two."; "three four."; "five."]%string) as (H1 & _ & H2).
  - reflexivity.
  - reflexivity.
  - split; [exact H1|exact H2].
Defined.

(** X5: with an overlap a chunk has at most [max_chars + overlap]
    characters. *)
Theorem chunk_text_overlap_length_bound
    (text : string) (max_chars overlap : Z) (chunks : list string) :
  chunk_text text max_chars overlap = inr chunks ->
  Forall (fun c => (Z.of_nat (String.length c) <= max_chars + overlap)%Z) chunks.
Proof.
  intros (Hm & Ho & ->)%chunk_text_inr.
  set (o := Z.to_nat overlap). set (m := Z.to_nat max_chars).
  pose proof (apply_overlap_Forall2 (fun new old => length new <= o + length old)
                o (sentence_chunks (chars text) m)) as HF.
  pose proof (sentence_chunks_bounded m ltac:(lia) (chars text)) as HB.
  apply Forall_fmap. eapply Forall2_Forall_l; [apply HF|].
  - intros c. lia.
  - intros prev c. apply overlap_candidate_length.
  - eapply Forall_impl; [exact HB|]. simpl. intros old Hold new Hnew.
    rewrite str_length. lia.
Qed.

Lemma chunk_text_overlap_length_bound_witness :
  Forall (fun c => (Z.of_nat (String.length c) <= 12 + 5)%Z)
    ["one two."; "two. three four."; "five."]%string.
Proof.
  apply (chunk_text_overlap_length_bound "one two. three four. five." 12 5).
  reflexivity.
Defined.

(** X6: what the overlap pass puts before a chunk is whole words: the
    words of a chunk it returns are words from the end of the chunk it
    returned just before, which with one space after each count for no more
    than [overlap] characters, and then the words of the chunk of the same
    place. *)
Theorem chunk_text_overlap_whole_words
    (text : string) (max_chars overlap : Z) (with_overlap without : list string)
    (i : nat) (prev new old : string) :
  chunk_text text max_chars overlap = inr with_overlap ->
  chunk_text text max_chars 0 = inr without ->
  with_overlap !! i = Some prev -> with_overlap !! S i = Some new ->
  without !! S i = Some old ->
  exists ws,
    ws `suffix_of` split (chars prev)
    /\ (Z.of_nat (overlap_cost ws) <= overlap)%Z
    /\ split (chars new) = ws ++ split (chars old).
Proof.
  intros (Hm & Ho & ->)%chunk_text_inr (_ & _ & ->)%chunk_text_inr.
  rewrite apply_overlap_zero.
  set (o := Z.to_nat overlap).
  set (chunks := sentence_chunks (chars text) (Z.to_nat max_chars)).
  to_fmap. rewrite !list_lookup_fmap.
  destruct (apply_overlap o chunks !! i) as [p|] eqn:Hp; [|done].
  destruct (apply_overlap o chunks !! S i) as [n|] eqn:Hn; [|done].
  destruct (chunks !! S i) as [c|] eqn:Hc; [|done].
  simpl. intros [= <-] [= <-] [= <-]. rewrite !chars_str.
  destruct (decide (o = 0)) as [Ho0|Ho0].
  - exists []. split; [apply suffix_nil|]. split; [simpl; lia|].
    rewrite Ho0 in Hn. change (chunks !! S i = Some n) in Hn.
    assert (n = c) as -> by congruence. done.
  - pose proof (apply_overlap_chain o chunks i p c Ho0 Hp Hc) as Hn'.
    assert (n = overlap_candidate o p c) as -> by congruence.
    destruct (overlap_words_spec o p) as (Hs & Hcost & _).
    eexists. split; [exact Hs|]. split; [lia|].
    apply overlap_candidate_words.
Qed.

Lemma chunk_text_overlap_whole_words_witness :
  exists ws,
    ws `suffix_of` split (chars "one two.")
    /\ (Z.of_nat (overlap_cost ws) <= 5)%Z
    /\ split (chars "two. three four.") = ws ++ split (chars "three four.").
Proof.
  apply (chunk_text_overlap_whole_words "one two. three four. five." 12 5
           ["one two."; "two. three four."; "five."]%string
           ["one two."; "three four."; "five."]%string 0
           "one two." "two. three four." "three four.");
    reflexivity.
Defined.

(** X7: a text with no [.], [!] or [?] that, stripped, has at most
    [max_chars] characters comes back as one chunk: the stripped text. *)
Theorem chunk_text_single_sentence (text : string) (max_chars overlap : Z) :
  (0 <= overlap)%Z ->
  Forall (fun c => is_boundary c = false) (chars text) ->
  ~ blank (chars text) ->
  (Z.of_nat (length (strip (chars text))) <= max_chars)%Z ->
  chunk_text text max_chars overlap = inr [str (strip (chars text))].
Proof.
  intros Ho Hnb Hblank Hlen.
  assert (strip (chars text) <> []) as Hne.
  { intros E. apply Hblank, nonspace_nil_blank.
    by rewrite <- nonspace_strip, E. }
  assert (0 < length (strip (chars text))) as Hpos
    by (destruct (strip (chars text)); simpl; [done|lia]).
  unfold chunk_text.
  destruct (Z.leb_spec max_chars 0); [lia|].
  destruct (Z.ltb_spec overlap 0); [lia|].
  assert (re_split (chars text) = [chars text]) as Hsplit.
  { clear -Hnb. induction Hnb as [|c l Hc _ IH]; [done|]. simpl.
    by rewrite Hc, IH. }
  assert (sentence_chunks (chars text) (Z.to_nat max_chars)
          = [strip (chars text)]) as ->.
  { unfold sentence_chunks. rewrite Hsplit. cbn [fold_left]. unfold chunk_step.
    destruct (strip (chars text)) as [|c s] eqn:Es; [done|].
    rewrite <- Es in *.
    destruct (_ <=? _).
    - rewrite app_nil_l, strip_space_cons, strip_idem. by rewrite Es.
    - destruct (Nat.ltb_spec (Z.to_nat max_chars) (length (strip (chars text))));
        [lia|]. by rewrite Es. }
  unfold apply_overlap. simpl. by rewrite andb_false_r.
Qed.

Lemma chunk_text_single_sentence_witness :
  chunk_text "  hello world " 11 4 = inr ["hello world"%string].
Proof.
  apply (chunk_text_single_sentence "  hello world " 11 4).
  - lia.
  - repeat constructor.
  - intros H. apply Forall_cons in H as [_ H]. apply Forall_cons in H as [_ H].
    apply Forall_cons in H as [H _]. discriminate H.
  - vm_compute. discriminate.
Defined.

(** ** [normalize_name] *)

Module NameProofs.
Import PyStr Names StrProofs.

Lemma lower_char_idem c : lower_char (lower_char c) = lower_char c.
Proof. destruct c as [[] [] [] [] [] [] [] []]; vm_compute; reflexivity. Qed.

Lemma is_space_lower_char c : is_space (lower_char c) = is_space c.
Proof. destruct c as [[] [] [] [] [] [] [] []]; vm_compute; reflexivity. Qed.

Lemma lower_idem l : lower (lower l) = lower l.
Proof.
  unfold lower. rewrite map_map. apply map_ext. intros c. apply lower_char_idem.
Qed.

Lemma lower_app l1 l2 : lower (l1 ++ l2) = lower l1 ++ lower l2.
Proof. apply map_app. Qed.

Lemma blank_lower l : blank (lower l) <-> blank l.
Proof.
  unfold blank, lower. to_fmap. rewrite Forall_fmap. apply Forall_proper; [|done].
  intros c. simpl. by rewrite is_space_lower_char.
Qed.

Lemma normalize_name_parts name :
  normalize_name name = str (join space (parts_of name)).
Proof.
  unfold normalize_name, parts_of. rewrite split_strip.
  by destruct (split (lower (chars name))).
Qed.

Lemma parts_of_words name : Forall word (parts_of name).
Proof.
  unfold parts_of. pose proof (split_words (lower (chars name))) as H.
  destruct (split (lower (chars name))) as [|p rest]; [done|].
  case_bool_decide; [|done]. by apply Forall_cons in H as [_ ?].
Qed.

Lemma parts_of_lower name :
  Forall (Forall (fun c => lower_char c = c)) (parts_of name).
Proof.
  assert (Forall (Forall (fun c => lower_char c = c))
            (split (lower (chars name)))) as H.
  { assert (Forall (fun c => lower_char c = c) (lower (chars name))) as Hl.
    { unfold lower. to_fmap. apply Forall_fmap, Forall_forall. intros c _.
      apply lower_char_idem. }
    revert Hl. generalize (lower (chars name)). intros l Hl.
    unfold split.
    assert (forall cur, Forall (fun c => lower_char c = c) cur ->
              Forall (Forall (fun c => lower_char c = c)) (split_go cur l)) as Hgo;
      [|apply Hgo; constructor].
    induction Hl as [|c l Hc Hl IH]; intros cur Hcur; simpl.
    - destruct cur; [constructor|]. constructor; [|constructor].
      by apply Forall_rev.
    - destruct (is_space c).
      + destruct cur; [apply IH; constructor|].
        constructor; [by apply Forall_rev|]. apply IH. constructor.
      + apply IH. by constructor. }
  unfold parts_of. destruct (split (lower (chars name))) as [|p rest]; [done|].
  case_bool_decide; [|done]. by apply Forall_cons in H as [_ ?].
Qed.

Lemma join_last ws w :
  Forall word (w :: ws) ->
  exists l c, join space (w :: ws) = l ++ [c] /\ is_space c = false.
Proof.
  revert w. induction ws as [|w' ws IH]; intros w Hws.
  - apply Forall_cons in Hws as [[Hne Hw] _]. simpl.
    destruct (exists_last Hne) as (l & c & ->). exists l, c. split; [done|].
    apply Forall_app in Hw as [_ Hc]. by apply Forall_cons in Hc as [? _].
  - apply Forall_cons in Hws as [Hw Hws].
    destruct (IH w' Hws) as (l & c & E & Hc).
    exists (w ++ space ++ l), c. split; [|done].
    change (join space (w :: w' :: ws)) with (w ++ space ++ join space (w' :: ws)).
    by rewrite E, <- !app_assoc.
Qed.

Lemma strip_join ws : Forall word ws -> strip (join space ws) = join space ws.
Proof.
  intros Hws. destruct ws as [|w ws]; [done|].
  pose proof Hws as Hws'. apply Forall_cons in Hws' as [Hw _].
  destruct (join_head ws w Hw) as (x & l & E & Hx).
  destruct (join_last ws w Hws) as (l' & y & E' & Hy).
  unfold strip. rewrite E, lstrip_word by done. rewrite <- E, E'.
  by apply rstrip_snoc.
Qed.

Lemma lower_join ws :
  Forall (Forall (fun c => lower_char c = c)) ws ->
  lower (join space ws) = join space ws.
Proof.
  induction 1 as [|w ws Hw Hws IH]; [done|].
  assert (lower w = w) as Hlw.
  { clear -Hw. induction Hw as [|c w Hc _ IH]; [done|]. simpl. by rewrite Hc, IH. }
  destruct ws as [|w' ws]; [done|].
  change (join space (w :: w' :: ws)) with (w ++ space ++ join space (w' :: ws)).
  by rewrite !lower_app, IH, Hlw.
Qed.

Lemma join_nil_inv ws : Forall word ws -> join space ws = [] -> ws = [].
Proof.
  intros Hws E. destruct ws as [|w ws]; [done|].
  apply Forall_cons in Hws as [Hw _].
  destruct (join_head ws w Hw) as (x & l & E' & _). congruence.
Qed.

Lemma str_inj l1 l2 : str l1 = str l2 -> l1 = l2.
Proof. intros E. by rewrite <- (chars_str l1), <- (chars_str l2), E. Qed.

Lemma prefixes_words p : p ∈ prefixes -> word p /\ rstrip_dots p = p.
Proof.
  intros H. unfold prefixes in H. simpl in H.
  repeat (apply elem_of_cons in H as [->|H];
          [split; [split; [done|repeat constructor]|reflexivity]|]).
  by apply elem_of_nil in H.
Qed.

Lemma rstrip_dots_app p dots :
  rstrip_dots p = p -> p <> [] -> Forall (fun c => c = "."%char) dots ->
  rstrip_dots (p ++ dots) = p.
Proof.
  intros Hp Hne Hd. unfold rstrip_dots in *. rewrite rev_app_distr.
  rewrite drop_while_app; [done|].
  apply Forall_rev. eapply Forall_impl; [exact Hd|]. by intros c ->.
Qed.

End NameProofs.

Import NameProofs.

(** X8: a normalized name is in normal form: lower case, no white space at
    its ends and one space between its words. *)
Theorem normalize_name_normal_form (name : string) :
  let n := chars (normalize_name name) in
  lower n = n /\ strip n = n /\ join space (split n) = n.
Proof.
  rewrite normalize_name_parts, chars_str.
  pose proof (parts_of_words name) as Hw. cbv zeta.
  split; [apply lower_join, parts_of_lower|].
  split; [by apply strip_join|]. by rewrite split_join.
Qed.

(** X9: only the lower-cased words of a name count: two names with the
    same words, whatever their case and the white space around and between
    the words, have the same normalized name. *)
Theorem normalize_name_same_words (a b : string) :
  split (lower (chars a)) = split (lower (chars b)) ->
  normalize_name a = normalize_name b.
Proof.
  intros H. rewrite !normalize_name_parts. unfold parts_of. by rewrite H.
Qed.

Lemma normalize_name_same_words_witness :
  normalize_name "  DR.  John   WATSON " = normalize_name "dr. john watson".
Proof. apply normalize_name_same_words. vm_compute. reflexivity. Defined.

(** X10: a title at the head of a name ([dr], [mr], [mrs], [ms], [prof]
    or [sir] in any case, with any number of dots after it) is dropped, and
    only this one: what follows is lower-cased and its words are joined by
    single spaces, a second title among them being kept. *)
Theorem normalize_name_drops_one_title (title dots rest : list ascii) :
  lower title ∈ prefixes ->
  Forall (fun c => c = "."%char) dots ->
  normalize_name (str (title ++ dots ++ space ++ rest))
  = str (join space (split (lower rest))).
Proof.
  intros Ht Hd. rewrite normalize_name_parts. unfold parts_of.
  rewrite chars_str, !lower_app.
  destruct (prefixes_words _ Ht) as [[Hne Hw] Hdots].
  assert (lower dots = dots) as ->.
  { clear -Hd. induction Hd as [|c l -> _ IH]; [done|]. simpl. by rewrite IH. }
  assert (word (lower title ++ dots)) as Hword.
  { split; [by destruct (lower title)|]. apply Forall_app. split; [done|].
    eapply Forall_impl; [exact Hd|]. by intros c ->. }
  change (lower space) with space.
  rewrite app_assoc.
  change (space ++ lower rest) with (" "%char :: lower rest).
  rewrite split_app by done. rewrite split_word by done. simpl.
  rewrite rstrip_dots_app by done. by rewrite bool_decide_eq_true_2.
Qed.

Lemma normalize_name_drops_one_title_witness :
  normalize_name (str (chars "Dr" ++ chars ".." ++ space ++ chars "Mr  Watson"))
  = str (join space (split (lower (chars "Mr  Watson")))).
Proof.
  apply normalize_name_drops_one_title.
  - vm_compute. apply list_elem_of_here.
  - repeat constructor.
Defined.

(** X11: the normalized name is the empty string exactly when the name is
    white space only or a title and nothing else. *)
Theorem normalize_name_empty_iff (name : string) :
  normalize_name name = ""%string <->
  blank (chars name)
  \/ exists w, split (lower (chars name)) = [w] /\ rstrip_dots w ∈ prefixes.
Proof.
  rewrite normalize_name_parts. pose proof (parts_of_words name) as Hw.
  unfold parts_of in *. split.
  - intros E. apply (str_inj _ []) in E. apply join_nil_inv in E; [|done].
    destruct (split (lower (chars name))) as [|p rest] eqn:Es.
    + left. by apply blank_lower, split_nil_blank.
    + right. case_bool_decide; [|done]. subst. by exists p.
  - intros [Hb|(w & -> & Ht)].
    + by rewrite split_blank by (by apply blank_lower).
    + by rewrite bool_decide_eq_true_2.
Qed.

(** X12: normalizing again changes nothing unless the normalized name
    itself starts with a title. *)
Theorem normalize_name_idempotent_without_title (name : string) :
  match split (chars (normalize_name name)) with
  | w :: _ => rstrip_dots w ∉ prefixes
  | [] => True
  end ->
  normalize_name (normalize_name name) = normalize_name name.
Proof.
  destruct (normalize_name_normal_form name) as (Hl & Hs & Hj).
  intros H. rewrite (normalize_name_parts (normalize_name name)).
  unfold parts_of. rewrite Hl.
  destruct (split (chars (normalize_name name))) as [|w rest] eqn:Es.
  - apply split_nil_blank in Es.
    assert (chars (normalize_name name) = []) as E
      by (by rewrite <- Hs, strip_blank).
    rewrite <- (string_of_list_ascii_of_string (normalize_name name)).
    change (list_ascii_of_string (normalize_name name))
      with (chars (normalize_name name)). by rewrite E.
  - rewrite bool_decide_eq_false_2 by done. rewrite Hj.
    apply string_of_list_ascii_of_string.
Qed.

Lemma normalize_name_idempotent_without_title_witness :
  normalize_name (normalize_name "Dr. John Watson")
  = normalize_name "Dr. John Watson".
Proof.
  apply normalize_name_idempotent_without_title.
  assert (split (chars (normalize_name "Dr. John Watson"))
          = [chars "john"; chars "watson"]) as E by (vm_compute; reflexivity).
  rewrite E. apply (bool_decide_unpack _). vm_compute. exact I.
Defined.

(** ** The resolution pass: further invariants *)

Module MergeMore.
Import Names MergeProofs RoutingProofs AliasProofs.

Section Fold.
Variable so : list string -> list string.
Variable th : Q.

(** Induction over the loop of [merge_entities]. *)
Lemma merge_entities_ind
    (P : list entity -> list entity * gmap string string -> Prop) :
  P [] ([], ∅) ->
  (forall done st e, P done st -> P (done ++ [e]) (Dedupe.merge_step so th st e)) ->
  forall es, P es (Dedupe.merge_entities so es th).
Proof.
  intros Hnil Hstep es. unfold Dedupe.merge_entities.
  assert (forall done st, P done st ->
            P (done ++ es) (fold_left (Dedupe.merge_step so th) es st)) as H;
    [|apply (H [] _ Hnil)].
  induction es as [|e es IH]; intros done st Hst.
  - by rewrite app_nil_r.
  - replace (done ++ e :: es) with ((done ++ [e]) ++ es)
      by (by rewrite <- app_assoc).
    cbn [fold_left]. apply IH. by apply Hstep.
Qed.

Lemma NoDup_snoc_fresh (done : list entity) e :
  NoDup (map ent_id (done ++ [e])) ->
  NoDup (map ent_id done) /\ ent_id e ∉ map ent_id done.
Proof.
  rewrite map_app. intros (H1 & H2 & _)%NoDup_app. split; [done|].
  intros Hin. apply (H2 _ Hin). simpl. by left.
Qed.

(** With distinct ids a canonical entity is mapped to itself. *)
Lemma canonical_fixed es :
  NoDup (map ent_id es) ->
  forall c, c ∈ (Dedupe.merge_entities so es th).1 ->
    (Dedupe.merge_entities so es th).2 !! ent_id c = Some (ent_id c).
Proof.
  apply (merge_entities_ind
           (fun done st => NoDup (map ent_id done) ->
              merge_inv done st.1 st.2
              /\ forall c, c ∈ st.1 -> st.2 !! ent_id c = Some (ent_id c))).
  - intros _. split; [apply merge_inv_nil|]. intros c Hc.
    by apply elem_of_nil in Hc.
  - intros done [cs m] e IH [Hnd Hfresh]%NoDup_snoc_fresh.
    destruct (IH Hnd) as [Hinv Hfix]. clear IH.
    split; [by apply merge_step_inv|].
    assert (forall c, c ∈ cs -> ent_id c <> ent_id e) as Hcanon.
    { intros c Hc Heq. apply Hfresh. rewrite <- Heq.
      destruct Hinv as [Hids _ _ _]. eapply elem_of_sublist; [|exact Hids].
      to_fmap. by apply list_elem_of_fmap_2. }
    simpl in *. unfold Dedupe.merge_step.
    destruct (find_canon th (normalize_name (ent_name e)) cs)
      as [[k c]|] eqn:Hfind; simpl.
    + apply find_canon_Some in Hfind as (Hk & _ & _).
      intros c' [j Hj]%list_elem_of_lookup.
      destruct (decide (j = k)) as [->|Hne].
      * rewrite list_lookup_insert_eq in Hj by (by eapply lookup_lt_Some).
        injection Hj as <-. simpl.
        assert (c ∈ cs) as Hc by (by eapply list_elem_of_lookup_2).
        rewrite lookup_insert_ne by (by intros Heq; eapply Hcanon).
        by apply Hfix.
      * rewrite list_lookup_insert_ne in Hj by done.
        assert (c' ∈ cs) as Hc by (by eapply list_elem_of_lookup_2).
        rewrite lookup_insert_ne by (by intros Heq; eapply Hcanon).
        by apply Hfix.
    + intros c' [Hc| ->%list_elem_of_singleton]%elem_of_app.
      * rewrite lookup_insert_ne by (by intros Heq; eapply Hcanon).
        by apply Hfix.
      * simpl. by rewrite lookup_insert_eq.
Qed.

(** With a threshold above 1 the similarity never decides. *)
Lemma name_matches_exact n c :
  (1 < th)%Q ->
  name_matches th n c = true <->
  n = normalize_name (ent_name c)
  \/ n ∈ map normalize_name (default [] (ent_aliases c)).
Proof.
  intros Hth. rewrite name_matches_true. split; [|by intuition].
  intros [H|[H|H]]; [by left|by right|].
  apply Qle_bool_iff in H.
  destruct (ratio_chars_range (PyStr.chars n)
              (PyStr.chars (normalize_name (ent_name c)))) as [_ H1].
  exfalso. apply (Qlt_not_le _ _ Hth). exact (Qle_trans _ _ _ H H1).
Qed.

(** With a threshold of 0 or less every canonical entity matches. *)
Lemma name_matches_always n c : (th <= 0)%Q -> name_matches th n c = true.
Proof.
  intros Hth. apply name_matches_true. right; right.
  apply Qle_bool_iff.
  destruct (ratio_chars_range (PyStr.chars n)
              (PyStr.chars (normalize_name (ent_name c)))) as [H0 _].
  exact (Qle_trans _ _ _ Hth H0).
Qed.

End Fold.

End MergeMore.

Import MergeMore.

(** X13: in both resolvers the keys of the resolution map are the ids of
    the batch and no other, every value of the map is the id of a canonical
    entity, the ids of the canonical entities are ids of the batch in the
    order of the batch, and every canonical entity has a list of aliases. *)
Theorem merge_entities_map_total_and_closed
    (set_order : list string -> list string) (sim_threshold : Q)
    (entities : list entity) :
  (let canonical_entities :=
     (Dedupe.merge_entities set_order entities sim_threshold).1 in
   let resolved_map :=
     (Dedupe.merge_entities set_order entities sim_threshold).2 in
   (forall i, is_Some (resolved_map !! i) <-> i ∈ map ent_id entities)
   /\ (forall i v, resolved_map !! i = Some v ->
         v ∈ map ent_id canonical_entities)
   /\ map ent_id canonical_entities `sublist_of` map ent_id entities
   /\ (forall c, c ∈ canonical_entities -> is_Some (ent_aliases c)))
  /\
  (let canonical_entities :=
     (Resolve.merge_entities entities sim_threshold).1 in
   let resolved_map :=
     (Resolve.merge_entities entities sim_threshold).2 in
   (forall i, is_Some (resolved_map !! i) <-> i ∈ map ent_id entities)
   /\ (forall i v, resolved_map !! i = Some v ->
         v ∈ map ent_id canonical_entities)
   /\ map ent_id canonical_entities `sublist_of` map ent_id entities
   /\ (forall c, c ∈ canonical_entities -> is_Some (ent_aliases c))).
Proof.
  split.
  - by destruct (merge_entities_inv set_order sim_threshold entities).
  - by destruct (resolve_merge_entities_inv sim_threshold entities).
Qed.

(** X14: in a batch of distinct ids the resolution map is idempotent: a
    canonical entity is mapped to itself, and so is every value of the
    map. *)
Theorem merge_entities_map_idempotent
    (set_order : list string -> list string) (sim_threshold : Q)
    (entities : list entity) :
  NoDup (map ent_id entities) ->
  (let canonical_entities :=
     (Dedupe.merge_entities set_order entities sim_threshold).1 in
   let resolved_map :=
     (Dedupe.merge_entities set_order entities sim_threshold).2 in
   (forall c, c ∈ canonical_entities ->
      resolved_map !! ent_id c = Some (ent_id c))
   /\ (forall i v, resolved_map !! i = Some v -> resolved_map !! v = Some v))
  /\
  (let canonical_entities :=
     (Resolve.merge_entities entities sim_threshold).1 in
   let resolved_map :=
     (Resolve.merge_entities entities sim_threshold).2 in
   (forall c, c ∈ canonical_entities ->
      resolved_map !! ent_id c = Some (ent_id c))
   /\ (forall i v, resolved_map !! i = Some v -> resolved_map !! v = Some v)).
Proof.
  intros Hnd.
  assert (forall so es, NoDup (map ent_id es) ->
            (forall c, c ∈ (Dedupe.merge_entities so es sim_threshold).1 ->
               (Dedupe.merge_entities so es sim_threshold).2 !! ent_id c
               = Some (ent_id c))
            /\ (forall i v,
                  (Dedupe.merge_entities so es sim_threshold).2 !! i = Some v ->
                  (Dedupe.merge_entities so es sim_threshold).2 !! v = Some v))
    as H.
  { intros so es Hes. pose proof (canonical_fixed so sim_threshold es Hes) as Hfix.
    split; [done|]. intros i v Hv.
    destruct (merge_entities_inv so sim_threshold es) as [_ _ Himg _].
    apply Himg in Hv. to_fmap. apply list_elem_of_fmap in Hv as (c & -> & Hc).
    by apply Hfix. }
  split; [by apply H|].
  rewrite (resolve_as_dedupe id). apply H. by rewrite map_id_core.
Qed.

Lemma merge_entities_map_idempotent_witness :
  (Dedupe.merge_entities remove_dups
     [Entity "1" "Watson" None ∅; Entity "2" "Dr Watson" None ∅;
      Entity "3" "John" None ∅] default_threshold).2 !! "1"%string
  = Some "1"%string.
Proof.
  destruct (merge_entities_map_idempotent remove_dups default_threshold
              [Entity "1" "Watson" None ∅; Entity "2" "Dr Watson" None ∅;
               Entity "3" "John" None ∅]) as [[_ H] _].
  - apply (bool_decide_unpack _). vm_compute. exact I.
  - apply (H "2"%string "1"%string). vm_compute. reflexivity.
Defined.

(** X15: [merge_entities] of resolve_entities.py is [merge_entities] of
    dedupe_entities.py run on the records cut down to their [id] and
    [name]: the two give the same canonical entities and the same map. *)
Theorem resolve_merge_entities_is_dedupe_on_id_and_name
    (set_order : list string -> list string) (sim_threshold : Q)
    (entities : list entity) :
  Resolve.merge_entities entities sim_threshold
  = Dedupe.merge_entities set_order (map core entities) sim_threshold.
Proof. apply resolve_as_dedupe. Qed.

Module MergeNames.
Import Names MergeProofs RoutingProofs AliasProofs MergeMore.

Section Kept.
Variable so : list string -> list string.
Variable th : Q.
Hypothesis so_members : forall l x, x ∈ so l <-> x ∈ l.

(** What a record of the batch finds of itself on a canonical entity. *)
Let kept_on (e c : entity) : Prop :=
  (ent_name e = ent_name c \/ ent_name e ∈ default [] (ent_aliases c))
  /\ forall a, a ∈ default [] (ent_aliases e) -> a ∈ default [] (ent_aliases c).

Lemma kept_on_absorb e c e' : kept_on e c -> kept_on e (Dedupe.absorb so c e').
Proof.
  unfold kept_on. intros [Hn Ha]. split.
  - destruct Hn as [Hn|Hn]; [by left|]. right.
    apply (absorb_aliases so so_members). by left.
  - intros a Hin. apply (absorb_aliases so so_members). left. by apply Ha.
Qed.

Lemma kept_on_absorb_self c e : kept_on e (Dedupe.absorb so c e).
Proof.
  unfold kept_on. split.
  - destruct (decide (ent_name e = ent_name c)) as [Heq|Hne]; [by left|].
    right. apply (absorb_aliases so so_members). right; left. done.
  - intros a Hin. apply (absorb_aliases so so_members). right; right. done.
Qed.

Lemma names_kept es :
  NoDup (map ent_id es) ->
  forall e, e ∈ es ->
    exists c, c ∈ (Dedupe.merge_entities so es th).1
              /\ (Dedupe.merge_entities so es th).2 !! ent_id e = Some (ent_id c)
              /\ kept_on e c.
Proof.
  apply (merge_entities_ind so th
           (fun done st => NoDup (map ent_id done) ->
              forall e, e ∈ done ->
                exists c, c ∈ st.1 /\ st.2 !! ent_id e = Some (ent_id c)
                          /\ kept_on e c)).
  - intros _ e He. by apply elem_of_nil in He.
  - intros done [cs m] e IH [Hnd Hfresh]%NoDup_snoc_fresh. specialize (IH Hnd).
    assert (forall e0, e0 ∈ done -> ent_id e0 <> ent_id e) as Hother.
    { intros e0 He0 Heq. apply Hfresh. rewrite <- Heq. to_fmap.
      by apply list_elem_of_fmap_2. }
    simpl in *. unfold Dedupe.merge_step.
    destruct (find_canon th (normalize_name (ent_name e)) cs)
      as [[k c]|] eqn:Hfind; simpl.
    + apply find_canon_Some in Hfind as (Hk & _ & _).
      intros e0 [He0| ->%list_elem_of_singleton]%elem_of_app.
      * destruct (IH e0 He0) as (c0 & [j Hj]%list_elem_of_lookup & Hm & Hkept).
        rewrite lookup_insert_ne by (by intros Heq; eapply Hother).
        destruct (decide (j = k)) as [->|Hne].
        -- assert (c0 = c) as -> by congruence.
           exists (Dedupe.absorb so c e). split; [|split; [done|]].
           ++ eapply list_elem_of_lookup_2. apply list_lookup_insert_eq.
              by eapply lookup_lt_Some.
           ++ by apply kept_on_absorb.
        -- exists c0. split; [|done]. eapply list_elem_of_lookup_2.
           by rewrite list_lookup_insert_ne.
      * exists (Dedupe.absorb so c e). split; [|split].
        -- eapply list_elem_of_lookup_2. apply list_lookup_insert_eq.
           by eapply lookup_lt_Some.
        -- by rewrite lookup_insert_eq.
        -- apply kept_on_absorb_self.
    + intros e0 [He0| ->%list_elem_of_singleton]%elem_of_app.
      * destruct (IH e0 He0) as (c0 & Hc0 & Hm & Hkept).
        rewrite lookup_insert_ne by (by intros Heq; eapply Hother).
        exists c0. split; [|done]. apply elem_of_app. by left.
      * exists (Dedupe.new_canonical e). split; [|split].
        -- apply elem_of_app. right. by apply list_elem_of_singleton.
        -- by rewrite lookup_insert_eq.
        -- unfold kept_on. simpl. split; [by left|done].
Qed.

End Kept.

Section Exact.
Variable so : list string -> list string.
Variable th : Q.
Hypothesis th_above : (1 < th)%Q.

(** The state of the loop when only equal normalized names match. *)
Let exact_inv (done cs : list entity) (m : gmap string string) : Prop :=
  merge_inv done cs m
  /\ (forall c a, c ∈ cs -> a ∈ default [] (ent_aliases c) ->
        normalize_name a = normalize_name (ent_name c))
  /\ (forall j k cj ck, cs !! j = Some cj -> cs !! k = Some ck ->
        normalize_name (ent_name cj) = normalize_name (ent_name ck) -> j = k)
  /\ (forall e, e ∈ done ->
        exists k c, cs !! k = Some c /\ m !! ent_id e = Some (ent_id c)
                    /\ normalize_name (ent_name e) = normalize_name (ent_name c)).

Lemma exact_step done st e :
  NoDup (map ent_id (done ++ [e])) -> ent_aliases e = None ->
  exact_inv done st.1 st.2 ->
  exact_inv (done ++ [e]) (Dedupe.merge_step so th st e).1
                          (Dedupe.merge_step so th st e).2.
Proof.
  destruct st as [cs m]. intros [Hnd Hfresh]%NoDup_snoc_fresh He.
  intros (Hinv & Hal & Hdist & Hmap). simpl in *.
  pose proof (merge_step_inv so th done (cs, m) e Hinv) as Hinv'.
  assert (forall e0, e0 ∈ done -> ent_id e0 <> ent_id e) as Hother.
  { intros e0 He0 Heq. apply Hfresh. rewrite <- Heq. to_fmap.
    by apply list_elem_of_fmap_2. }
  revert Hinv'. unfold Dedupe.merge_step.
  destruct (find_canon th (normalize_name (ent_name e)) cs)
    as [[k c]|] eqn:Hfind; simpl; intros Hinv'.
  - apply find_canon_Some in Hfind as (Hk & Hmatch & _).
    assert (c ∈ cs) as Hc by (by eapply list_elem_of_lookup_2).
    assert (normalize_name (ent_name e) = normalize_name (ent_name c)) as Hn.
    { apply (name_matches_exact th _ _ th_above) in Hmatch as [H|H]; [done|].
      to_fmap. apply list_elem_of_fmap in H as (a & -> & Ha). by apply Hal. }
    assert (forall j y, <[k := Dedupe.absorb so c e]> cs !! j = Some y ->
              exists y0, cs !! j = Some y0 /\ ent_id y = ent_id y0
                         /\ ent_name y = ent_name y0
                         /\ (forall a, a ∈ default [] (ent_aliases y) ->
                               a ∈ default [] (ent_aliases y0) \/ a = ent_name e
                                                                  /\ y0 = c))
      as Hview.
    { intros j y Hj. destruct (decide (j = k)) as [->|Hne].
      - rewrite list_lookup_insert_eq in Hj by (by eapply lookup_lt_Some).
        injection Hj as <-. exists c. split; [done|]. split; [done|].
        split; [done|]. intros a. rewrite absorb_aliases_plain by done. simpl.
        case_decide; [|by left].
        intros [?| ->%list_elem_of_singleton]%elem_of_app; [by left|by right].
      - rewrite list_lookup_insert_ne in Hj by done. exists y.
        split; [done|]. split; [done|]. split; [done|]. by left. }
    split; [done|]. split; [|split].
    + intros c' a [j Hj]%list_elem_of_lookup Ha.
      destruct (Hview j c' Hj) as (y0 & Hy0 & _ & Hname & Hals).
      rewrite Hname. destruct (Hals a Ha) as [Ha0|[-> ->]]; [|done].
      apply Hal; [|done]. by eapply list_elem_of_lookup_2.
    + intros j1 j2 c1 c2 H1 H2.
      destruct (Hview j1 c1 H1) as (y1 & Hy1 & _ & -> & _).
      destruct (Hview j2 c2 H2) as (y2 & Hy2 & _ & -> & _).
      by eapply Hdist.
    + assert (exists c', <[k := Dedupe.absorb so c e]> cs !! k = Some c'
                         /\ ent_id c' = ent_id c /\ ent_name c' = ent_name c)
        as (c' & Hk' & Hid' & Hname').
      { exists (Dedupe.absorb so c e). split; [|done].
        apply list_lookup_insert_eq. by eapply lookup_lt_Some. }
      intros e0 [He0| ->%list_elem_of_singleton]%elem_of_app.
      * destruct (Hmap e0 He0) as (k0 & c0 & Hk0 & Hm0 & Hn0).
        rewrite lookup_insert_ne by (by intros Heq; eapply Hother).
        destruct (decide (k0 = k)) as [->|Hne].
        -- assert (c0 = c) as -> by congruence.
           exists k, c'. rewrite Hid', Hname'. done.
        -- exists k0, c0. by rewrite list_lookup_insert_ne.
      * exists k, c'. rewrite lookup_insert_eq, Hid', Hname'. done.
  - pose proof (proj1 (find_canon_None th _ _) Hfind) as Hnone.
    split; [done|]. split; [|split].
    + intros c a [Hc| ->%list_elem_of_singleton]%elem_of_app Ha;
        [by apply Hal|]. simpl in Ha. rewrite He in Ha.
      by apply elem_of_nil in Ha.
    + assert (forall j cj, cs !! j = Some cj ->
                normalize_name (ent_name cj) <> normalize_name (ent_name e))
        as Hnew.
      { intros j cj Hj Heq.
        assert (name_matches th (normalize_name (ent_name e)) cj = false) as Hf
          by (apply Hnone; by eapply list_elem_of_lookup_2).
        apply not_true_iff_false in Hf. apply Hf.
        apply name_matches_true. by left. }
      intros j k cj ck Hj Hk Heq.
      apply lookup_app_Some in Hj as [Hj|[Hjl Hj]];
        apply lookup_app_Some in Hk as [Hk|[Hkl Hk]].
      * by eapply Hdist.
      * apply list_lookup_singleton_Some in Hk as [_ <-].
        by destruct (Hnew j cj Hj).
      * apply list_lookup_singleton_Some in Hj as [_ <-].
        symmetry in Heq. by destruct (Hnew k ck Hk).
      * apply list_lookup_singleton_Some in Hj as [Hj0 _].
        apply list_lookup_singleton_Some in Hk as [Hk0 _]. lia.
    + intros e0 [He0| ->%list_elem_of_singleton]%elem_of_app.
      * destruct (Hmap e0 He0) as (k0 & c0 & Hk0 & Hm0 & Hn0).
        rewrite lookup_insert_ne by (by intros Heq; eapply Hother).
        exists k0, c0. split; [|done]. by apply lookup_app_l_Some.
      * exists (length cs), (Dedupe.new_canonical e).
        rewrite lookup_insert_eq. split; [|done].
        by rewrite lookup_app_r, Nat.sub_diag.
Qed.

Lemma exact_merge es :
  NoDup (map ent_id es) -> Forall (fun e => ent_aliases e = None) es ->
  exact_inv es (Dedupe.merge_entities so es th).1
               (Dedupe.merge_entities so es th).2.
Proof.
  apply (merge_entities_ind so th
           (fun done st => NoDup (map ent_id done) ->
              Forall (fun e => ent_aliases e = None) done ->
              exact_inv done st.1 st.2)).
  - intros _ _. split; [apply merge_inv_nil|]. split; [|split].
    + intros c a Hc. simpl in Hc. by apply elem_of_nil in Hc.
    + intros j k cj ck Hj. simpl in Hj. by rewrite lookup_nil in Hj.
    + intros e He. by apply elem_of_nil in He.
  - intros done st e IH Hnd [Hdone [He _]%Forall_cons]%Forall_app.
    apply exact_step; [done|done|]. apply IH; [|done].
    by apply NoDup_snoc_fresh in Hnd as [? _].
Qed.

Lemma exact_same_canonical es e1 e2 :
  NoDup (map ent_id es) -> Forall (fun e => ent_aliases e = None) es ->
  e1 ∈ es -> e2 ∈ es ->
  (Dedupe.merge_entities so es th).2 !! ent_id e1
  = (Dedupe.merge_entities so es th).2 !! ent_id e2
  <-> normalize_name (ent_name e1) = normalize_name (ent_name e2).
Proof.
  intros Hnd Hplain H1 H2.
  destruct (exact_merge es Hnd Hplain) as (Hinv & _ & Hdist & Hmap).
  pose proof (canonical_ids_nodup _ _ _ Hinv Hnd) as Hcn.
  destruct (Hmap e1 H1) as (k1 & c1 & Hk1 & Hm1 & Hn1).
  destruct (Hmap e2 H2) as (k2 & c2 & Hk2 & Hm2 & Hn2).
  rewrite Hm1, Hm2, Hn1, Hn2. split.
  - intros [= Hid]. to_fmap.
    assert (k1 = k2) as ->; [|congruence].
    eapply NoDup_lookup; [exact Hcn| |].
    + by rewrite list_lookup_fmap, Hk1.
    + by rewrite list_lookup_fmap, Hk2, Hid.
  - intros Heq. assert (k1 = k2) as -> by (by eapply Hdist). congruence.
Qed.

End Exact.

Section Zero.
Variable so : list string -> list string.
Variable th : Q.
Hypothesis th_zero : (th <= 0)%Q.

Lemma zero_fold rest c m :
  exists c' m',
    fold_left (Dedupe.merge_step so th) rest ([c], m) = ([c'], m')
    /\ ent_id c' = ent_id c /\ ent_name c' = ent_name c
    /\ (forall e, e ∈ rest -> m' !! ent_id e = Some (ent_id c))
    /\ (forall i, m !! i = Some (ent_id c) -> m' !! i = Some (ent_id c)).
Proof.
  revert c m. induction rest as [|e rest IH]; intros c m.
  - exists c, m. split; [done|]. split; [done|]. split; [done|]. split; [|done].
    intros e He. by apply elem_of_nil in He.
  - cbn [fold_left]. unfold Dedupe.merge_step at 2.
    rewrite (find_canon_intro th _ [c] 0 c); [|done| |].
    + simpl. destruct (IH (Dedupe.absorb so c e) (<[ent_id e := ent_id c]> m))
        as (c' & m' & E & Hid & Hname & Hrest & Hkeep).
      exists c', m'. split; [done|]. split; [done|]. split; [done|]. split.
      * intros e0 [->|He0]%elem_of_cons; [|by apply Hrest].
        apply Hkeep. by rewrite lookup_insert_eq.
      * intros i Hi. apply Hkeep. simpl. rewrite lookup_insert. by case_decide.
    + by apply name_matches_always.
    + intros j y _ Hj. lia.
Qed.

Lemma zero_merge e0 rest :
  exists c,
    (Dedupe.merge_entities so (e0 :: rest) th).1 = [c]
    /\ ent_id c = ent_id e0 /\ ent_name c = ent_name e0
    /\ forall e, e ∈ e0 :: rest ->
         (Dedupe.merge_entities so (e0 :: rest) th).2 !! ent_id e
         = Some (ent_id e0).
Proof.
  unfold Dedupe.merge_entities. cbn [fold_left].
  unfold Dedupe.merge_step at 2. simpl.
  destruct (zero_fold rest (Dedupe.new_canonical e0) (<[ent_id e0 := ent_id e0]> ∅))
    as (c' & m' & E & Hid & Hname & Hrest & Hkeep).
  rewrite E. exists c'. split; [done|]. split; [done|]. split; [done|].
  intros e [->|He]%elem_of_cons; [|by apply Hrest].
  apply Hkeep. simpl. by rewrite lookup_insert_eq.
Qed.

End Zero.

End MergeNames.

Import MergeNames.

(** X16: in a batch of distinct ids no name is lost: every record of the
    batch is mapped to a canonical entity that has the name of the record
    as its own name or among its aliases; in dedupe_entities.py the aliases
    the record came with are among the aliases of that entity too (the list
    built from a set of aliases holding the members of the set). *)
Theorem merge_entities_keeps_every_name
    (set_order : list string -> list string) (sim_threshold : Q)
    (entities : list entity) (e : entity) :
  NoDup (map ent_id entities) -> e ∈ entities ->
  ((forall l x, x ∈ set_order l <-> x ∈ l) ->
   exists c,
     c ∈ (Dedupe.merge_entities set_order entities sim_threshold).1
     /\ (Dedupe.merge_entities set_order entities sim_threshold).2 !! ent_id e
        = Some (ent_id c)
     /\ (ent_name e = ent_name c \/ ent_name e ∈ default [] (ent_aliases c))
     /\ forall a, a ∈ default [] (ent_aliases e) ->
          a ∈ default [] (ent_aliases c))
  /\
  (exists c,
     c ∈ (Resolve.merge_entities entities sim_threshold).1
     /\ (Resolve.merge_entities entities sim_threshold).2 !! ent_id e
        = Some (ent_id c)
     /\ (ent_name e = ent_name c \/ ent_name e ∈ default [] (ent_aliases c))).
Proof.
  intros Hnd He. split.
  - intros Hso.
    destruct (names_kept set_order sim_threshold Hso entities Hnd e He)
      as (c & Hc & Hm & Hn & Ha).
    by exists c.
  - rewrite (resolve_as_dedupe id).
    destruct (names_kept id sim_threshold (fun l x => reflexivity _)
                (map core entities)) with (e := core e)
      as (c & Hc & Hm & Hn & _).
    + by rewrite map_id_core.
    + to_fmap. by apply list_elem_of_fmap_2.
    + by exists c.
Qed.

Lemma merge_entities_keeps_every_name_witness :
  exists c,
    c ∈ (Resolve.merge_entities
           [Entity "1" "Watson" None ∅; Entity "2" "Dr Watson" None ∅;
            Entity "3" "John" None ∅] default_threshold).1
    /\ ("Dr Watson"%string = ent_name c
        \/ "Dr Watson"%string ∈ default [] (ent_aliases c)).
Proof.
  destruct (merge_entities_keeps_every_name remove_dups default_threshold
              [Entity "1" "Watson" None ∅; Entity "2" "Dr Watson" None ∅;
               Entity "3" "John" None ∅] (Entity "2" "Dr Watson" None ∅))
    as [_ (c & H1 & _ & H2)].
  - apply (bool_decide_unpack _). vm_compute. exact I.
  - apply list_elem_of_further, list_elem_of_here.
  - exists c. split; [exact H1|exact H2].
Defined.

(** X17: with a threshold above 1 the similarity never decides, and the
    resolvers merge by equal normalized names only: in a batch of distinct
    ids two records are mapped to the same canonical entity exactly when
    their normalized names are the same (in dedupe_entities.py provided no
    record comes with aliases of its own). *)
Theorem merge_entities_exact_above_one
    (set_order : list string -> list string) (sim_threshold : Q)
    (entities : list entity) (e1 e2 : entity) :
  (1 < sim_threshold)%Q ->
  NoDup (map ent_id entities) -> e1 ∈ entities -> e2 ∈ entities ->
  (Forall (fun e => ent_aliases e = None) entities ->
   (Dedupe.merge_entities set_order entities sim_threshold).2 !! ent_id e1
   = (Dedupe.merge_entities set_order entities sim_threshold).2 !! ent_id e2
   <-> normalize_name (ent_name e1) = normalize_name (ent_name e2))
  /\
  ((Resolve.merge_entities entities sim_threshold).2 !! ent_id e1
   = (Resolve.merge_entities entities sim_threshold).2 !! ent_id e2
   <-> normalize_name (ent_name e1) = normalize_name (ent_name e2)).
Proof.
  intros Hth Hnd H1 H2. split.
  - intros Hplain. by apply exact_same_canonical.
  - rewrite (resolve_as_dedupe id).
    apply (exact_same_canonical id sim_threshold Hth (map core entities)
             (core e1) (core e2)).
    + by rewrite map_id_core.
    + apply Forall_forall. intros e He. to_fmap.
      by apply list_elem_of_fmap in He as (e0 & -> & _).
    + to_fmap. by apply list_elem_of_fmap_2.
    + to_fmap. by apply list_elem_of_fmap_2.
Qed.

Lemma merge_entities_exact_above_one_witness :
  (Resolve.merge_entities
     [Entity "1" "Watson" None ∅; Entity "2" "Watsen" None ∅] (11 # 10)).2
    !! "1"%string
  = (Resolve.merge_entities
       [Entity "1" "Watson" None ∅; Entity "2" "Watsen" None ∅] (11 # 10)).2
      !! "2"%string
  <-> normalize_name "Watson" = normalize_name "Watsen".
Proof.
  destruct (merge_entities_exact_above_one remove_dups (11 # 10)
              [Entity "1" "Watson" None ∅; Entity "2" "Watsen" None ∅]
              (Entity "1" "Watson" None ∅) (Entity "2" "Watsen" None ∅))
    as [_ H].
  - reflexivity.
  - apply (bool_decide_unpack _). vm_compute. exact I.
  - apply list_elem_of_here.
  - apply list_elem_of_further, list_elem_of_here.
  - exact H.
Defined.

(** X18: with a threshold of 0 or less every record matches the first
    canonical entity: the whole batch is merged into one canonical entity,
    which has the id and the name of the first record, and every id of the
    batch is mapped to the id of the first record. *)
Theorem merge_entities_threshold_zero_merges_all
    (set_order : list string -> list string) (sim_threshold : Q)
    (first : entity) (rest : list entity) :
  (sim_threshold <= 0)%Q ->
  (exists c,
     (Dedupe.merge_entities set_order (first :: rest) sim_threshold).1 = [c]
     /\ ent_id c = ent_id first /\ ent_name c = ent_name first
     /\ forall e, e ∈ first :: rest ->
          (Dedupe.merge_entities set_order (first :: rest) sim_threshold).2
            !! ent_id e = Some (ent_id first))
  /\
  (exists c,
     (Resolve.merge_entities (first :: rest) sim_threshold).1 = [c]
     /\ ent_id c = ent_id first /\ ent_name c = ent_name first
     /\ forall e, e ∈ first :: rest ->
          (Resolve.merge_entities (first :: rest) sim_threshold).2
            !! ent_id e = Some (ent_id first)).
Proof.
  intros Hth. split; [by apply zero_merge|].
  rewrite (resolve_as_dedupe id). simpl.
  destruct (zero_merge id sim_threshold Hth (core first) (map core rest))
    as (c & E & Hid & Hname & Hm).
  exists c. split; [done|]. split; [done|]. split; [done|].
  intros e He. apply (Hm (core e)).
  change (core first :: map core rest) with (map core (first :: rest)).
  to_fmap. by apply list_elem_of_fmap_2.
Qed.

Lemma merge_entities_threshold_zero_merges_all_witness :
  exists c,
    (Resolve.merge_entities
       [Entity "1" "Watson" None ∅; Entity "2" "Holmes" None ∅] 0).1 = [c]
    /\ ent_id c = "1"%string /\ ent_name c = "Watson"%string.
Proof.
  destruct (merge_entities_threshold_zero_merges_all remove_dups 0
              (Entity "1" "Watson" None ∅) [Entity "2" "Holmes" None ∅])
    as [_ (c & H1 & H2 & H3 & _)].
  - discriminate.
  - exists c. split; [exact H1|]. split; [exact H2|exact H3].
Defined.

(** ** Remapping and the final pass: further properties *)

Module RemapMore.
Import Names RemapProofs MergeProofs.

Section DedupLoopMore.
Variable key : relationship -> triple.
Variable mk : relationship -> relationship.
Variable step : list relationship * gset triple -> relationship ->
                list relationship * gset triple.
Hypothesis step_eq : forall out seen rel,
  step (out, seen) rel
  = if bool_decide (key rel ∉ seen)
    then (out ++ [mk rel], seen ∪ {[key rel]}) else (out, seen).

(** A list of records of distinct keys that [mk] leaves alone goes through
    the loop as it is. *)
Lemma loop_fixed l out seen :
  NoDup (map key l) -> (forall o, o ∈ l -> mk o = o) ->
  (forall o, o ∈ l -> key o ∉ seen) ->
  (fold_left step l (out, seen)).1 = out ++ l.
Proof.
  revert out seen. induction l as [|o l IH]; intros out seen Hnd Hmk Hseen.
  - simpl. by rewrite app_nil_r.
  - cbn [fold_left]. rewrite step_eq.
    rewrite bool_decide_eq_true_2 by (apply Hseen; by left).
    simpl in Hnd. apply NoDup_cons in Hnd as [Hnotin Hnd].
    rewrite IH; [| done | |].
    + rewrite Hmk by (by left). by rewrite <- app_assoc.
    + intros o' Ho'. apply Hmk. by right.
    + intros o' Ho'. rewrite elem_of_union, elem_of_singleton.
      intros [Hin|Heq].
      * apply (Hseen o'); [by right|done].
      * apply Hnotin. rewrite <- Heq. apply list_elem_of_In, in_map.
        by apply list_elem_of_In.
Qed.

(** The loop looks at a record through [key] and [mk] only. *)
Lemma loop_ext key' mk' step' l st :
  (forall out seen rel,
     step' (out, seen) rel
     = if bool_decide (key' rel ∉ seen)
       then (out ++ [mk' rel], seen ∪ {[key' rel]}) else (out, seen)) ->
  (forall rel, rel ∈ l -> key' rel = key rel /\ mk' rel = mk rel) ->
  fold_left step' l st = fold_left step l st.
Proof.
  intros step_eq' Hsame. revert st.
  induction l as [|rel l IH]; intros [out seen]; [done|].
  cbn [fold_left]. rewrite step_eq, step_eq'.
  destruct (Hsame rel) as [-> ->]; [by left|].
  apply IH. intros r Hr. apply Hsame. by right.
Qed.

End DedupLoopMore.

Lemma utils_remap_loop_mapped m rels out seen :
  (forall rel, rel ∈ rels ->
     is_Some (m !! rel_source rel) /\ is_Some (m !! rel_target rel)) ->
  UtilsKg.remap_loop m rels out seen
  = inr (fold_left (Resolve.remap_step m) rels (out, seen)).1.
Proof.
  revert out seen. induction rels as [|rel rels IH]; intros out seen Hall; [done|].
  destruct (Hall rel) as [[src Hs] [tgt Ht]]; [by left|].
  cbn [fold_left UtilsKg.remap_loop]. rewrite Hs, Ht.
  unfold Resolve.remap_step, Resolve.new_rel, Resolve.rel_key.
  rewrite Hs, Ht. simpl.
  case_bool_decide; apply IH; intros r Hr; apply Hall; by right.
Qed.

(** With an idempotent map a record that has been remapped is remapped to
    itself. *)
Lemma dedupe_new_rel_fixed m rel :
  (forall i v, m !! i = Some v -> m !! v = Some v) ->
  Dedupe.rel_key m (Dedupe.new_rel m rel) = key_of (Dedupe.new_rel m rel)
  /\ Dedupe.new_rel m (Dedupe.new_rel m rel) = Dedupe.new_rel m rel.
Proof.
  intros Hm. unfold Dedupe.new_rel, Dedupe.rel_key, key_of. simpl.
  assert (forall i, default (default i (m !! i)) (m !! default i (m !! i))
                    = default i (m !! i)) as H.
  { intros i. destruct (m !! i) as [v|] eqn:E; simpl.
    - by rewrite (Hm i v E).
    - by rewrite E. }
  by rewrite !H.
Qed.

Lemma resolve_new_rel_fixed m rel :
  (forall i v, m !! i = Some v -> m !! v = Some v) ->
  Resolve.rel_key m (Resolve.new_rel m rel) = key_of (Resolve.new_rel m rel)
  /\ Resolve.new_rel m (Resolve.new_rel m rel) = Resolve.new_rel m rel.
Proof.
  intros Hm. unfold Resolve.new_rel, Resolve.rel_key, key_of. simpl.
  assert (forall i, default (default i (m !! i)) (m !! default i (m !! i))
                    = default i (m !! i)) as H.
  { intros i. destruct (m !! i) as [v|] eqn:E; simpl.
    - by rewrite (Hm i v E).
    - by rewrite E. }
  by rewrite !H.
Qed.

Lemma resolve_canonical_fixed th es :
  NoDup (map ent_id es) ->
  forall i, i ∈ map ent_id (Resolve.merge_entities es th).1 ->
    (Resolve.merge_entities es th).2 !! i = Some i.
Proof.
  intros Hnd i Hi. rewrite (resolve_as_dedupe id) in *. to_fmap.
  apply list_elem_of_fmap in Hi as (c & -> & Hc).
  apply MergeMore.canonical_fixed; [|done]. by rewrite map_id_core.
Qed.

End RemapMore.

Import RemapMore.

(** X19: when both ends of every relationship are keys of the map,
    [remap_relationships] of utils_kg.py raises nothing and returns what
    [remap_relationships] of resolve_entities.py returns. *)
Theorem utils_kg_remap_relationships_when_mapped
    (global_relationships : list relationship)
    (resolved_map : gmap string string) :
  (forall rel, rel ∈ global_relationships ->
     is_Some (resolved_map !! rel_source rel)
     /\ is_Some (resolved_map !! rel_target rel)) ->
  UtilsKg.remap_relationships global_relationships resolved_map
  = inr (Resolve.remap_relationships global_relationships resolved_map).
Proof. apply utils_remap_loop_mapped. Qed.

Lemma utils_kg_remap_relationships_when_mapped_witness :
  UtilsKg.remap_relationships
    [Rel "2" "knows" "3" None ∅; Rel "1" "knows" "3" (Some "seen") ∅]
    {["1" := "1"; "2" := "1"; "3" := "3"]}%string
  = inr (Resolve.remap_relationships
           [Rel "2" "knows" "3" None ∅; Rel "1" "knows" "3" (Some "seen") ∅]
           {["1" := "1"; "2" := "1"; "3" := "3"]}%string).
Proof.
  apply utils_kg_remap_relationships_when_mapped.
  intros rel Hrel.
  apply elem_of_cons in Hrel as [->|Hrel];
    [split; eexists; vm_compute; reflexivity|].
  apply elem_of_cons in Hrel as [->|Hrel];
    [split; eexists; vm_compute; reflexivity|].
  apply elem_of_nil in Hrel. destruct Hrel.
Defined.

(** X20: with an idempotent map (every value of the map is mapped to
    itself, as the map of a resolution pass over distinct ids is) remapping
    is idempotent in dedupe_entities.py and in resolve_entities.py:
    remapping the result once more gives the result back. *)
Theorem remap_relationships_idempotent
    (relationships : list relationship) (resolved_map : gmap string string) :
  (forall i v, resolved_map !! i = Some v -> resolved_map !! v = Some v) ->
  Dedupe.remap_relationships
    (Dedupe.remap_relationships relationships resolved_map) resolved_map
  = Dedupe.remap_relationships relationships resolved_map
  /\ Resolve.remap_relationships
       (Resolve.remap_relationships relationships resolved_map) resolved_map
     = Resolve.remap_relationships relationships resolved_map.
Proof.
  intros Hm. split.
  - destruct (dedupe_remap_result relationships resolved_map)
      as (Hnd & _ & Hfrom & _).
    set (out := Dedupe.remap_relationships relationships resolved_map) in *.
    assert (forall o, o ∈ out ->
              Dedupe.rel_key resolved_map o = key_of o
              /\ Dedupe.new_rel resolved_map o = o) as Hfix.
    { intros o Ho. destruct (Hfrom o Ho) as (l1 & rel & l2 & _ & -> & _).
      by apply dedupe_new_rel_fixed. }
    unfold Dedupe.remap_relationships at 1.
    rewrite (loop_fixed (Dedupe.rel_key resolved_map)
               (Dedupe.new_rel resolved_map) (Dedupe.remap_step resolved_map)
               (dedupe_step_eq resolved_map)); [done| | |].
    + rewrite (map_ext_in _ key_of); [done|].
      intros o Ho. apply Hfix. by apply list_elem_of_In.
    + intros o Ho. by apply Hfix.
    + intros o _. apply not_elem_of_empty.
  - destruct (resolve_remap_result relationships resolved_map)
      as (Hnd & _ & Hfrom & _).
    set (out := Resolve.remap_relationships relationships resolved_map) in *.
    assert (forall o, o ∈ out ->
              Resolve.rel_key resolved_map o = key_of o
              /\ Resolve.new_rel resolved_map o = o) as Hfix.
    { intros o Ho. destruct (Hfrom o Ho) as (l1 & rel & l2 & _ & -> & _).
      by apply resolve_new_rel_fixed. }
    unfold Resolve.remap_relationships at 1.
    rewrite (loop_fixed (Resolve.rel_key resolved_map)
               (Resolve.new_rel resolved_map) (Resolve.remap_step resolved_map)
               (resolve_step_eq resolved_map)); [done| | |].
    + rewrite (map_ext_in _ key_of); [done|].
      intros o Ho. apply Hfix. by apply list_elem_of_In.
    + intros o Ho. by apply Hfix.
    + intros o _. apply not_elem_of_empty.
Qed.

Lemma remap_relationships_idempotent_witness :
  Resolve.remap_relationships
    (Resolve.remap_relationships
       [Rel "2" "knows" "3" None ∅; Rel "1" "knows" "3" (Some "seen") ∅]
       {["1" := "1"; "2" := "1"; "3" := "3"]}%string)
    {["1" := "1"; "2" := "1"; "3" := "3"]}%string
  = Resolve.remap_relationships
      [Rel "2" "knows" "3" None ∅; Rel "1" "knows" "3" (Some "seen") ∅]
      {["1" := "1"; "2" := "1"; "3" := "3"]}%string.
Proof.
  apply remap_relationships_idempotent.
  intros i v Hv.
  destruct (decide (i = "1"%string)) as [->|H1];
    [vm_compute in Hv; injection Hv as <-; vm_compute; reflexivity|].
  destruct (decide (i = "2"%string)) as [->|H2];
    [vm_compute in Hv; injection Hv as <-; vm_compute; reflexivity|].
  destruct (decide (i = "3"%string)) as [->|H3];
    [vm_compute in Hv; injection Hv as <-; vm_compute; reflexivity|].
  rewrite !lookup_insert_ne, lookup_singleton_ne in Hv by congruence.
  discriminate Hv.
Defined.

(** X21: the final pass leaves no edge hanging: in both files each end of
    a relationship it returns is the id of a canonical entity it
    returns. *)
Theorem finalize_relationships_join_canonical_entities
    (set_order : list string -> list string)
    (entities : list entity) (relationships : list relationship) :
  (forall o,
     o ∈ (Dedupe.finalize_entities_and_relationships set_order entities
            relationships).2 ->
     let ids := map ent_id (Dedupe.finalize_entities_and_relationships
                              set_order entities relationships).1 in
     rel_source o ∈ ids /\ rel_target o ∈ ids)
  /\
  (forall o,
     o ∈ (Resolve.finalize_entities_and_relationships entities
            relationships).2 ->
     let ids := map ent_id (Resolve.finalize_entities_and_relationships
                              entities relationships).1 in
     rel_source o ∈ ids /\ rel_target o ∈ ids).
Proof.
  split.
  - unfold Dedupe.finalize_entities_and_relationships.
    destruct (Dedupe.merge_entities set_order entities default_threshold)
      as [cs m]. simpl.
    intros o Ho.
    destruct (dedupe_remap_result
                (filter (fun rel => Dedupe.keep_rel m
                                      (list_to_set (map ent_id cs)) rel)
                   relationships) m) as (_ & _ & Hfrom & _).
    destruct (Hfrom o Ho) as (l1 & rel & l2 & E & -> & _).
    assert (rel ∈ filter (fun rel => Dedupe.keep_rel m
                                       (list_to_set (map ent_id cs)) rel)
                    relationships) as Hrel.
    { rewrite E. apply elem_of_app. right. by left. }
    apply list_elem_of_filter in Hrel as [Hk _].
    unfold Dedupe.keep_rel in Hk.
    unfold Dedupe.new_rel, Dedupe.rel_key. simpl.
    destruct (m !! rel_source rel) as [s|]; [|done].
    destruct (m !! rel_target rel) as [t|]; [|done].
    apply andb_prop_elim in Hk as [Hs Ht].
    apply bool_decide_unpack, elem_of_list_to_set in Hs.
    apply bool_decide_unpack, elem_of_list_to_set in Ht. done.
  - unfold Resolve.finalize_entities_and_relationships.
    pose proof (resolve_merge_entities_inv default_threshold entities) as Hinv.
    destruct (Resolve.merge_entities entities default_threshold) as [cs m].
    simpl in *. destruct Hinv as [Hids Hdom Himg _].
    intros o Ho.
    destruct (resolve_remap_result
                (filter (fun rel => Resolve.keep_rel
                                      (list_to_set (map ent_id cs)) rel)
                   relationships) m) as (_ & _ & Hfrom & _).
    destruct (Hfrom o Ho) as (l1 & rel & l2 & E & -> & _).
    assert (rel ∈ filter (fun rel => Resolve.keep_rel
                                       (list_to_set (map ent_id cs)) rel)
                    relationships) as Hrel.
    { rewrite E. apply elem_of_app. right. by left. }
    apply list_elem_of_filter in Hrel as [Hk _].
    unfold Resolve.keep_rel in Hk.
    apply andb_prop_elim in Hk as [Hs Ht].
    apply bool_decide_unpack, elem_of_list_to_set in Hs.
    apply bool_decide_unpack, elem_of_list_to_set in Ht.
    assert (forall i, i ∈ map ent_id cs ->
              default i (m !! i) ∈ map ent_id cs) as Hkey.
    { intros i Hi. destruct (proj2 (Hdom i)) as [v Hv].
      - by eapply elem_of_sublist.
      - rewrite Hv. simpl. by eapply Himg. }
    unfold Resolve.new_rel, Resolve.rel_key. simpl. split; by apply Hkey.
Qed.

(** X22: the final pass of dedupe_entities.py loses no relationship
    between records of the batch: when both ends of a relationship are ids
    of the batch, its remapped triple is the triple of a relationship that
    is returned. *)
Theorem dedupe_finalize_keeps_known_relationships
    (set_order : list string -> list string)
    (entities : list entity) (relationships : list relationship)
    (rel : relationship) :
  rel ∈ relationships ->
  rel_source rel ∈ map ent_id entities ->
  rel_target rel ∈ map ent_id entities ->
  Dedupe.rel_key
    (Dedupe.merge_entities set_order entities default_threshold).2 rel
  ∈ map key_of (Dedupe.finalize_entities_and_relationships set_order entities
                  relationships).2.
Proof.
  intros Hrel Hs Ht.
  unfold Dedupe.finalize_entities_and_relationships.
  pose proof (merge_entities_inv set_order default_threshold entities) as Hinv.
  destruct (Dedupe.merge_entities set_order entities default_threshold)
    as [cs m]. simpl in *. destruct Hinv as [_ Hdom Himg _].
  destruct (dedupe_remap_result
              (filter (fun rel => Dedupe.keep_rel m
                                    (list_to_set (map ent_id cs)) rel)
                 relationships) m) as (_ & Hall & _).
  apply Hall. apply list_elem_of_filter. split; [|done].
  unfold Dedupe.keep_rel.
  destruct (proj2 (Hdom _) Hs) as [s Hs'].
  destruct (proj2 (Hdom _) Ht) as [t Ht'].
  rewrite Hs', Ht'. apply andb_prop_intro.
  split; apply bool_decide_pack, elem_of_list_to_set; by eapply Himg.
Qed.

Lemma dedupe_finalize_keeps_known_relationships_witness :
  Dedupe.rel_key
    (Dedupe.merge_entities remove_dups
       [Entity "1" "Watson" None ∅; Entity "2" "Dr Watson" None ∅;
        Entity "3" "John" None ∅] default_threshold).2
    (Rel "2" "works_with" "3" (Some "text1") ∅)
  ∈ map key_of
      (Dedupe.finalize_entities_and_relationships remove_dups
         [Entity "1" "Watson" None ∅; Entity "2" "Dr Watson" None ∅;
          Entity "3" "John" None ∅]
         [Rel "2" "works_with" "3" (Some "text1") ∅;
          Rel "1" "works_with" "3" (Some "text2") ∅]).2.
Proof.
  apply dedupe_finalize_keeps_known_relationships.
  - apply list_elem_of_here.
  - apply list_elem_of_further, list_elem_of_here.
  - apply list_elem_of_further, list_elem_of_further, list_elem_of_here.
Defined.

(** X23: in resolve_entities.py the final pass redirects nothing when the
    ids of the batch are distinct: the relationships it keeps have
    canonical ids at both ends, which the map sends to themselves, so that
    the result is the same with an empty map, and each relationship
    returned has the two ends of a relationship of the input that joins two
    canonical entities.  A relationship of a record that was merged into
    another one is dropped. *)
Theorem resolve_finalize_redirects_nothing
    (entities : list entity) (relationships : list relationship) :
  NoDup (map ent_id entities) ->
  let canonical_entities :=
    (Resolve.finalize_entities_and_relationships entities relationships).1 in
  let kept :=
    filter (fun rel => Resolve.keep_rel
                         (list_to_set (map ent_id canonical_entities)) rel)
      relationships in
  (Resolve.finalize_entities_and_relationships entities relationships).2
  = Resolve.remap_relationships kept ∅
  /\ forall o,
       o ∈ (Resolve.finalize_entities_and_relationships entities
              relationships).2 ->
       exists rel,
         rel ∈ relationships /\ key_of o = key_of rel
         /\ rel_source rel ∈ map ent_id canonical_entities
         /\ rel_target rel ∈ map ent_id canonical_entities.
Proof.
  intros Hnd.
  pose proof (resolve_canonical_fixed default_threshold entities Hnd) as Hfix.
  unfold Resolve.finalize_entities_and_relationships.
  destruct (Resolve.merge_entities entities default_threshold) as [cs m].
  simpl in *.
  set (kept := filter (fun rel => Resolve.keep_rel
                                    (list_to_set (map ent_id cs)) rel)
                 relationships).
  assert (forall rel, rel ∈ kept ->
            rel ∈ relationships
            /\ rel_source rel ∈ map ent_id cs /\ rel_target rel ∈ map ent_id cs
            /\ Resolve.rel_key m rel = key_of rel) as Hkept.
  { intros rel [Hk Hrel]%list_elem_of_filter. split; [done|].
    unfold Resolve.keep_rel in Hk.
    apply andb_prop_elim in Hk as [Hs Ht].
    apply bool_decide_unpack, elem_of_list_to_set in Hs.
    apply bool_decide_unpack, elem_of_list_to_set in Ht.
    split; [done|]. split; [done|].
    unfold Resolve.rel_key, key_of.
    by rewrite (Hfix _ Hs), (Hfix _ Ht). }
  assert (Resolve.remap_relationships kept m
          = Resolve.remap_relationships kept ∅) as E.
  { unfold Resolve.remap_relationships. f_equal.
    apply (loop_ext (Resolve.rel_key ∅) (Resolve.new_rel ∅)
             (Resolve.remap_step ∅) (resolve_step_eq ∅)
             (Resolve.rel_key m) (Resolve.new_rel m) (Resolve.remap_step m)).
    - apply resolve_step_eq.
    - intros rel Hrel. destruct (Hkept rel Hrel) as (_ & _ & _ & Hk).
      assert (Resolve.rel_key m rel = Resolve.rel_key ∅ rel) as Hk'.
      { rewrite Hk. unfold Resolve.rel_key, key_of.
        by rewrite !lookup_empty. }
      split; [done|]. unfold Resolve.new_rel. by rewrite Hk'. }
  split; [done|].
  intros o Ho.
  destruct (resolve_remap_result kept m) as (_ & _ & Hfrom & _).
  destruct (Hfrom o Ho) as (l1 & rel & l2 & El & -> & _).
  assert (rel ∈ kept) as Hrel.
  { rewrite El. apply elem_of_app. right. by left. }
  destruct (Hkept rel Hrel) as (H1 & H2 & H3 & H4).
  exists rel. split; [done|]. split; [|done].
  by rewrite <- H4.
Qed.


Lemma resolve_finalize_redirects_nothing_witness :
  exists kept,
    (Resolve.finalize_entities_and_relationships
       [Entity "1" "Watson" None ∅; Entity "2" "Dr Watson" None ∅;
        Entity "3" "John" None ∅]
       [Rel "2" "works_with" "3" (Some "text1") ∅;
        Rel "1" "works_with" "3" (Some "text2") ∅]).2
    = Resolve.remap_relationships kept ∅.
Proof.
  assert (NoDup (map ent_id
            [Entity "1" "Watson" None ∅; Entity "2" "Dr Watson" None ∅;
             Entity "3" "John" None ∅])) as Hnd.
  { apply (bool_decide_unpack _). vm_compute. exact I. }
  eexists.
  exact (proj1 (resolve_finalize_redirects_nothing _ _ Hnd)).
Defined.

(** ** The similarity of a string and itself *)

Module SelfMatch.
Import Difflib DifflibProofs.

Lemma filter_ext_in {A} (P1 P2 : A -> Prop)
    `{!forall x, Decision (P1 x)} `{!forall x, Decision (P2 x)} (l : list A) :
  (forall x, x ∈ l -> P1 x <-> P2 x) -> filter P1 l = filter P2 l.
Proof.
  induction l as [|y l IH]; intros Hext; [done|].
  rewrite !filter_cons, IH by (intros x Hx; apply Hext; by right).
  destruct (decide (P1 y)) as [H1|H1], (decide (P2 y)) as [H2|H2]; try done.
  - destruct H2. apply Hext; [by left|done].
  - destruct H1. apply Hext; [by left|done].
Qed.

Lemma positions_snoc a c x :
  positions (a ++ [c]) x
  = positions a x ++ (if decide (c = x) then [length a] else []).
Proof.
  unfold positions. rewrite length_app. simpl.
  rewrite Nat.add_1_r, seq_S, filter_app. simpl. f_equal.
  - apply filter_ext_in. intros j Hj.
    apply elem_of_seq in Hj. by rewrite lookup_app_l by lia.
  - rewrite filter_cons, filter_nil.
    rewrite lookup_app_r, Nat.sub_diag by lia. simpl.
    destruct (decide (c = x)) as [->|Hne].
    + by rewrite decide_True.
    + rewrite decide_False; [done|]. by intros [= ?].
Qed.

Lemma chain_all_snoc b c :
  chain_all (b ++ [c])
  = <[c := default [] (chain_all b !! c) ++ [length b]]> (chain_all b).
Proof.
  unfold chain_all. rewrite imap_app, fold_left_app. simpl.
  by rewrite Nat.add_0_r.
Qed.

(** [b2j] lists, for a character of [b], all its positions in increasing
    order. *)
Lemma chain_all_positions b x :
  default [] (chain_all b !! x) = positions b x.
Proof.
  induction b as [|c b IH] using rev_ind; [done|].
  rewrite chain_all_snoc, positions_snoc.
  destruct (decide (c = x)) as [->|Hne].
  - by rewrite lookup_insert_eq, <- IH.
  - by rewrite lookup_insert_ne, app_nil_r.
Qed.

Lemma chain_all_Some b x js :
  chain_all b !! x = Some js -> js = positions b x.
Proof. intros H. by rewrite <- chain_all_positions, H. Qed.

Lemma chain_b_Some b x js : chain_b b !! x = Some js -> js = positions b x.
Proof.
  unfold chain_b. destruct (200 <=? length b).
  - intros H. apply map_lookup_filter_Some_1_1 in H. by apply chain_all_Some.
  - apply chain_all_Some.
Qed.

Section Self.
Variable a : list ascii.
Variable b2j : gmap ascii (list nat).
Hypothesis b2j_ok : forall x js, b2j !! x = Some js -> js = positions a x.

Abbreviation live := (same_live a b2j).
Abbreviation run := (run_length a b2j).

Lemma live_spec i j :
  live i j = true <->
  exists x, a !! i = Some x /\ a !! j = Some x /\ is_Some (b2j !! x).
Proof.
  unfold same_live. destruct (a !! i) as [x|], (a !! j) as [y|];
    try (split; [done|by intros (? & ? & ? & ?)]).
  rewrite andb_true_iff, !bool_decide_eq_true. split.
  - intros [-> H]. by exists y.
  - intros (z & [= ->] & [= ->] & H). done.
Qed.

Lemma live_diag i j : live i j = true -> live i i = true /\ live j j = true.
Proof.
  rewrite !live_spec. intros (x & Hi & Hj & Hx). split; by exists x.
Qed.

Lemma run_unfold i j :
  run i j = if live i j
            then match i with
                 | 0 => 1
                 | S i' => match j with 0 => 1 | S j' => S (run i' j') end
                 end
            else 0.
Proof. by destruct i. Qed.

Lemma run_dead i j : live i j = false -> run i j = 0.
Proof. intros H. by rewrite run_unfold, H. Qed.

Lemma run_le_diag_l i j : i <= j -> run i j <= run i i.
Proof.
  revert j. induction i as [|i IH]; intros j Hij.
  - rewrite !run_unfold. destruct (live 0 j) eqn:E; [|lia].
    by destruct (live_diag _ _ E) as [-> _].
  - rewrite (run_unfold (S i) j), (run_unfold (S i) (S i)).
    destruct (live (S i) j) eqn:E; [|lia].
    destruct (live_diag _ _ E) as [-> _].
    destruct j as [|j]; [lia|]. specialize (IH j). lia.
Qed.

Lemma run_le_diag_r i j : j <= i -> run i j <= run j j.
Proof.
  revert j. induction i as [|i IH]; intros j Hij.
  - assert (j = 0) as -> by lia. done.
  - rewrite (run_unfold (S i) j). destruct (live (S i) j) eqn:E; [|lia].
    destruct (live_diag _ _ E) as [_ Hj].
    destruct j as [|j].
    + rewrite run_unfold, Hj. lia.
    + rewrite (run_unfold (S j) (S j)), Hj. specialize (IH j). lia.
Qed.

(** [j2len] when the row [i] begins. *)
Let rows_before (i : nat) (j2len : gmap nat nat) : Prop :=
  forall j, default 0 (j2len !! j) = match i with 0 => 0 | S i' => run i' j end.

Let diagonal (i : nat) (bst : best) : Prop :=
  besti bst = bestj bst /\ forall i', i' < i -> run i' i' <= bestsize bst.

Lemma scan_row_self j2len i x m s newj2len bst :
  a !! i = Some x -> is_Some (b2j !! x) -> rows_before i j2len ->
  s + m = length a ->
  (forall j, default 0 (newj2len !! j) = if decide (j < s) then run i j else 0) ->
  diagonal i bst -> (i < s -> run i i <= bestsize bst) ->
  let r := scan_row j2len i 0 (length a)
             (filter (fun j => a !! j = Some x) (seq s m)) newj2len bst in
  (forall j, default 0 (r.1 !! j) = if decide (j < length a) then run i j else 0)
  /\ diagonal i r.2 /\ run i i <= bestsize r.2.
Proof.
  intros Hi Hx Hrows. revert s newj2len bst.
  induction m as [|m IH]; intros s new bst Hlen Hnew [Hd Hrowsb] Hself.
  - simpl. rewrite Nat.add_0_r in Hlen. subst s. split; [done|].
    split; [done|]. apply Hself. by eapply lookup_lt_Some.
  - cbn [seq]. rewrite filter_cons.
    assert (forall j, live i j = true <-> a !! j = Some x) as Hlive.
    { intros j. rewrite live_spec. split.
      - intros (y & Hy & Hj & _). congruence.
      - intros Hj. by exists x. }
    destruct (decide (a !! s = Some x)) as [Hs|Hs].
    + cbn [scan_row]. replace (s <? 0) with false by done.
      destruct (Nat.leb_spec (length a) s) as [Hbad|_]; [lia|].
      set (k := match s with 0 => 0 | S j' => default 0 (j2len !! j') end + 1).
      assert (k = run i s) as Hk.
      { unfold k. rewrite (run_unfold i s), (proj2 (Hlive s) Hs).
        destruct s as [|s'].
        - by destruct i.
        - rewrite Hrows. destruct i; lia. }
      apply IH; [lia| | |].
      * intros j. rewrite lookup_insert. case_decide as Hj.
        -- subst j. simpl. rewrite decide_True by lia. done.
        -- rewrite Hnew. destruct (decide (j < s)), (decide (j < S s)); lia.
      * destruct (Nat.ltb_spec (bestsize bst) k) as [Hlt|Hge]; [|done].
        destruct (Nat.lt_trichotomy s i) as [Hsi|[->|Hsi]].
        -- pose proof (run_le_diag_r i s ltac:(lia)).
           specialize (Hrowsb s Hsi). lia.
        -- split; [done|]. simpl. intros i' Hi'. specialize (Hrowsb i' Hi'). lia.
        -- pose proof (run_le_diag_l i s ltac:(lia)).
           specialize (Hself Hsi). lia.
      * intros His. destruct (Nat.ltb_spec (bestsize bst) k) as [Hlt|Hge].
        -- simpl. destruct (decide (s = i)) as [->|Hne]; [lia|].
           assert (i < s) as Hlt' by lia. specialize (Hself Hlt').
           pose proof (run_le_diag_l i s ltac:(lia)). lia.
        -- destruct (decide (s = i)) as [->|Hne]; [lia|].
           apply Hself. lia.
    + apply IH; [lia| |done|].
      * intros j. rewrite Hnew.
        destruct (decide (j < s)), (decide (j < S s)); try lia.
        assert (j = s) as -> by lia. symmetry. apply run_dead.
        apply not_true_iff_false. by rewrite Hlive.
      * intros His. destruct (decide (s = i)) as [->|Hne]; [congruence|].
        apply Hself. lia.
Qed.

Lemma scan_rows_self m i j2len bst :
  i + m = length a -> rows_before i j2len -> diagonal i bst ->
  besti (scan_rows a b2j 0 (length a) (seq i m) j2len bst)
  = bestj (scan_rows a b2j 0 (length a) (seq i m) j2len bst).
Proof.
  revert i j2len bst. induction m as [|m IH]; intros i j2len bst Hlen Hrows Hd.
  - simpl. by destruct Hd.
  - cbn [seq scan_rows].
    destruct (a !! i) as [x|] eqn:Hi;
      [|apply lookup_ge_None in Hi; lia].
    destruct (b2j !! x) as [js|] eqn:Hx.
    + rewrite (b2j_ok x js Hx). simpl. unfold positions.
      assert (is_Some (b2j !! x)) as Hsome by (by rewrite Hx).
      destruct (scan_row_self j2len i x (length a) 0 ∅ bst Hi Hsome Hrows)
        as (Hnew & [Hd1 Hd2] & Hself); [lia| | done | lia |].
      { intros j. rewrite lookup_empty.
        destruct (decide (j < 0)) as [?|?]; [lia|done]. }
      destruct (scan_row j2len i 0 (length a) _ ∅ bst) as [new bst'].
      simpl in *. apply IH; [lia| |].
      * intros j. rewrite Hnew. case_decide as Hj; [done|].
        symmetry. apply run_dead. apply not_true_iff_false.
        rewrite live_spec. intros (y & _ & Hy & _).
        apply lookup_lt_Some in Hy. lia.
      * split; [done|]. intros i' Hi'.
        destruct (decide (i' = i)) as [->|Hne]; [done|]. apply Hd2. lia.
    + simpl. apply IH; [lia| |].
      * intros j. rewrite lookup_empty. simpl. symmetry.
        apply run_dead. apply not_true_iff_false.
        rewrite live_spec. intros (y & Hy & _ & Hy').
        rewrite Hi in Hy. injection Hy as <-. rewrite Hx in Hy'.
        by destruct Hy'.
      * destruct Hd as [Hd1 Hd2]. split; [done|]. intros i' Hi'.
        destruct (decide (i' = i)) as [->|Hne]; [|apply Hd2; lia].
        rewrite run_dead; [lia|]. apply not_true_iff_false.
        rewrite live_spec. intros (y & Hy & _ & Hy').
        rewrite Hi in Hy. injection Hy as <-. rewrite Hx in Hy'.
        by destruct Hy'.
Qed.

Lemma same_at_self i : i < length a -> same_at a a i i = true.
Proof.
  intros Hi. unfold same_at. destruct (lookup_lt_is_Some_2 a i Hi) as [x ->].
  apply Ascii.eqb_refl.
Qed.

Lemma extend_left_self d s :
  d + s <= length a ->
  extend_left d a a 0 0 (Best d d s) = Best 0 0 (s + d).
Proof.
  revert s. induction d as [|d IH]; intros s Hle.
  - simpl. by rewrite Nat.add_0_r.
  - cbn [extend_left besti bestj bestsize].
    replace (0 <? S d) with true by done. rewrite Nat.sub_succ, Nat.sub_0_r.
    rewrite same_at_self by lia. simpl. rewrite IH by lia. f_equal. lia.
Qed.

Lemma extend_right_self fuel s :
  s + fuel = length a ->
  extend_right fuel a a (length a) (length a) (Best 0 0 s)
  = Best 0 0 (length a).
Proof.
  revert s. induction fuel as [|fuel IH]; intros s Hle.
  - simpl. f_equal. lia.
  - cbn [extend_right besti bestj bestsize]. simpl.
    destruct (Nat.ltb_spec s (length a)); [|lia]. simpl.
    rewrite same_at_self by lia. apply IH. lia.
Qed.

(** The longest match of a string and itself is the whole string. *)
Lemma find_longest_match_self :
  find_longest_match a a b2j 0 (length a) 0 (length a) = Best 0 0 (length a).
Proof.
  unfold find_longest_match. rewrite !Nat.sub_0_r.
  pose proof (scan_rows_self (length a) 0 ∅ (Best 0 0 0)) as Hdiag.
  pose proof (scan_rows_in_range a b2j 0 (length a) 0 (length a) (length a) 0 ∅
                (Best 0 0 0)) as Hrange.
  set (bst := scan_rows a b2j 0 (length a) (seq 0 (length a)) ∅ (Best 0 0 0)) in *.
  destruct Hrange as (_ & Hr & _); [lia|lia| |simpl; lia|].
  { intros j k. by rewrite lookup_empty. }
  destruct bst as [d d' s]. simpl in *.
  rewrite <- Hdiag; [|lia| |].
  - rewrite extend_left_self by lia. simpl.
    apply extend_right_self. lia.
  - intros j. by rewrite lookup_empty.
  - split; [done|]. intros i' Hi'. lia.
Qed.

Lemma blocks_loop_self fuel :
  blocks_loop (S fuel) a a b2j [(0, length a, 0, length a)] []
  = Some (if length a =? 0 then [] else [(0, 0, length a)]).
Proof.
  cbn [blocks_loop]. rewrite find_longest_match_self. simpl.
  destruct (Nat.eqb_spec (length a) 0) as [E|E].
  - by destruct fuel.
  - rewrite Nat.ltb_irrefl. simpl. by destruct fuel.
Qed.

End Self.

Lemma get_matching_blocks_self (a : list ascii) :
  sum_sizes (get_matching_blocks a a) = length a.
Proof.
  unfold get_matching_blocks.
  replace (2 * length a + 1) with (S (2 * length a)) by lia.
  rewrite (blocks_loop_self a (chain_b a) (chain_b_Some a)).
  destruct (Nat.eqb_spec (length a) 0) as [E|E].
  - simpl. by rewrite E.
  - simpl. destruct (Nat.eqb_spec (length a) 0); [done|]. simpl. lia.
Qed.

Lemma ratio_chars_self (a : list ascii) : (ratio_chars a a == 1)%Q.
Proof.
  unfold ratio_chars, calculate_ratio. rewrite get_matching_blocks_self.
  destruct (Nat.eqb_spec (length a + length a) 0) as [E|E]; [done|].
  assert (Z.pos (Pos.of_nat (length a + length a))
          = Z.of_nat (length a + length a)) as Hp.
  { rewrite <- positive_nat_Z, Nat2Pos.id by done. done. }
  unfold Qeq. cbn [Qnum Qden]. rewrite Hp. lia.
Qed.

End SelfMatch.

Import SelfMatch.

(** X24: a string and itself have the similarity 1, whatever the string:
    the longest match the matcher finds is the whole string, also when it
    has put aside the characters that are too frequent in a string of 200
    characters or more. *)
Theorem ratio_of_a_string_and_itself (a : string) : (Difflib.ratio a a == 1)%Q.
Proof. apply ratio_chars_self. Qed.

(** X25: two names that are the same once lower-cased are potential
    aliases for utils_kg.py: their similarity is 1, above the threshold. *)
Theorem is_potential_alias_same_lower_case (name1 name2 : string) :
  UtilsKg.lower_str name1 = UtilsKg.lower_str name2 ->
  UtilsKg.is_potential_alias name1 name2 = true.
Proof.
  intros E. unfold UtilsKg.is_potential_alias. rewrite E.
  apply negb_true_iff, not_true_iff_false. intros H.
  apply Qle_bool_iff in H.
  pose proof (ratio_chars_self (PyStr.chars (UtilsKg.lower_str name2))) as H1.
  unfold Difflib.ratio in H. rewrite H1 in H. by apply H.
Qed.

Lemma is_potential_alias_same_lower_case_witness :
  UtilsKg.is_potential_alias "Watson" "WATSON" = true.
Proof. apply is_potential_alias_same_lower_case. reflexivity. Defined.

(** ** The attributes of a canonical entity in dedupe_entities.py *)

Module AttrProofs.
Import Names MergeProofs.

Section Attrs.
Variable so : list string -> list string.
Variable th : Q.
Hypothesis so_members : forall l x, x ∈ so l <-> x ∈ l.

Lemma value_kept_refl v : value_kept v v.
Proof. destruct v; simpl; [done|]. by intros x Hx. Qed.

Lemma value_kept_trans v1 v2 v3 :
  value_kept v1 v2 -> value_kept v2 v3 -> value_kept v1 v3.
Proof.
  destruct v1, v2, v3; simpl; try done; [congruence|].
  intros H1 H2 x Hx. by apply H2, H1.
Qed.

Lemma absorb_attrs c e key v :
  ent_attrs c !! key = Some v ->
  exists v', ent_attrs (Dedupe.absorb so c e) !! key = Some v' /\ value_kept v v'.
Proof.
  intros Hv. unfold Dedupe.absorb. simpl. rewrite lookup_union_with, Hv.
  destruct (ent_attrs e !! key) as [y|]; simpl.
  - eexists. split; [done|]. destruct v as [s|xs], y as [t|ys]; simpl; try done.
    intros x Hx. apply so_members, elem_of_app. by left.
  - exists v. split; [done|apply value_kept_refl].
Qed.

Lemma step_attrs st e k c key v :
  st.1 !! k = Some c -> ent_attrs c !! key = Some v ->
  exists c' v',
    (Dedupe.merge_step so th st e).1 !! k = Some c'
    /\ ent_attrs c' !! key = Some v' /\ value_kept v v'.
Proof.
  destruct st as [cs m]. simpl. intros Hk Hv. unfold Dedupe.merge_step.
  destruct (find_canon th (normalize_name (ent_name e)) cs)
    as [[k' c']|] eqn:Hfind; simpl.
  - apply find_canon_Some in Hfind as (Hk' & _ & _).
    destruct (decide (k = k')) as [->|Hne].
    + assert (c' = c) as -> by congruence.
      destruct (absorb_attrs c e key v Hv) as (v' & Hv' & Hkept).
      exists (Dedupe.absorb so c e), v'.
      rewrite list_lookup_insert_eq by (by eapply lookup_lt_Some). done.
    + exists c, v. rewrite list_lookup_insert_ne by done.
      split; [done|]. split; [done|apply value_kept_refl].
  - exists c, v. rewrite lookup_app_l by (by eapply lookup_lt_Some).
    split; [done|]. split; [done|apply value_kept_refl].
Qed.

Lemma fold_attrs es st k c key v :
  st.1 !! k = Some c -> ent_attrs c !! key = Some v ->
  exists c' v',
    (fold_left (Dedupe.merge_step so th) es st).1 !! k = Some c'
    /\ ent_attrs c' !! key = Some v' /\ value_kept v v'.
Proof.
  revert st c v. induction es as [|e es IH]; intros st c v Hk Hv.
  - exists c, v. split; [done|]. split; [done|apply value_kept_refl].
  - cbn [fold_left].
    destruct (step_attrs st e k c key v Hk Hv) as (c1 & v1 & Hk1 & Hv1 & Hkept1).
    destruct (IH _ c1 v1 Hk1 Hv1) as (c2 & v2 & Hk2 & Hv2 & Hkept2).
    exists c2, v2. split; [done|]. split; [done|].
    by eapply value_kept_trans.
Qed.

End Attrs.
End AttrProofs.

(** X26: the merge of dedupe_entities.py is non-destructive: a key that a
    canonical entity has after a part of the batch is still there after
    the whole batch; its value, when a string, is the same string, and when
    a list still holds every member it held (the list built from a set
    holding the members of the set). *)
Theorem dedupe_merge_is_non_destructive
    (set_order : list string -> list string) (sim_threshold : Q)
    (done rest : list entity) (k : nat) (c : entity) (key : string) (v : value) :
  (forall l x, x ∈ set_order l <-> x ∈ l) ->
  (Dedupe.merge_entities set_order done sim_threshold).1 !! k = Some c ->
  ent_attrs c !! key = Some v ->
  exists c' v',
    (Dedupe.merge_entities set_order (done ++ rest) sim_threshold).1 !! k
    = Some c'
    /\ ent_attrs c' !! key = Some v' /\ value_kept v v'.
Proof.
  intros Hso Hk Hv. unfold Dedupe.merge_entities. rewrite fold_left_app.
  exact (AttrProofs.fold_attrs set_order sim_threshold Hso rest _ k c key v
           Hk Hv).
Qed.

Lemma dedupe_merge_is_non_destructive_witness :
  exists c' v',
    (Dedupe.merge_entities remove_dups
       ([Entity "1" "Watson" None {["role"%string := VStr "doctor"]}]
        ++ [Entity "2" "Dr Watson" None {["role"%string := VStr "writer"]}])
       default_threshold).1 !! 0 = Some c'
    /\ ent_attrs c' !! "role"%string = Some v'
    /\ value_kept (VStr "doctor") v'.
Proof.
  apply (dedupe_merge_is_non_destructive remove_dups default_threshold
           [Entity "1" "Watson" None {["role"%string := VStr "doctor"]}]
           [Entity "2" "Dr Watson" None {["role"%string := VStr "writer"]}]
           0 (Entity "1" "Watson" (Some []) {["role"%string := VStr "doctor"]})).
  - intros l x. apply elem_of_remove_dups.
  - vm_compute. reflexivity.
  - vm_compute. reflexivity.
Defined.

(** ** utils_kg.py: the pass never misses a key *)

Module UtilsProofs.
Import UtilsKg.

Lemma find_canon_total h ent cs :
  (forall c, c ∈ cs -> is_Some (dicts h !! c)) ->
  find_canon h ent cs = Some None
  \/ exists m, find_canon h ent cs = Some (Some m) /\ m ∈ cs.
Proof.
  induction cs as [|c cs IH]; intros Hcs; [by left|]. simpl.
  destruct (Hcs c) as [canon Hc]; [by left|]. rewrite Hc. simpl.
  destruct (entity_matches h ent canon).
  - right. exists c. split; [done|by left].
  - destruct IH as [IH|(m & IH & Hm)].
    + intros c' Hc'. apply Hcs. by right.
    + by left.
    + right. exists m. split; [done|by right].
Qed.

Lemma merge_step_ok h0 seen st ent_loc :
  state_ok h0 seen st -> is_Some (dicts h0 !! ent_loc) ->
  exists st', merge_step st ent_loc = Some st'
              /\ state_ok h0 (seen ++ [ent_loc]) st'.
Proof.
  destruct st as [[h cs] m]. intros (Hstore & Hsame & Hcs & Hsub & Hmap) [d0 Hd0].
  destruct (Hsame _ _ Hd0) as (ent & Hent & Hid & Hname & Hattrs).
  unfold merge_step. rewrite Hent. simpl.
  assert (forall l d, l ∈ seen ++ [ent_loc] -> dicts h0 !! l = Some d ->
            forall v, is_Some (<[d_id ent := v]> m !! d_id d)) as Hmap'.
  { intros l d [Hl| ->%list_elem_of_singleton]%elem_of_app Hd v.
    - apply lookup_insert_is_Some'. right. by eapply Hmap.
    - assert (d = d0) as -> by congruence. rewrite Hid.
      apply lookup_insert_is_Some'. by left. }
  destruct (find_canon_total h ent cs) as [->|(c & -> & Hc)].
  { intros c Hc. destruct (Hcs c Hc) as (d & al & -> & _). by eexists. }
  - simpl. eexists. split; [done|].
    destruct (d_aliases ent) as [al|] eqn:Hal.
    + split; [done|]. split; [done|]. split; [|split].
      * intros c [Hc| ->%list_elem_of_singleton]%elem_of_app; [by apply Hcs|].
        by exists ent, al.
      * by apply sublist_app.
      * intros l d Hl Hd. by eapply Hmap'.
    + set (al := fresh (dom (lists h))).
      split; [|split; [|split; [|split]]].
      * intros l d al' Hl Hal'. simpl in *.
        apply lookup_insert_is_Some'.
        destruct (decide (l = ent_loc)) as [->|Hne].
        -- rewrite lookup_insert_eq in Hl. injection Hl as <-. simpl in Hal'.
           left. congruence.
        -- rewrite lookup_insert_ne in Hl by done. right.
           by eapply Hstore.
      * intros l d Hd. simpl. destruct (decide (l = ent_loc)) as [->|Hne].
        -- rewrite lookup_insert_eq. eexists. split; [done|].
           assert (d = d0) as -> by congruence. by split.
        -- rewrite lookup_insert_ne by done. by apply Hsame.
      * intros c [Hc| ->%list_elem_of_singleton]%elem_of_app; simpl.
        -- destruct (decide (c = ent_loc)) as [->|Hne].
           ++ rewrite lookup_insert_eq. by eexists _, _.
           ++ rewrite lookup_insert_ne by done. by apply Hcs.
        -- rewrite lookup_insert_eq. by eexists _, _.
      * by apply sublist_app.
      * intros l d Hl Hd. by eapply Hmap'.
  - destruct (Hcs c Hc) as (matched & al & Hmatched & Hal).
    destruct (Hstore _ _ _ Hmatched Hal) as [l Hl].
    simpl. rewrite Hmatched. simpl. rewrite Hal. simpl. rewrite Hl. simpl.
    eexists. split; [done|].
    split; [|split; [|split; [|split]]].
    + case_bool_decide; [|done]. intros l' d' al' Hl' Hal'. simpl in *.
      apply lookup_insert_is_Some'. right. by eapply Hstore.
    + case_bool_decide; done.
    + case_bool_decide; done.
    + by apply sublist_inserts_r.
    + intros l' d Hl' Hd. by eapply Hmap'.
Qed.

Lemma merge_loop_ok h0 locs seen st :
  state_ok h0 seen st -> (forall l, l ∈ locs -> is_Some (dicts h0 !! l)) ->
  exists st', merge_loop st locs = Some st' /\ state_ok h0 (seen ++ locs) st'.
Proof.
  revert seen st. induction locs as [|l locs IH]; intros seen st Hst Hlocs.
  - exists st. by rewrite app_nil_r.
  - destruct (merge_step_ok h0 seen st l Hst) as (st1 & E1 & Hst1);
      [apply Hlocs; by left|].
    destruct (IH (seen ++ [l]) st1 Hst1) as (st2 & E2 & Hst2).
    { intros l' Hl'. apply Hlocs. by right. }
    exists st2. simpl. rewrite E1. simpl. split; [done|].
    by rewrite <- app_assoc in Hst2.
Qed.

End UtilsProofs.

(** X27: [merge_entities] of utils_kg.py misses no key: on dicts whose
    [aliases] key, if any, holds a list, the pass raises nothing (the
    canonical entity it matches always has its [aliases]), the canonical
    entities it returns are dicts of the input, in the order of the input,
    each with a list of aliases, the id of every dict of the input is a key
    of the map, and no dict has changed but in its [aliases] key. *)
Theorem utils_kg_merge_entities_returns
    (h : UtilsKg.heap) (global_entities : list UtilsKg.loc) :
  aliases_in_store h ->
  (forall l, l ∈ global_entities -> is_Some (UtilsKg.dicts h !! l)) ->
  exists h' canonical_entities resolved_map,
    UtilsKg.merge_entities h global_entities
    = Some (h', canonical_entities, resolved_map)
    /\ canonical_entities `sublist_of` global_entities
    /\ (forall c, c ∈ canonical_entities ->
          exists d al, UtilsKg.dicts h' !! c = Some d
                       /\ UtilsKg.d_aliases d = Some al
                       /\ is_Some (UtilsKg.lists h' !! al))
    /\ (forall l d, l ∈ global_entities -> UtilsKg.dicts h !! l = Some d ->
          is_Some (resolved_map !! UtilsKg.d_id d))
    /\ (forall l d, UtilsKg.dicts h !! l = Some d ->
          exists d', UtilsKg.dicts h' !! l = Some d' /\ same_but_aliases d d').
Proof.
  intros Hstore Hlocs.
  destruct (UtilsProofs.merge_loop_ok h global_entities [] (h, [], ∅))
    as ([[h' cs] m] & E & Hst); [|done|].
  - split; [done|]. split; [|split; [|split]].
    + intros l d Hd. exists d. by split.
    + intros c Hc. by apply elem_of_nil in Hc.
    + constructor.
    + intros l d Hl. by apply elem_of_nil in Hl.
  - destruct Hst as (Hstore' & Hsame & Hcs & Hsub & Hmap).
    exists h', cs, m. split; [done|]. split; [done|]. split; [|split; [|done]].
    + intros c Hc. destruct (Hcs c Hc) as (d & al & Hd & Hal).
      exists d, al. split; [done|]. split; [done|]. by eapply Hstore'.
    + intros l d Hl Hd. by eapply Hmap.
Qed.

Lemma utils_kg_merge_entities_returns_witness :
  exists h' canonical_entities resolved_map,
    UtilsKg.merge_entities
      (UtilsKg.Heap {[0 := UtilsKg.Dict "1" "Watson" None ∅;
                      1 := UtilsKg.Dict "2" "watson" None ∅]} ∅) [0; 1]
    = Some (h', canonical_entities, resolved_map)
    /\ canonical_entities `sublist_of` [0; 1].
Proof.
  destruct (utils_kg_merge_entities_returns
              (UtilsKg.Heap {[0 := UtilsKg.Dict "1" "Watson" None ∅;
                              1 := UtilsKg.Dict "2" "watson" None ∅]} ∅) [0; 1])
    as (h' & cs & m & H1 & H2 & _).
  - intros l d al Hl Hal. simpl in Hl.
    destruct (decide (l = 0)) as [->|H0].
    + rewrite lookup_insert_eq in Hl. injection Hl as <-. discriminate Hal.
    + rewrite lookup_insert_ne in Hl by congruence.
      destruct (decide (l = 1)) as [->|H1'].
      * rewrite lookup_singleton_eq in Hl. injection Hl as <-. discriminate Hal.
      * rewrite lookup_singleton_ne in Hl by congruence. discriminate Hl.
  - intros l Hl. simpl.
    apply elem_of_cons in Hl as [->|Hl]; [eexists; reflexivity|].
    apply elem_of_cons in Hl as [->|Hl]; [eexists; reflexivity|].
    apply elem_of_nil in Hl. destruct Hl.
  - exists h', cs, m. split; [exact H1|exact H2].
Defined.

(** ** [strip_gutenberg_header_footer] *)

Module GutenbergProofs.
Import PyStr Gutenberg StrProofs.

Lemma lower_char_star c : lower_char c = "*"%char -> c = "*"%char.
Proof.
  destruct c as [[] [] [] [] [] [] [] []]; vm_compute; intros H;
    first [reflexivity | discriminate H].
Qed.

Lemma skip_stars_other c l : c <> "*"%char -> skip_literal stars (c :: l) = None.
Proof.
  intros Hc.
  change stars with ["*"%char; "*"%char; "*"%char]. cbn [skip_literal].
  change (lower_char "*"%char) with "*"%char.
  destruct (Ascii.eqb_spec "*"%char (lower_char c)) as [E|_]; [|done].
  destruct Hc. by apply lower_char_star.
Qed.

Lemma marker_other word c l : c <> "*"%char -> marker word (c :: l) = None.
Proof. intros Hc. unfold marker. by rewrite skip_stars_other. Qed.

Lemma search_next {A} (f : nat -> list ascii -> option A) pos c l :
  f pos (c :: l) = None -> search f pos (c :: l) = search f (S pos) l.
Proof. intros H. simpl. by rewrite H. Qed.

Lemma search_here {A} (f : nat -> list ascii -> option A) pos l r :
  f pos l = Some r -> search f pos l = Some (pos, r).
Proof. intros H. destruct l; simpl; by rewrite H. Qed.

(** No marker starts in a text without [*]. *)
Lemma search_marker_skip word l1 l2 pos :
  no_star l1 ->
  search (fun _ l => marker word l) pos (l1 ++ l2)
  = search (fun _ l => marker word l) (pos + length l1) l2.
Proof.
  intros H. revert pos. induction H as [|c l1 Hc _ IH]; intros pos.
  - simpl. by rewrite Nat.add_0_r.
  - rewrite <- app_comm_cons, search_next by (by apply marker_other).
    rewrite IH. f_equal. simpl. lia.
Qed.

Lemma find_stars_skip l1 l2 :
  no_star l1 -> find_stars (l1 ++ stars ++ l2) = Some (length l1).
Proof.
  induction 1 as [|c l1 Hc _ IH]; [done|].
  rewrite <- app_comm_cons. cbn [find_stars].
  rewrite skip_stars_other by done. by rewrite IH.
Qed.

(** A marker line is matched as a whole. *)
Lemma marker_start_line title rest :
  no_star title ->
  marker (chars "START") (marker_line (chars "START") title ++ rest)
  = Some (length (marker_line (chars "START") title)).
Proof.
  intros Ht. unfold marker_line, marker, marker_tail. simpl.
  rewrite <- app_assoc. rewrite find_stars_skip by done. simpl.
  f_equal. rewrite !length_app. simpl. lia.
Qed.

Lemma marker_end_line title rest :
  no_star title ->
  marker (chars "END") (marker_line (chars "END") title ++ rest)
  = Some (length (marker_line (chars "END") title)).
Proof.
  intros Ht. unfold marker_line, marker, marker_tail. simpl.
  rewrite <- app_assoc. rewrite find_stars_skip by done. simpl.
  f_equal. rewrite !length_app. simpl. lia.
Qed.

(** No end marker starts in a start line that a newline follows. *)
Lemma search_end_skip_start_line title rest pos :
  no_star title ->
  search (fun _ l => marker (chars "END") l) pos
    (marker_line (chars "START") title ++ newline :: rest)
  = search (fun _ l => marker (chars "END") l)
      (pos + length (marker_line (chars "START") title)) (newline :: rest).
Proof.
  intros Ht. unfold marker_line.
  change (stars ++ space ++ chars "START"
          ++ chars " OF THE PROJECT GUTENBERG EBOOK" ++ title ++ stars)
    with ("*"%char :: "*"%char :: "*"%char
          :: (chars " START OF THE PROJECT GUTENBERG EBOOK" ++ title ++ stars)).
  rewrite <- !app_comm_cons.
  rewrite search_next by done. rewrite search_next by done.
  rewrite search_next by done.
  rewrite <- app_assoc, search_marker_skip by (by repeat constructor).
  rewrite <- app_assoc, search_marker_skip by done.
  change (stars ++ newline :: rest)
    with ("*"%char :: "*"%char :: "*"%char :: newline :: rest).
  rewrite search_next by done. rewrite search_next by done.
  rewrite search_next by done.
  f_equal. simpl. rewrite !length_app. simpl. lia.
Qed.

Lemma strip_newline l : strip (newline :: l) = strip l.
Proof. done. Qed.

End GutenbergProofs.

Import GutenbergProofs.

(** X28: what [strip_gutenberg_header_footer] returns is a part of the
    text, taken as it stands, with no white space at its ends. *)
Theorem strip_gutenberg_returns_stripped_part (text : string) :
  let core := chars (Gutenberg.strip_gutenberg_header_footer text) in
  strip core = core /\ exists before after, chars text = before ++ core ++ after.
Proof.
  unfold Gutenberg.strip_gutenberg_header_footer. cbv zeta. rewrite chars_str.
  set (t := chars text). set (s := Gutenberg.start_idx t).
  set (n := Gutenberg.end_idx t - s).
  split; [apply strip_idem|].
  destruct (strip_spec (take n (drop s t))) as (l1 & l2 & E & _).
  exists (take s t ++ l1), (l2 ++ drop n (drop s t)).
  rewrite <- (take_drop s t) at 1. rewrite <- (take_drop n (drop s t)) at 1.
  rewrite E at 1. by rewrite <- !app_assoc.
Qed.

Module GutenbergOrder.
Import PyStr Gutenberg StrProofs GutenbergProofs.

Lemma search_ge {A} (f : nat -> list ascii -> option A) l pos p r :
  search f pos l = Some (p, r) -> pos <= p.
Proof.
  revert pos. induction l as [|c l IH]; intros pos; simpl.
  - destruct (f pos []); [|done]. intros [= <- _]. lia.
  - destruct (f pos (c :: l)); [intros [= <- _]; lia|].
    intros H%IH. lia.
Qed.

(** A pattern that matches somewhere in the text is found. *)
Lemma search_finds {A} (f : list ascii -> option A) l1 l2 pos :
  is_Some (f l2) -> is_Some (search (fun _ l => f l) pos (l1 ++ l2)).
Proof.
  intros [r Hr]. revert pos. induction l1 as [|c l1 IH]; intros pos.
  - simpl. rewrite (search_here (fun _ l => f l) pos l2 r Hr). by eexists.
  - rewrite <- app_comm_cons. cbn [search].
    destruct (f (c :: l1 ++ l2)); [by eexists|]. apply IH.
Qed.

Lemma find_stars_finds l1 l2 : is_Some (find_stars (l1 ++ stars ++ l2)).
Proof.
  induction l1 as [|c l1 IH].
  - by eexists.
  - rewrite <- app_comm_cons. cbn [find_stars].
    destruct (skip_literal stars (c :: l1 ++ stars ++ l2)); [by eexists|].
    destruct IH as [k ->]. by eexists.
Qed.

(** A marker line is matched, whatever its title. *)
Lemma marker_start_line_matches title rest :
  is_Some (marker (chars "START") (marker_line (chars "START") title ++ rest)).
Proof.
  unfold marker_line, marker, marker_tail. simpl.
  rewrite <- app_assoc.
  destruct (find_stars_finds title rest) as [k ->]. by eexists.
Qed.

Lemma marker_end_line_matches title rest :
  is_Some (marker (chars "END") (marker_line (chars "END") title ++ rest)).
Proof.
  unfold marker_line, marker, marker_tail. simpl.
  rewrite <- app_assoc.
  destruct (find_stars_finds title rest) as [k ->]. by eexists.
Qed.

(** No start marker starts where an end line starts. *)
Lemma marker_start_at_end_line title rest :
  marker (chars "START") (marker_line (chars "END") title ++ rest) = None.
Proof. reflexivity. Qed.

End GutenbergOrder.

(** X29: a text whose end line comes before its start line is cut down to
    nothing: when, after a header with no [*], an end line stands before a
    start line, whatever is between them and after them,
    [strip_gutenberg_header_footer] returns the empty string (the end is
    found at the end line and the start after the start marker that comes
    first, so the slice is empty) and raises nothing. *)
Theorem strip_gutenberg_end_before_start
    (header title1 between title2 rest : list ascii) :
  no_star header ->
  Gutenberg.strip_gutenberg_header_footer
    (str (header ++ marker_line (chars "END") title1 ++ between
          ++ marker_line (chars "START") title2 ++ rest))
  = ""%string.
Proof.
  intros Hh.
  unfold Gutenberg.strip_gutenberg_header_footer. cbv zeta. rewrite chars_str.
  set (el := marker_line (chars "END") title1).
  set (sl := marker_line (chars "START") title2).
  assert (Gutenberg.end_idx (header ++ el ++ between ++ sl ++ rest)
          = length header) as ->.
  { unfold Gutenberg.end_idx. rewrite search_marker_skip by done.
    destruct (GutenbergOrder.marker_end_line_matches title1
                (between ++ sl ++ rest)) as [n Hn].
    fold el in Hn.
    rewrite (search_here _ _ _ n); [simpl; lia|exact Hn]. }
  assert (length header < Gutenberg.start_idx
                            (header ++ el ++ between ++ sl ++ rest)) as Hlt.
  { unfold Gutenberg.start_idx. rewrite search_marker_skip by done.
    assert (exists tl, el ++ between ++ sl ++ rest
                       = "*"%char :: tl ++ sl ++ rest) as (tl & E).
    { exists (["*"%char; "*"%char]
              ++ (chars " END OF THE PROJECT GUTENBERG EBOOK"
                  ++ title1 ++ Gutenberg.stars) ++ between).
      unfold el, marker_line.
      change Gutenberg.stars with ["*"%char; "*"%char; "*"%char].
      simpl. do 38 f_equal. by rewrite <- !app_assoc. }
    pose proof (GutenbergOrder.marker_start_at_end_line title1
                  (between ++ sl ++ rest)) as Hnone.
    fold el in Hnone.
    rewrite E in *. rewrite search_next by exact Hnone.
    destruct (GutenbergOrder.search_finds
                (Gutenberg.marker (chars "START")) tl (sl ++ rest)
                (S (0 + length header))) as [[p n] Hs].
    { apply GutenbergOrder.marker_start_line_matches. }
    rewrite Hs. apply GutenbergOrder.search_ge in Hs. lia. }
  replace (length header
           - Gutenberg.start_idx (header ++ el ++ between ++ sl ++ rest))
    with 0 by lia.
  done.
Qed.

Lemma strip_gutenberg_end_before_start_witness :
  Gutenberg.strip_gutenberg_header_footer
    (str (chars "Notes. " ++ marker_line (chars "END") (chars " EMMA ")
          ++ chars " some text "
          ++ marker_line (chars "START") (chars " EMMA ") ++ chars " more"))
  = ""%string.
Proof.
  apply strip_gutenberg_end_before_start; repeat constructor; discriminate.
Defined.

(** X30: a text made of a header, a start line, a newline, a body, an
    end line and a footer, with no [*] in the header, in the two titles
    and in the body, is cut down to its body, stripped. *)
Theorem strip_gutenberg_returns_the_body
    (header title1 body title2 footer : list ascii) :
  no_star header -> no_star title1 -> no_star body -> no_star title2 ->
  Gutenberg.strip_gutenberg_header_footer
    (str (header ++ marker_line (chars "START") title1 ++ Gutenberg.newline
          :: body ++ marker_line (chars "END") title2 ++ footer))
  = str (strip body).
Proof.
  intros Hh Ht1 Hb Ht2.
  unfold Gutenberg.strip_gutenberg_header_footer. cbv zeta. rewrite chars_str.
  set (sl := marker_line (chars "START") title1).
  set (el := marker_line (chars "END") title2).
  assert (Gutenberg.start_idx
            (header ++ sl ++ Gutenberg.newline :: body ++ el ++ footer)
          = length header + length sl) as ->.
  { unfold Gutenberg.start_idx. rewrite search_marker_skip by done.
    rewrite (search_here _ _ _ (length sl)); [done|].
    by apply marker_start_line. }
  assert (Gutenberg.end_idx
            (header ++ sl ++ Gutenberg.newline :: body ++ el ++ footer)
          = length header + length sl + S (length body)) as ->.
  { unfold Gutenberg.end_idx. rewrite search_marker_skip by done.
    unfold sl at 1. rewrite search_end_skip_start_line by done. fold sl.
    change (Gutenberg.newline :: body ++ el ++ footer)
      with ((Gutenberg.newline :: body) ++ el ++ footer).
    rewrite search_marker_skip by (constructor; done).
    rewrite (search_here _ _ _ (length el)); [simpl; lia|].
    by apply marker_end_line. }
  f_equal.
  replace (length header + length sl + S (length body)
           - (length header + length sl)) with (S (length body)) by lia.
  rewrite app_assoc, drop_app_length' by (rewrite length_app; lia).
  change (Gutenberg.newline :: body ++ el ++ footer)
    with ((Gutenberg.newline :: body) ++ el ++ footer).
  rewrite take_app_length' by done. apply strip_newline.
Qed.

Lemma strip_gutenberg_returns_the_body_witness :
  Gutenberg.strip_gutenberg_header_footer
    (str (chars "Header" ++ marker_line (chars "START") (chars " EMMA ")
          ++ Gutenberg.newline
          :: chars " Body text. " ++ marker_line (chars "END") (chars " EMMA ")
          ++ chars "footer"))
  = str (strip (chars " Body text. ")).
Proof.
  apply strip_gutenberg_returns_the_body; repeat constructor; discriminate.
Defined.

(** * Examples

    The examples of the specification and of the [__main__] block of
    resolve_entities.py, run through the embedding. *)

Module Examples.
Import PyStr Chunker Names.
Open Scope string_scope.

Example normalize_name_examples :
  map normalize_name ["Dr. Watson"; "  DR  John   H. Watson "; "Mrs.Smith"; "sir."; ""]
  = ["watson"; "john h. watson"; "mrs.smith"; ""; ""].
Proof. vm_compute. reflexivity. Qed.

Example ratio_examples :
  Difflib.ratio "abcd" "bcde" = (6 # 8)%Q
  /\ Difflib.ratio "watson" "holmes" = (2 # 12)%Q
  /\ Difflib.ratio "" "" = 1%Q
  /\ Difflib.get_matching_blocks (chars "abxcd") (chars "abcd")
     = [(0, 0, 2); (3, 2, 2); (5, 4, 0)].
Proof. repeat split; vm_compute; reflexivity. Qed.

Example dedupe_merge_entities_example :
  Dedupe.merge_entities remove_dups
    [Entity "1" "Watson" None ∅; Entity "2" "Dr Watson" None ∅;
     Entity "3" "John" None ∅] default_threshold
  = ([Entity "1" "Watson" (Some ["Dr Watson"]) ∅;
      Entity "3" "John" (Some []) ∅],
     {["1" := "1"; "2" := "1"; "3" := "3"]}).
Proof. vm_compute. reflexivity. Qed.

Example resolve_merge_entities_example :
  Resolve.merge_entities
    [Entity "1" "Watson" None ∅; Entity "2" "Dr Watson" None ∅;
     Entity "3" "John" None ∅] default_threshold
  = ([Entity "1" "Watson" (Some ["Dr Watson"]) ∅;
      Entity "3" "John" (Some []) ∅],
     {["1" := "1"; "2" := "1"; "3" := "3"]}).
Proof. vm_compute. reflexivity. Qed.

(** The two relationships of the example have the same triple once they are
    remapped.  dedupe_entities.py keeps both and then the first evidence;
    resolve_entities.py drops the first one before the remapping, since its
    source "2" is no canonical id. *)
Example dedupe_finalize_example :
  (Dedupe.finalize_entities_and_relationships remove_dups
     [Entity "1" "Watson" None ∅; Entity "2" "Dr Watson" None ∅;
      Entity "3" "John" None ∅]
     [Rel "2" "works_with" "3" (Some "text1") ∅;
      Rel "1" "works_with" "3" (Some "text2") ∅]).2
  = [Rel "1" "works_with" "3" (Some "text1") ∅].
Proof. vm_compute. reflexivity. Qed.

Example resolve_finalize_example :
  (Resolve.finalize_entities_and_relationships
     [Entity "1" "Watson" None ∅; Entity "2" "Dr Watson" None ∅;
      Entity "3" "John" None ∅]
     [Rel "2" "works_with" "3" (Some "text1") ∅;
      Rel "1" "works_with" "3" (Some "text2") ∅]).2
  = [Rel "1" "works_with" "3" (Some "text2") ∅].
Proof. vm_compute. reflexivity. Qed.

Example re_split_examples :
  map str (re_split (chars "A. B. C.")) = ["A."; " B."; " C."; ""]
  /\ map str (re_split (chars "a..b")) = ["a."; "."; "b"].
Proof. split; reflexivity. Qed.

Example chunk_text_examples :
  chunk_text "A. B. C." 4 0 = inr ["A."; "B."; "C."]
  /\ chunk_text "abcdefg. hi." 3 0 = inr ["abc"; "def"; "g."; "hi."]
  /\ chunk_text "one two. three four. five." 12 5
     = inr ["one two."; "two. three four."; "five."]
  /\ chunk_text "A. B." 0 0 = inl ValueError
  /\ chunk_text "A. B." 5 (-1) = inl ValueError.
Proof. repeat split; reflexivity. Qed.

End Examples.
